(** * Vocabulary builder: the generation client and the orchestrator

    A shallow embedding of the TypeScript sources:
    - [services/geminiService.ts]: [getCurrentApiKey], [setApiKey],
      [ensureAiClient], [analyzeTextForVocabulary], [generateWorksheetData],
      [streamDefinition], [generateAsciiArt];
    - [components/ApiKeyManager.tsx]: the mount effect, [handleSaveKey],
      [handleRemoveKey], [maskApiKey];
    - [App.tsx]: [createFallbackArt], [AnalyzedContent],
      [handleSelectionChange], [createProgressSteps], [updateProgressStep],
      the definition-fetch effect, [handleAnalyze], [handleRandom],
      [handleWordClick], [handleGenerateWorksheet], [handleBackToAnalyzer],
      [handleClear], [handleApiKeyChange].

    JavaScript strings are sequences of UTF-16 code units.  An [async]
    function is split at its [await]s: the synchronous prefix runs on the
    module state and ends either settled or suspended on a network request
    with the rest of the body as continuation. *)

From Stdlib Require Import ZArith NArith Lia String Ascii List Bool DecimalString.
From stdpp Require Import base decidable option list gmap.

Set Warnings "-register-all".
Open Scope N_scope.
Open Scope nat_scope.
Open Scope list_scope.

(** ** JavaScript strings *)

Module Js.

(** A string is its list of UTF-16 code units. *)
Abbreviation jsstring := (list N).

(** A string literal of the source that only uses Basic Latin. *)
Definition lit (s : string) : jsstring :=
  map N_of_ascii (list_ascii_of_string s).

(** The double quote, which the literals above cannot hold. *)
Definition dquote : jsstring := [34%N].

(** ECMAScript [WhiteSpace] and [LineTerminator] code units: the set that
    [String.prototype.trim] strips and that the pattern class [\s] matches. *)
Definition isWhiteSpace (c : N) : bool :=
  (  (9 <=? c) && (c <=? 13)            (* TAB LF VT FF CR *)
  || (c =? 32) || (c =? 160)            (* SPACE, NBSP *)
  || (c =? 5760)                        (* OGHAM SPACE MARK *)
  || (8192 <=? c) && (c <=? 8202)       (* EN QUAD .. HAIR SPACE *)
  || (c =? 8232) || (c =? 8233)         (* LINE / PARAGRAPH SEPARATOR *)
  || (c =? 8239) || (c =? 8287)         (* NARROW NBSP, MEDIUM MATH SPACE *)
  || (c =? 12288) || (c =? 65279))%N.   (* IDEOGRAPHIC SPACE, BOM *)

Fixpoint trimStart (s : jsstring) : jsstring :=
  match s with
  | c :: s' => if isWhiteSpace c then trimStart s' else s
  | [] => []
  end.

Definition trimEnd (s : jsstring) : jsstring := rev (trimStart (rev s)).

(** [s.trim()] *)
Definition trim (s : jsstring) : jsstring := trimEnd (trimStart s).

(** ToBoolean on a string: the empty string is the only falsy one. *)
Definition truthy (s : jsstring) : bool :=
  match s with [] => false | _ => true end.

Fixpoint startsWith (s p : jsstring) : bool :=
  match p, s with
  | [], _ => true
  | _ :: _, [] => false
  | a :: p', b :: s' => (a =? b)%N && startsWith s' p'
  end.

Definition endsWith (s p : jsstring) : bool := startsWith (rev s) (rev p).

(** [s === t] on strings. *)
Definition streq (s t : jsstring) : bool := bool_decide (s = t).

(** Decimal rendering of a small number inside a template literal. *)
Definition ofNat (n : nat) : jsstring :=
  lit (NilEmpty.string_of_uint (Nat.to_uint n)).

(** [parts.join(sep)] *)
Fixpoint join (sep : jsstring) (parts : list jsstring) : jsstring :=
  match parts with
  | [] => []
  | [w] => w
  | w :: rest => w ++ sep ++ join sep rest
  end.

(** Every code unit of the string is white space. *)
Definition blank (s : jsstring) : Prop := Forall (fun c => isWhiteSpace c = true) s.

End Js.
Import Js.

(** ** Values produced by [JSON.parse] *)

Module Json.

(** A finite IEEE double, [(-1)^sign * mant * 2^exp]; only its being zero
    is ever observed by the code. *)
Record number := mkNumber { sign : bool; mant : N; expo : Z }.

Inductive value : Type :=
| JNull
| JBool (b : bool)
| JNum (n : number)
| JStr (s : jsstring)
| JArr (items : list value)
| JObj (fields : list (jsstring * value)).

(** The result of a property read: [None] is [undefined].  The fields of
    an object are looked up from the front. *)
Definition lookup_field (k : jsstring) (fields : list (jsstring * value)) : option value :=
  snd <$> find (fun kv => streq (fst kv) k) fields.

(** ToBoolean; [None] stands for [undefined]. *)
Definition truthy (v : option value) : bool :=
  match v with
  | None | Some JNull => false
  | Some (JBool b) => b
  | Some (JNum n) => negb (mant n =? 0)%N
  | Some (JStr s) => Js.truthy s
  | Some (JArr _) | Some (JObj _) => true
  end.

Definition isArray (v : value) : bool :=
  match v with JArr _ => true | _ => false end.

Definition isString (v : value) : bool :=
  match v with JStr _ => true | _ => false end.

Definition ofNat (n : nat) : value := JNum (mkNumber false (N.of_nat n) 0).

End Json.
Import Json.

(** ** Exceptions, settled promises and suspended computations *)

(** What a [catch (error)] clause can receive: an [Error] instance with its
    message, or some other thrown value. *)
Inductive thrown : Type :=
| ErrorObj (message : jsstring)
| NonError.

(** [error instanceof Error ? error.message : fallback] *)
Definition messageOr (fallback : jsstring) (e : thrown) : jsstring :=
  match e with ErrorObj m => m | NonError => fallback end.

(** The requests the client sends; the prompt is determined by the payload. *)
Inductive request : Type :=
| ReqVocabulary (apiKey text : jsstring)
| ReqWorksheet (apiKey text : jsstring) (words : list jsstring)
| ReqAsciiArt (apiKey topic : jsstring)
| ReqStream (apiKey topic : jsstring).

(** How an awaited [generateContent] call settles; [response.text] is a
    string or [undefined]. *)
Inductive reply : Type :=
| Rejected (e : thrown)
| Responded (text : option jsstring).

(** An [async] function after its synchronous prefix. *)
Inductive task (A : Type) : Type :=
| Done (r : thrown + A)
| Await (req : request) (k : reply -> task A).
Arguments Done {A} r.
Arguments Await {A} req k.

(** Runs a task against a service that answers the n-th request with
    [service n]; returns the settlement and the requests sent, oldest first. *)
Fixpoint run {A} (service : nat -> reply) (sent : list request) (t : task A)
  : (thrown + A) * list request :=
  match t with
  | Done r => (r, sent)
  | Await req k => run service (sent ++ [req]) (k (service (length sent)))
  end.

(** ** services/geminiService.ts *)

Module GeminiService.

(** Module-level state and the places a key can come from. *)
Record World := mkWorld {
  ai : option jsstring;                     (* [let ai]: the client, by its key *)
  window_defined : bool;                    (* [typeof window !== 'undefined'] *)
  localStorage : gmap jsstring jsstring;
  VITE_GEMINI_API_KEY : option jsstring;    (* [import.meta.env?.VITE_GEMINI_API_KEY] *)
  process_env_API_KEY : option jsstring     (* [process.env?.API_KEY], if [process] exists *)
}.

Definition with_ai (c : option jsstring) (w : World) : World :=
  mkWorld c (window_defined w) (localStorage w)
          (VITE_GEMINI_API_KEY w) (process_env_API_KEY w).

Definition storage_key : jsstring := lit "gemini_api_key".

(** [x && x.trim()] on a possibly absent string. *)
Definition usable (x : option jsstring) : bool :=
  match x with
  | Some s => Js.truthy s && Js.truthy (trim s)
  | None => false
  end.

Definition getCurrentApiKey (w : World) : option jsstring :=
  let userKey := if window_defined w then localStorage w !! storage_key else None in
  if usable userKey then userKey
  else if usable (VITE_GEMINI_API_KEY w) then VITE_GEMINI_API_KEY w
  else match process_env_API_KEY w with
       | Some k =>
           if Js.truthy k && negb (streq k (lit "PLACEHOLDER_API_KEY"))
           then Some k else None
       | None => None
       end.

Definition no_key_message : jsstring :=
  lit "No API key configured. Please set up your Gemini API key.".

(** Returns the client (its key) or throws; creates the client on demand. *)
Definition ensureAiClient (w : World) : (thrown + jsstring) * World :=
  match ai w with
  | Some client => (inr client, w)
  | None =>
      match getCurrentApiKey w with
      | Some apiKey =>
          if Js.truthy apiKey then (inr apiKey, with_ai (Some apiKey) w)
          else (inl (ErrorObj no_key_message), w)
      | None => (inl (ErrorObj no_key_message), w)
      end
  end.

Definition setApiKey (apiKey : option jsstring) (w : World) : World :=
  match apiKey with
  | Some k =>
      if Js.truthy k && Js.truthy (trim k) then with_ai (Some (trim k)) w
      else with_ai None w
  | None => with_ai None w
  end.

Definition unknown_error : jsstring := lit "An unknown error occurred.".

Record AsciiArtData := mkArt { art : jsstring; text : option value }.

Section Runtime.

(** [JSON.parse]: the parsed value, or the message of its [SyntaxError]. *)
Variable JSON_parse : jsstring -> jsstring + value.

(** The message of the [TypeError] raised by reading property [k] of [null]
    ([true]) or of [undefined] ([false]). *)
Variable typeErrorMessage : bool -> jsstring -> jsstring.

(** ToString of the argument that [JSON.parse] receives. *)
Definition textArg (t : option jsstring) : jsstring :=
  match t with Some s => s | None => lit "undefined" end.

(** [v.k] for the property names the code reads. *)
Definition getProp (v : value) (k : jsstring) : thrown + option value :=
  match v with
  | JNull => inl (ErrorObj (typeErrorMessage true k))
  | JObj fields => inr (lookup_field k fields)
  | JArr items =>
      inr (if streq k (lit "length") then Some (Json.ofNat (length items)) else None)
  | JStr s =>
      inr (if streq k (lit "length") then Some (Json.ofNat (length s)) else None)
  | JBool _ | JNum _ => inr None
  end.

(** [v === 0] for the result of a property read. *)
Definition isZero (v : option value) : bool :=
  match v with Some (JNum n) => (mant n =? 0)%N | _ => false end.

(** *** analyzeTextForVocabulary *)

Fixpoint strings_of (items : list value) : option (list jsstring) :=
  match items with
  | [] => Some []
  | JStr s :: rest => cons s <$> strings_of rest
  | _ :: _ => None
  end.

(** The [try] block once the request has settled. *)
Definition analyze_try (r : reply) : thrown + list jsstring :=
  match r with
  | Rejected e => inl e
  | Responded t =>
      match JSON_parse (textArg t) with
      | inl m => inl (ErrorObj m)
      | inr (JArr items) =>
          match strings_of items with
          | Some ws => inr ws
          | None => inl (ErrorObj (lit "API returned data in an unexpected format."))
          end
      | inr _ => inl (ErrorObj (lit "API returned data in an unexpected format."))
      end
  end.

(** The [catch] clause: every failure is rethrown with a prefix. *)
Definition analyze_catch (r : thrown + list jsstring) : thrown + list jsstring :=
  match r with
  | inl error =>
      inl (ErrorObj (lit "Could not analyze text for vocabulary: "
                     ++ messageOr unknown_error error))
  | inr ws => inr ws
  end.

Definition analyzeTextForVocabulary (text : jsstring) (w : World)
  : task (list jsstring) * World :=
  match ensureAiClient w with
  | (inl e, w') => (Done (inl e), w')
  | (inr client, w') =>
      if negb (Js.truthy (trim text)) then (Done (inr []), w')
      else (Await (ReqVocabulary client text)
                  (fun r => Done (analyze_catch (analyze_try r))), w')
  end.

(** *** generateWorksheetData *)

Definition incomplete : thrown :=
  ErrorObj (lit "API returned incomplete worksheet data.").

Definition worksheet_try (r : reply) : thrown + value :=
  match r with
  | Rejected e => inl e
  | Responded t =>
      match JSON_parse (textArg t) with
      | inl m => inl (ErrorObj m)
      | inr data =>
          match getProp data (lit "title") with
          | inl e => inl e
          | inr title =>
              if negb (Json.truthy title) then inl incomplete
              else
                match getProp data (lit "wordDetails") with
                | inl e => inl e
                | inr wordDetails =>
                    if negb (Json.truthy wordDetails) then inl incomplete
                    else
                      match wordDetails with
                      | None => inl incomplete
                      | Some wd =>
                          match getProp wd (lit "length") with
                          | inl e => inl e
                          | inr len => if isZero len then inl incomplete else inr data
                          end
                      end
                end
          end
      end
  end.

Definition worksheet_catch (r : thrown + value) : thrown + value :=
  match r with
  | inl error =>
      inl (ErrorObj (lit "Could not generate worksheet: "
                     ++ messageOr unknown_error error))
  | inr d => inr d
  end.

Definition invalid_input : thrown :=
  ErrorObj (lit "Invalid input for worksheet generation.").

Definition generateWorksheetData (text : jsstring) (words : list jsstring) (w : World)
  : task value * World :=
  match ensureAiClient w with
  | (inl e, w') => (Done (inl e), w')
  | (inr client, w') =>
      if negb (Js.truthy (trim text)) || (length words =? 0)
      then (Done (inl invalid_input), w')
      else (Await (ReqWorksheet client text words)
                  (fun r => Done (worksheet_catch (worksheet_try r))), w')
  end.

(** *** generateAsciiArt *)

Definition ENABLE_ASCII_TEXT_GENERATION : bool := false.

Definition fence : jsstring := lit "```".

Definition dropPrefix (p s : jsstring) : jsstring :=
  if startsWith s p then drop (length p) s else s.

(** [s.replace(/^```(?:json)?\s*\n?(.*?)\n?\s*```$/s, '$1')].  The pattern is
    anchored at both ends, so it matches the whole string or nothing: it
    matches when [s] opens and closes with two separate fences, the greedy
    [(?:json)?\s*] takes an opening [json] and the white space after it, and
    the lazy group stops where only white space is left before the closing
    fence. *)
Definition stripFence (s : jsstring) : jsstring :=
  if startsWith s fence && endsWith (drop 3 s) fence then
    trim (dropPrefix (lit "json") (take (length s - 6) (drop 3 s)))
  else s.

Definition bad_art : thrown := ErrorObj (lit "Invalid or empty ASCII art in response").

(** One pass through the [try] block. *)
Definition ascii_try (r : reply) : thrown + AsciiArtData :=
  match r with
  | Rejected e => inl e
  | Responded None => inl (ErrorObj (typeErrorMessage false (lit "trim")))
  | Responded (Some t) =>
      let jsonStr := stripFence (trim t) in
      if negb (startsWith jsonStr (lit "{")) || negb (endsWith jsonStr (lit "}"))
      then inl (ErrorObj (lit "Response is not a valid JSON object"))
      else
        match JSON_parse jsonStr with
        | inl m => inl (ErrorObj m)
        | inr parsedData =>
            match getProp parsedData (lit "art") with
            | inl e => inl e
            | inr (Some (JStr a)) =>
                if length (trim a) =? 0 then inl bad_art
                else
                  if ENABLE_ASCII_TEXT_GENERATION then
                    match getProp parsedData (lit "text") with
                    | inl e => inl e
                    | inr t' => inr (mkArt a (if Json.truthy t' then t' else None))
                    end
                  else inr (mkArt a None)
            | inr _ => inl bad_art
            end
        end
  end.

(** The [for (let attempt = 1; attempt <= maxRetries; attempt++)] loop over
    the attempt numbers still to come. *)
Fixpoint ascii_loop (client topic : jsstring) (maxRetries : nat) (attempts : list nat)
  : task AsciiArtData :=
  match attempts with
  | [] => Done (inl (ErrorObj (lit "All ASCII art generation attempts failed")))
  | attempt :: rest =>
      Await (ReqAsciiArt client topic)
        (fun r =>
           match ascii_try r with
           | inr result => Done (inr result)
           | inl _ =>
               if attempt =? maxRetries
               then Done (inl (ErrorObj (lit "Could not generate ASCII art after "
                                         ++ Js.ofNat maxRetries ++ lit " attempts.")))
               else ascii_loop client topic maxRetries rest
           end)
  end.

Definition maxRetries : nat := 1.

Definition generateAsciiArt (topic : jsstring) (w : World)
  : task AsciiArtData * World :=
  match ensureAiClient w with
  | (inl e, w') => (Done (inl e), w')
  | (inr client, w') => (ascii_loop client topic maxRetries (seq 1 maxRetries), w')
  end.

(** *** streamDefinition *)

(** What the generator hands to its consumer. *)
Inductive genOut : Type :=
| Yield (chunk : jsstring)
| Return
| Throw (e : thrown).

(** Where the generator is suspended on the service. *)
Inductive genState : Type :=
| Opening (topic : jsstring)      (* [await client.models.generateContentStream] *)
| Iterating (topic : jsstring)    (* [for await (const chunk of response)] *)
| Finished.

(** What the service does next. *)
Inductive streamEvent : Type :=
| Opened
| OpenFailed (e : thrown)
| Chunk (text : option jsstring)
| StreamEnd
| StreamFailed (e : thrown).

(** The second [catch]: one more chunk, then the error is rethrown. *)
Definition stream_catch (topic : jsstring) (error : thrown) : list genOut :=
  let errorMessage := messageOr unknown_error error in
  [ Yield (lit "Error: Could not generate content for " ++ dquote ++ topic
           ++ dquote ++ lit ". " ++ errorMessage);
    Throw (ErrorObj errorMessage) ].

(** The first [next()]: the body up to its first suspension. *)
Definition streamDefinition (topic : jsstring) (w : World)
  : list genOut * genState * list request * World :=
  match ensureAiClient w with
  | (inl error, w') =>
      ([ Yield (lit "Error: " ++ messageOr (lit "API key not configured.") error);
         Return ], Finished, [], w')
  | (inr client, w') => ([], Opening topic, [ReqStream client topic], w')
  end.

(** The generator resumed by the service, the consumer asking for every
    next chunk: what it hands over until it is suspended again. *)
Definition stream_resume (st : genState) (ev : streamEvent) : list genOut * genState :=
  match st, ev with
  | Opening topic, Opened => ([], Iterating topic)
  | Opening topic, OpenFailed e => (stream_catch topic e, Finished)
  | Iterating topic, Chunk (Some t) =>
      if Js.truthy t then ([Yield t], Iterating topic) else ([], Iterating topic)
  | Iterating topic, Chunk None => ([], Iterating topic)
  | Iterating topic, StreamEnd => ([Return], Finished)
  | Iterating topic, StreamFailed e => (stream_catch topic e, Finished)
  | _, _ => ([], st)
  end.

(** The whole sequence for a given behaviour of the service. *)
Fixpoint stream_feed (st : genState) (evs : list streamEvent) : list genOut * genState :=
  match evs with
  | [] => ([], st)
  | ev :: evs' =>
      let '(out, st') := stream_resume st ev in
      let '(outs, st'') := stream_feed st' evs' in
      (out ++ outs, st'')
  end.

Definition stream_all (topic : jsstring) (w : World) (evs : list streamEvent)
  : list genOut * genState :=
  let '(out, st, _, _) := streamDefinition topic w in
  let '(outs, st') := stream_feed st evs in
  (out ++ outs, st').

End Runtime.

End GeminiService.

(** ** components/ApiKeyManager.tsx *)

Module ApiKeyManager.

Inductive messageType : Type := success | failure.

Record State := mkState {
  apiKey : jsstring;          (* the content of the input box *)
  isKeySet : bool;
  isExpanded : bool;
  showKey : bool;
  message : option (messageType * jsstring)
}.

(** What a handler leaves behind: the component state, the browser storage,
    the arguments of the [onApiKeyChange] calls and the delays of the
    [setTimeout(() => setMessage(null), d)] calls. *)
Record Outcome := mkOutcome {
  state : State;
  storage : gmap jsstring jsstring;
  notified : list (option jsstring);
  timeouts : list nat
}.

Definition setMessage (msg : option (messageType * jsstring)) (st : State) : State :=
  mkState (apiKey st) (isKeySet st) (isExpanded st) (showKey st) msg.

(** [setItem_throws] tells whether [localStorage.setItem] raises. *)
Definition handleSaveKey (setItem_throws : bool) (st : State)
    (store : gmap jsstring jsstring) : Outcome :=
  let trimmedKey := trim (apiKey st) in
  if negb (Js.truthy trimmedKey) then
    mkOutcome (setMessage (Some (failure, lit "Please enter a valid API key")) st) store [] []
  else if negb (startsWith trimmedKey (lit "AI")) || (length trimmedKey <? 20) then
    mkOutcome (setMessage (Some (failure, lit "Invalid Gemini API key format")) st) store [] []
  else if setItem_throws then
    mkOutcome (setMessage (Some (failure, lit "Failed to save API key")) st) store [] []
  else
    mkOutcome (mkState (apiKey st) true false (showKey st)
                 (Some (success, lit "API key saved successfully!")))
              (<[GeminiService.storage_key := trimmedKey]> store)
              [Some trimmedKey] [3000].

Definition handleRemoveKey (removeItem_throws : bool) (st : State)
    (store : gmap jsstring jsstring) : Outcome :=
  if removeItem_throws then
    mkOutcome (setMessage (Some (failure, lit "Failed to remove API key")) st) store [] []
  else
    mkOutcome (mkState [] false true false
                 (Some (success, lit "API key removed successfully!")))
              (delete GeminiService.storage_key store)
              [None] [3000].

(** The effect run when the component mounts; [envFromVite] and
    [envFromNode] are [import.meta.env?.VITE_GEMINI_API_KEY] and
    [process.env?.GEMINI_API_KEY], a string or [undefined]. *)
Definition apiKeyFromEnv (envFromVite envFromNode : option jsstring) : option jsstring :=
  match envFromVite with
  | Some v => if negb (streq v (lit "PLACEHOLDER_API_KEY")) then Some v else envFromNode
  | None => envFromNode
  end.

(** The branch taken when storage holds no usable key. *)
Definition mountFromEnv (envFromVite envFromNode : option jsstring) (st : State)
    (store : gmap jsstring jsstring) : Outcome :=
  match apiKeyFromEnv envFromVite envFromNode with
  | Some k =>
      if Js.truthy k then
        mkOutcome (mkState (apiKey st) true (isExpanded st) (showKey st) (message st))
                  store [Some k] []
      else
        mkOutcome (mkState (apiKey st) (isKeySet st) true (showKey st) (message st))
                  store [] []
  | None =>
      mkOutcome (mkState (apiKey st) (isKeySet st) true (showKey st) (message st))
                store [] []
  end.

Definition mountEffect (envFromVite envFromNode : option jsstring) (st : State)
    (store : gmap jsstring jsstring) : Outcome :=
  match store !! GeminiService.storage_key with
  | Some savedKey =>
      if Js.truthy savedKey && Js.truthy (trim savedKey) then
        mkOutcome (mkState savedKey true (isExpanded st) (showKey st) (message st))
                  store [Some savedKey] []
      else mountFromEnv envFromVite envFromNode st store
  | None => mountFromEnv envFromVite envFromNode st store
  end.

(** The three code units between the quotes of the mask literal. *)
Definition maskUnit : jsstring := [226; 8364; 162]%N.

Definition maskApiKey (key : jsstring) : jsstring :=
  if length key <=? 8 then key
  else take 4 key
       ++ concat (replicate (length key - 8) maskUnit)
       ++ drop (length key - 4) key.

End ApiKeyManager.

(** ** App.tsx *)

Module App.

Import GeminiService.

Inductive View : Type := analyzer | definition | worksheet.
Inductive LoadingState : Type := idle | analyzing | generating_worksheet | loading_definition.

#[global] Instance View_eq_dec : EqDecision View.
Proof. solve_decision. Defined.
#[global] Instance LoadingState_eq_dec : EqDecision LoadingState.
Proof. solve_decision. Defined.

Record ProgressStep := mkStep {
  id : jsstring;
  label : jsstring;
  completed : bool;
  active : bool;
  icon : jsstring
}.

(** The state hooks of the [App] component. *)
Record State := mkState {
  view : View;
  loadingState : LoadingState;
  mainText : jsstring;
  analyzedWords : list jsstring;
  selectedWords : list jsstring;
  error : option jsstring;
  apiKeyConfigured : bool;
  showProgress : bool;
  progressSteps : list ProgressStep;
  currentProgressStep : jsstring;
  definitionTopic : jsstring;
  definitionContent : jsstring;
  asciiArt : option AsciiArtData;
  generationTime : option nat;
  worksheetData : option value
}.

Definition setView (x : View) (s : State) : State :=
  mkState x (s.(loadingState)) (s.(mainText)) (s.(analyzedWords)) (s.(selectedWords)) (s.(error)) (s.(apiKeyConfigured)) (s.(showProgress)) (s.(progressSteps)) (s.(currentProgressStep)) (s.(definitionTopic)) (s.(definitionContent)) (s.(asciiArt)) (s.(generationTime)) (s.(worksheetData)).

Definition setLoadingState (x : LoadingState) (s : State) : State :=
  mkState (s.(view)) x (s.(mainText)) (s.(analyzedWords)) (s.(selectedWords)) (s.(error)) (s.(apiKeyConfigured)) (s.(showProgress)) (s.(progressSteps)) (s.(currentProgressStep)) (s.(definitionTopic)) (s.(definitionContent)) (s.(asciiArt)) (s.(generationTime)) (s.(worksheetData)).

Definition setMainText (x : jsstring) (s : State) : State :=
  mkState (s.(view)) (s.(loadingState)) x (s.(analyzedWords)) (s.(selectedWords)) (s.(error)) (s.(apiKeyConfigured)) (s.(showProgress)) (s.(progressSteps)) (s.(currentProgressStep)) (s.(definitionTopic)) (s.(definitionContent)) (s.(asciiArt)) (s.(generationTime)) (s.(worksheetData)).

Definition setAnalyzedWords (x : list jsstring) (s : State) : State :=
  mkState (s.(view)) (s.(loadingState)) (s.(mainText)) x (s.(selectedWords)) (s.(error)) (s.(apiKeyConfigured)) (s.(showProgress)) (s.(progressSteps)) (s.(currentProgressStep)) (s.(definitionTopic)) (s.(definitionContent)) (s.(asciiArt)) (s.(generationTime)) (s.(worksheetData)).

Definition setSelectedWords (x : list jsstring) (s : State) : State :=
  mkState (s.(view)) (s.(loadingState)) (s.(mainText)) (s.(analyzedWords)) x (s.(error)) (s.(apiKeyConfigured)) (s.(showProgress)) (s.(progressSteps)) (s.(currentProgressStep)) (s.(definitionTopic)) (s.(definitionContent)) (s.(asciiArt)) (s.(generationTime)) (s.(worksheetData)).

Definition setError (x : option jsstring) (s : State) : State :=
  mkState (s.(view)) (s.(loadingState)) (s.(mainText)) (s.(analyzedWords)) (s.(selectedWords)) x (s.(apiKeyConfigured)) (s.(showProgress)) (s.(progressSteps)) (s.(currentProgressStep)) (s.(definitionTopic)) (s.(definitionContent)) (s.(asciiArt)) (s.(generationTime)) (s.(worksheetData)).

Definition setApiKeyConfigured (x : bool) (s : State) : State :=
  mkState (s.(view)) (s.(loadingState)) (s.(mainText)) (s.(analyzedWords)) (s.(selectedWords)) (s.(error)) x (s.(showProgress)) (s.(progressSteps)) (s.(currentProgressStep)) (s.(definitionTopic)) (s.(definitionContent)) (s.(asciiArt)) (s.(generationTime)) (s.(worksheetData)).

Definition setShowProgress (x : bool) (s : State) : State :=
  mkState (s.(view)) (s.(loadingState)) (s.(mainText)) (s.(analyzedWords)) (s.(selectedWords)) (s.(error)) (s.(apiKeyConfigured)) x (s.(progressSteps)) (s.(currentProgressStep)) (s.(definitionTopic)) (s.(definitionContent)) (s.(asciiArt)) (s.(generationTime)) (s.(worksheetData)).

Definition setProgressSteps (x : list ProgressStep) (s : State) : State :=
  mkState (s.(view)) (s.(loadingState)) (s.(mainText)) (s.(analyzedWords)) (s.(selectedWords)) (s.(error)) (s.(apiKeyConfigured)) (s.(showProgress)) x (s.(currentProgressStep)) (s.(definitionTopic)) (s.(definitionContent)) (s.(asciiArt)) (s.(generationTime)) (s.(worksheetData)).

Definition setCurrentProgressStep (x : jsstring) (s : State) : State :=
  mkState (s.(view)) (s.(loadingState)) (s.(mainText)) (s.(analyzedWords)) (s.(selectedWords)) (s.(error)) (s.(apiKeyConfigured)) (s.(showProgress)) (s.(progressSteps)) x (s.(definitionTopic)) (s.(definitionContent)) (s.(asciiArt)) (s.(generationTime)) (s.(worksheetData)).

Definition setDefinitionTopic (x : jsstring) (s : State) : State :=
  mkState (s.(view)) (s.(loadingState)) (s.(mainText)) (s.(analyzedWords)) (s.(selectedWords)) (s.(error)) (s.(apiKeyConfigured)) (s.(showProgress)) (s.(progressSteps)) (s.(currentProgressStep)) x (s.(definitionContent)) (s.(asciiArt)) (s.(generationTime)) (s.(worksheetData)).

Definition setDefinitionContent (x : jsstring) (s : State) : State :=
  mkState (s.(view)) (s.(loadingState)) (s.(mainText)) (s.(analyzedWords)) (s.(selectedWords)) (s.(error)) (s.(apiKeyConfigured)) (s.(showProgress)) (s.(progressSteps)) (s.(currentProgressStep)) (s.(definitionTopic)) x (s.(asciiArt)) (s.(generationTime)) (s.(worksheetData)).

Definition setAsciiArt (x : option AsciiArtData) (s : State) : State :=
  mkState (s.(view)) (s.(loadingState)) (s.(mainText)) (s.(analyzedWords)) (s.(selectedWords)) (s.(error)) (s.(apiKeyConfigured)) (s.(showProgress)) (s.(progressSteps)) (s.(currentProgressStep)) (s.(definitionTopic)) (s.(definitionContent)) x (s.(generationTime)) (s.(worksheetData)).

Definition setGenerationTime (x : option nat) (s : State) : State :=
  mkState (s.(view)) (s.(loadingState)) (s.(mainText)) (s.(analyzedWords)) (s.(selectedWords)) (s.(error)) (s.(apiKeyConfigured)) (s.(showProgress)) (s.(progressSteps)) (s.(currentProgressStep)) (s.(definitionTopic)) (s.(definitionContent)) (s.(asciiArt)) x (s.(worksheetData)).

Definition setWorksheetData (x : option value) (s : State) : State :=
  mkState (s.(view)) (s.(loadingState)) (s.(mainText)) (s.(analyzedWords)) (s.(selectedWords)) (s.(error)) (s.(apiKeyConfigured)) (s.(showProgress)) (s.(progressSteps)) (s.(currentProgressStep)) (s.(definitionTopic)) (s.(definitionContent)) (s.(asciiArt)) (s.(generationTime)) x.

Definition isLoading (s : State) : bool := negb (bool_decide (loadingState s = idle)).

(** *** createFallbackArt *)

Definition createFallbackArt (topic : jsstring) : AsciiArtData :=
  let displayableTopic :=
    if 20 <? length topic then take 17 topic ++ lit "..." else topic in
  let paddedTopic := lit " " ++ displayableTopic ++ lit " " in
  let bar := repeat 9472%N (length paddedTopic) in
  let topBorder := [9484%N] ++ bar ++ [9488%N] in
  let middle := [9474%N] ++ paddedTopic ++ [9474%N] in
  let bottomBorder := [9492%N] ++ bar ++ [9496%N] in
  mkArt (topBorder ++ [10%N] ++ middle ++ [10%N] ++ bottomBorder) None.

(** *** AnalyzedContent *)

(** The pattern class [\w] without the unicode flag. *)
Definition isWordChar (c : N) : bool :=
  (  (97 <=? c) && (c <=? 122)     (* a-z *)
  || (65 <=? c) && (c <=? 90)      (* A-Z *)
  || (48 <=? c) && (c <=? 57)      (* 0-9 *)
  || (c =? 95))%N.                 (* _ *)

(** The class [[-\/\\^$*+?.()|[\]{}]] of the escaping [replace]. *)
Definition isSpecial (c : N) : bool :=
  existsb (N.eqb c) [45; 47; 92; 94; 36; 42; 43; 63; 46; 40; 41; 124; 91; 93; 123; 125]%N.

(** [w.replace(/[-\/\\^$*+?.()|[\]{}]/g, '\\$&')] *)
Definition escapeRegExp (w : jsstring) : jsstring :=
  flat_map (fun c => if isSpecial c then [92%N; c] else [c]) w.

(** The source text handed to [new RegExp(..., 'gi')]. *)
Definition patternSource (highlightWords : list jsstring) : jsstring :=
  lit "\b(" ++ Js.join (lit "|") (map escapeRegExp highlightWords) ++ lit ")\b".

Section Unicode.

(** The case tables of the runtime: [String.prototype.toLowerCase], and the
    [Canonicalize] operation that an [i]-flagged pattern without the unicode
    flag applies to single code units. *)
Variable toLowerCase : jsstring -> jsstring.
Variable Canonicalize : N -> N.

(** [text.substring(p, q)] for [p <= q]. *)
Definition substring (text : jsstring) (p q : nat) : jsstring :=
  take (q - p) (drop p text).

Definition wordAt (text : jsstring) (i : nat) : bool :=
  match text !! i with Some c => isWordChar c | None => false end.

(** The assertion [\b] at index [q]: exactly one of the code units around
    [q] is a word character; beyond either end there is none. *)
Definition boundaryAt (text : jsstring) (q : nat) : bool :=
  xorb (match q with 0 => false | S q' => wordAt text q' end) (wordAt text q).

(** A literal alternative against the code units that follow, each pair
    compared after [Canonicalize]. *)
Fixpoint matchesLiteral (w rest : jsstring) : bool :=
  match w, rest with
  | [], _ => true
  | _ :: _, [] => false
  | a :: w', b :: rest' => (Canonicalize a =? Canonicalize b)%N && matchesLiteral w' rest'
  end.

(** The pattern [\b(w1|w2|...)\b] tried at index [q] only (a sticky match):
    every escaped word is a literal, the alternatives are tried in order and
    one is given up when no boundary follows it.  Returns the end index. *)
Definition execAt (highlightWords : list jsstring) (text : jsstring) (q : nat)
  : option nat :=
  if boundaryAt text q then
    (fun w => q + length w) <$>
      find (fun w => matchesLiteral w (drop q text) && boundaryAt text (q + length w))
           highlightWords
  else None.

(** The loop of [RegExp.prototype[Symbol.split]]: [p] is the start of the
    piece being collected and [q] the index where a match is tried next. *)
Fixpoint split_loop (highlightWords : list jsstring) (text : jsstring)
    (fuel p q : nat) : option (list jsstring) :=
  match fuel with
  | 0 => None
  | S fuel' =>
      if q <? length text then
        match execAt highlightWords text q with
        | None => split_loop highlightWords text fuel' p (q + 1)
        | Some e =>
            if e =? p then split_loop highlightWords text fuel' p (q + 1)
            else
              (fun rest => substring text p q :: substring text q e :: rest)
                <$> split_loop highlightWords text fuel' e e
        end
      else Some [substring text p (length text)]
  end.

(** [text.split(regex)], the pattern holding one capturing group. *)
Definition split (highlightWords : list jsstring) (text : jsstring)
  : option (list jsstring) :=
  match text with
  | [] => Some (match execAt highlightWords text 0 with
                | Some _ => []
                | None => [text]
                end)
  | _ => split_loop highlightWords text (2 * length text + 1) 0 0
  end.

(** What the paragraph holds: plain text or a button. *)
Inductive element : Type :=
| Fragment (part : jsstring)
| Button (part : jsstring).

Definition isHighlight (highlightWords : list jsstring) (part : jsstring) : bool :=
  existsb (fun hWord => streq (toLowerCase hWord) (toLowerCase part)) highlightWords.

(** The children of the rendered paragraph; [None] only if the splitting
    loop were cut short. *)
Definition AnalyzedContent (text : jsstring) (highlightWords : list jsstring)
  : option (list element) :=
  if length highlightWords =? 0 then Some [Fragment text]
  else
    map (fun part => if isHighlight highlightWords part then Button part
                     else Fragment part)
      <$> split highlightWords text.

End Unicode.

(** *** handleSelectionChange *)

Definition handleSelectionChange (word : jsstring) (prev : list jsstring)
  : list jsstring :=
  if bool_decide (word ∈ prev) then filter (fun w => w ≠ word) prev
  else prev ++ [word].

(** *** Progress steps *)

Inductive workflow : Type := analyze | worksheet_flow | definition_flow.

Definition createProgressSteps (type : workflow) : list ProgressStep :=
  match type with
  | analyze =>
      [ mkStep (lit "preprocessing") (lit "Preprocessing text content") false true
               [55357; 56541]%N;
        mkStep (lit "analysis") (lit "AI analyzing vocabulary complexity") false false
               [55358; 56800]%N;
        mkStep (lit "ranking") (lit "Ranking words by difficulty") false false
               [55357; 56522]%N;
        mkStep (lit "finalizing") (lit "Preparing results") false false [10024]%N ]
  | worksheet_flow =>
      [ mkStep (lit "setup") (lit "Setting up worksheet structure") false true
               [55357; 56523]%N;
        mkStep (lit "definitions") (lit "Generating definitions and translations")
               false false [55357; 56538]%N;
        mkStep (lit "questions") (lit "Creating test questions") false false [10067]%N;
        mkStep (lit "formatting") (lit "Formatting final worksheet") false false
               [9999; 65039]%N ]
  | definition_flow =>
      [ mkStep (lit "research") (lit "Researching term definition") false true
               [55357; 56589]%N;
        mkStep (lit "ascii") (lit "Generating ASCII art visualization") false false
               [55356; 57256]%N;
        mkStep (lit "content") (lit "Streaming definition content") false false
               [55357; 56534]%N ]
  end.

Definition setCompleted (c : bool) (st : ProgressStep) : ProgressStep :=
  mkStep (id st) (label st) c false (icon st).

Definition activate (st : ProgressStep) : ProgressStep :=
  mkStep (id st) (label st) (completed st) true (icon st).

(** [updateProgressStep(stepId, completed)] on the step list and on
    [currentProgressStep]. *)
Definition updateSteps (stepId : jsstring) (done : bool)
    (prev : list ProgressStep) (current : jsstring) : list ProgressStep * jsstring :=
  match list_find (fun s => id s = stepId) prev with
  | Some (currentIndex, _) =>
      let newSteps := alter (setCompleted done) currentIndex prev in
      if done && (currentIndex + 1 <? length newSteps) then
        let newSteps' := alter activate (currentIndex + 1) newSteps in
        (newSteps', match newSteps' !! (currentIndex + 1) with
                    | Some nxt => id nxt
                    | None => current
                    end)
      else (newSteps, current)
  | None => (prev, current)
  end.

Definition updateProgressStep (stepId : jsstring) (done : bool) (s : State) : State :=
  let '(steps, current) := updateSteps stepId done (progressSteps s) (currentProgressStep s) in
  setCurrentProgressStep current (setProgressSteps steps s).

(** *** The component at run time

    One step of the machine is one task of the event loop: a user action, a
    settled request, a stream event or the passing of time, each run to the
    point where the code waits again.  State updates made in one task are
    applied together. *)

(** The callbacks handed to [setTimeout]. *)
Inductive timerAction : Type :=
| TUpdateStep (stepId : jsstring)            (* [() => updateProgressStep(stepId)] *)
| TShowAnalysis (words : list jsstring)      (* the callback that ends [handleAnalyze] *)
| TShowWorksheet (data : value).             (* the one that ends [handleGenerateWorksheet] *)

(** A handler suspended at its [await]. *)
Inductive pendingOp : Type :=
| PAnalyze (k : reply -> task (list jsstring))
| PWorksheet (k : reply -> task value).

(** One run of the definition effect: the variables its closures share. *)
Record Fetch := mkFetch {
  topic : jsstring;                  (* [definitionTopic] as captured *)
  isCancelled : bool;                (* [let isCancelled], set by the cleanup *)
  accumulatedContent : jsstring;
  startTime : nat;
  generator : genState;              (* the [streamDefinition] generator *)
  artPending : option (reply -> task AsciiArtData)
}.

Definition cancel (f : Fetch) : Fetch :=
  mkFetch (topic f) true (accumulatedContent f) (startTime f) (generator f) (artPending f).
Definition setAccumulated (acc : jsstring) (f : Fetch) : Fetch :=
  mkFetch (topic f) (isCancelled f) acc (startTime f) (generator f) (artPending f).
Definition setGenerator (g : genState) (f : Fetch) : Fetch :=
  mkFetch (topic f) (isCancelled f) (accumulatedContent f) (startTime f) g (artPending f).
Definition setArtPending (k : option (reply -> task AsciiArtData)) (f : Fetch) : Fetch :=
  mkFetch (topic f) (isCancelled f) (accumulatedContent f) (startTime f) (generator f) k.

(** [timers] is kept in firing order: by due time, then by registration.
    [pending] maps the index of a request in [sent] to the handler waiting
    for it.  [effect] is the run of the definition effect whose cleanup is
    registered, and [deps] the dependencies it last ran with. *)
Record Machine := mkMachine {
  app : State;
  world : World;
  now : nat;
  timers : list (nat * timerAction);
  pending : gmap nat pendingOp;
  sent : list request;
  fetches : list Fetch;
  effect : option nat;
  deps : View * jsstring
}.

Definition on_app (f : State -> State) (m : Machine) : Machine :=
  mkMachine (f (m.(app))) (m.(world)) (m.(now)) (m.(timers)) (m.(pending)) (m.(sent)) (m.(fetches)) (m.(effect)) (m.(deps)).

Definition on_world (f : World -> World) (m : Machine) : Machine :=
  mkMachine (m.(app)) (f (m.(world))) (m.(now)) (m.(timers)) (m.(pending)) (m.(sent)) (m.(fetches)) (m.(effect)) (m.(deps)).

Definition on_now (f : nat -> nat) (m : Machine) : Machine :=
  mkMachine (m.(app)) (m.(world)) (f (m.(now))) (m.(timers)) (m.(pending)) (m.(sent)) (m.(fetches)) (m.(effect)) (m.(deps)).

Definition on_timers (f : list (nat * timerAction) -> list (nat * timerAction)) (m : Machine) : Machine :=
  mkMachine (m.(app)) (m.(world)) (m.(now)) (f (m.(timers))) (m.(pending)) (m.(sent)) (m.(fetches)) (m.(effect)) (m.(deps)).

Definition on_pending (f : gmap nat pendingOp -> gmap nat pendingOp) (m : Machine) : Machine :=
  mkMachine (m.(app)) (m.(world)) (m.(now)) (m.(timers)) (f (m.(pending))) (m.(sent)) (m.(fetches)) (m.(effect)) (m.(deps)).

Definition on_sent (f : list request -> list request) (m : Machine) : Machine :=
  mkMachine (m.(app)) (m.(world)) (m.(now)) (m.(timers)) (m.(pending)) (f (m.(sent))) (m.(fetches)) (m.(effect)) (m.(deps)).

Definition on_fetches (f : list Fetch -> list Fetch) (m : Machine) : Machine :=
  mkMachine (m.(app)) (m.(world)) (m.(now)) (m.(timers)) (m.(pending)) (m.(sent)) (f (m.(fetches))) (m.(effect)) (m.(deps)).

Definition on_effect (f : option nat -> option nat) (m : Machine) : Machine :=
  mkMachine (m.(app)) (m.(world)) (m.(now)) (m.(timers)) (m.(pending)) (m.(sent)) (m.(fetches)) (f (m.(effect))) (m.(deps)).

Definition on_deps (f : View * jsstring -> View * jsstring) (m : Machine) : Machine :=
  mkMachine (m.(app)) (m.(world)) (m.(now)) (m.(timers)) (m.(pending)) (m.(sent)) (m.(fetches)) (m.(effect)) (f (m.(deps))).

Fixpoint insertTimer (t : nat * timerAction) (l : list (nat * timerAction))
  : list (nat * timerAction) :=
  match l with
  | [] => [t]
  | u :: l' => if fst t <? fst u then t :: l else u :: insertTimer t l'
  end.

(** [setTimeout(action, delay)] *)
Definition setTimeout (action : timerAction) (delay : nat) (m : Machine) : Machine :=
  on_timers (insertTimer (now m + delay, action)) m.

Section Handlers.

Variable JSON_parse : jsstring -> jsstring + value.
Variable typeErrorMessage : bool -> jsstring -> jsstring.

(** **** The definition effect *)

(** The [finally] block of [fetchDefinition]. *)
Definition fetch_finally (f : nat) (m : Machine) : Machine :=
  match fetches m !! f with
  | Some ft =>
      let m := on_fetches (alter (setGenerator Finished) f) m in
      if isCancelled ft then m
      else on_app (fun s => setLoadingState idle
                              (setGenerationTime (Some (now m - startTime ft)) s)) m
  | None => m
  end.

(** The [for await] loop of [fetchDefinition] over what the generator hands
    out before it is suspended again. *)
Fixpoint consume (f : nat) (outs : list genOut) (m : Machine) : Machine :=
  match outs with
  | [] => m
  | o :: rest =>
      match fetches m !! f with
      | None => m
      | Some ft =>
          match o with
          | Yield chunk =>
              if isCancelled ft then fetch_finally f m          (* [break] *)
              else
                let acc := accumulatedContent ft ++ chunk in
                consume f rest
                  (on_app (setDefinitionContent acc)
                     (on_fetches (alter (setAccumulated acc) f) m))
          | Return => fetch_finally f m
          | Throw e =>
              fetch_finally f
                (if isCancelled ft then m
                 else on_app (setError (Some (messageOr (lit "An unknown error occurred") e))) m)
          end
      end
  end.

(** The [.then] and [.catch] callbacks on the art promise. *)
Definition art_settled (f : nat) (r : thrown + AsciiArtData) (m : Machine) : Machine :=
  match fetches m !! f with
  | Some ft =>
      if isCancelled ft then m
      else on_app (setAsciiArt (Some match r with
                                     | inr a => a
                                     | inl _ => createFallbackArt (topic ft)
                                     end)) m
  | None => m
  end.

Definition art_progress (f : nat) (t : task AsciiArtData) (m : Machine) : Machine :=
  match t with
  | Done r => art_settled f r (on_fetches (alter (setArtPending None) f) m)
  | Await req k =>
      on_sent (fun l => l ++ [req]) (on_fetches (alter (setArtPending (Some k)) f) m)
  end.

(** The effect body from [fetchDefinition()] to its first suspension; [f]
    names this run, whose cleanup is the one registered from now on. *)
Definition fetchDefinition (m : Machine) : Machine :=
  let f := length (fetches m) in
  let t := definitionTopic (app m) in
  let m := on_app (fun s => setGenerationTime None (setAsciiArt None
                     (setDefinitionContent [] (setError None
                        (setLoadingState loading_definition s))))) m in
  let '(artTask, w1) := generateAsciiArt JSON_parse typeErrorMessage t (world m) in
  let m := on_effect (fun _ => Some f)
             (on_fetches (fun l => l ++ [mkFetch t false [] (now m) Finished None])
                (on_world (fun _ => w1) m)) in
  let m := art_progress f artTask m in
  let '(outs, g, reqs, w2) := streamDefinition t (world m) in
  let m := on_sent (fun l => l ++ reqs)
             (on_fetches (alter (setGenerator g) f) (on_world (fun _ => w2) m)) in
  consume f outs m.

(** [useEffect(..., [view, definitionTopic])] after a render: when a
    dependency changed, the registered cleanup runs, then the effect. *)
Definition useEffect (m : Machine) : Machine :=
  let d := (view (app m), definitionTopic (app m)) in
  if bool_decide (d = deps m) then m
  else
    let m := match effect m with
             | Some f => on_fetches (alter cancel f) m
             | None => m
             end in
    let m := on_effect (fun _ => None) (on_deps (fun _ => d) m) in
    if negb (bool_decide (view (app m) = definition))
       || negb (Js.truthy (definitionTopic (app m)))
    then m
    else fetchDefinition m.

(** **** handleAnalyze *)

(** The code after [await analyzeTextForVocabulary(text)], with its [catch]
    and [finally]. *)
Definition analyze_settled (r : thrown + list jsstring) (m : Machine) : Machine :=
  match r with
  | inr words =>
      on_app (setLoadingState idle)
        (setTimeout (TShowAnalysis words) 500
           (on_app (updateProgressStep (lit "finalizing") true) m))
  | inl e =>
      on_app (fun s => setLoadingState idle (setShowProgress false
                (setError (Some (messageOr (lit "Failed to analyze text.") e)) s))) m
  end.

Definition analyze_progress (t : task (list jsstring)) (m : Machine) : Machine :=
  match t with
  | Done r => analyze_settled r m
  | Await req k =>
      on_sent (fun l => l ++ [req])
        (on_pending (insert (length (sent m)) (PAnalyze k)) m)
  end.

Definition handleAnalyze (text : jsstring) (m : Machine) : Machine :=
  if negb (apiKeyConfigured (app m)) then
    on_app (setError (Some (lit "Please configure your Gemini API key first."))) m
  else
    let m := on_app (fun s =>
               setShowProgress true (setCurrentProgressStep (lit "preprocessing")
                 (setProgressSteps (createProgressSteps analyze)
                    (setSelectedWords [] (setAnalyzedWords [] (setMainText text
                       (setError None (setLoadingState analyzing s)))))))) m in
    let m := setTimeout (TUpdateStep (lit "ranking")) 2500
               (setTimeout (TUpdateStep (lit "analysis")) 1500
                  (setTimeout (TUpdateStep (lit "preprocessing")) 500 m)) in
    let '(t, w) := analyzeTextForVocabulary JSON_parse text (world m) in
    analyze_progress t (on_world (fun _ => w) m).

(** **** handleGenerateWorksheet *)

Definition worksheet_settled (r : thrown + value) (m : Machine) : Machine :=
  match r with
  | inr data =>
      on_app (setLoadingState idle)
        (setTimeout (TShowWorksheet data) 800
           (on_app (updateProgressStep (lit "formatting") true) m))
  | inl e =>
      on_app (fun s => setLoadingState idle (setShowProgress false
                (setError (Some (messageOr (lit "Failed to generate worksheet.") e)) s))) m
  end.

Definition worksheet_progress (t : task value) (m : Machine) : Machine :=
  match t with
  | Done r => worksheet_settled r m
  | Await req k =>
      on_sent (fun l => l ++ [req])
        (on_pending (insert (length (sent m)) (PWorksheet k)) m)
  end.

Definition handleGenerateWorksheet (m : Machine) : Machine :=
  if length (selectedWords (app m)) =? 0 then m
  else
    let text := mainText (app m) in
    let words := selectedWords (app m) in
    let m := on_app (fun s =>
               setShowProgress true (setCurrentProgressStep (lit "setup")
                 (setProgressSteps (createProgressSteps worksheet_flow)
                    (setError None (setLoadingState generating_worksheet s))))) m in
    let m := setTimeout (TUpdateStep (lit "questions")) 4000
               (setTimeout (TUpdateStep (lit "definitions")) 2000
                  (setTimeout (TUpdateStep (lit "setup")) 800 m)) in
    let '(t, w) := generateWorksheetData JSON_parse typeErrorMessage text words (world m) in
    worksheet_progress t (on_world (fun _ => w) m).

(** **** The other handlers *)

(** [word.trim()] with every code unit of the class [.,!?;:()] and both
    quotation marks (code units 34 and 39) removed. *)
Definition cleanWord (word : jsstring) : jsstring :=
  List.filter (fun c => negb (existsb (N.eqb c) [46; 44; 33; 63; 59; 58; 40; 41; 34; 39]%N))
    (trim word).

Definition handleWordClick (word : jsstring) (s : State) : State :=
  let cleanedWord := cleanWord word in
  if negb (Js.truthy cleanedWord) then s
  else setView definition (setDefinitionTopic cleanedWord s).

Definition handleBackToAnalyzer (s : State) : State :=
  setShowProgress false (setError None (setWorksheetData None
    (setDefinitionTopic [] (setView analyzer s)))).

Definition handleClear (s : State) : State :=
  setError None (setSelectedWords [] (setAnalyzedWords [] (setMainText [] s))).

Definition handleApiKeyChange (apiKey : option jsstring) (m : Machine) : Machine :=
  let given := match apiKey with Some k => Js.truthy k | None => false end in
  on_app (fun s => let s := setApiKeyConfigured given s in
                   if given then setError None s else s)
    (on_world (setApiKey apiKey) m).

(** **** Timers *)

Definition fire (a : timerAction) (m : Machine) : Machine :=
  match a with
  | TUpdateStep stepId => on_app (updateProgressStep stepId true) m
  | TShowAnalysis words =>
      on_app (fun s => setShowProgress false (setAnalyzedWords words s)) m
  | TShowWorksheet data =>
      useEffect (on_app (fun s => setShowProgress false (setView worksheet
                           (setWorksheetData (Some data) s))) m)
  end.

(** [ms] milliseconds pass: the timers that fall due fire in order. *)
Definition elapse (ms : nat) (m : Machine) : Machine :=
  let target := now m + ms in
  let due := List.filter (fun t => fst t <=? target) (timers m) in
  let later := List.filter (fun t => negb (fst t <=? target)) (timers m) in
  on_now (fun _ => target)
    (foldl (fun m t => fire (snd t) (on_now (fun _ => fst t) m))
           (on_timers (fun _ => later) m) due).

(** **** Events

    [handleRandom] is left out of the events and modelled on its own
    further down: it writes [mainText], [analyzedWords], [selectedWords],
    [error] and the loading state only, and sets no timer. *)

Inductive event : Type :=
| ClickAnalyze (text : jsstring)       (* the Analyze button, with the text typed *)
| ClickGenerateWorksheet
| ClickWord (word : jsstring)          (* a highlighted word or a list entry *)
| ClickBack
| ToggleWord (word : jsstring)         (* a check box of the vocabulary list *)
| ClickClear
| ApiKeyChange (apiKey : option jsstring)
| Settle (request_index : nat) (r : reply)
| ArtSettle (f : nat) (r : reply)
| Stream (f : nat) (ev : streamEvent)
| Elapse (ms : nat).

(** The part of the analyzer view that shows the text and the word list. *)
Definition resultsShown (s : State) : bool :=
  bool_decide (view s = analyzer) && negb (isLoading s) && negb (showProgress s).

Definition step (ev : event) (m : Machine) : Machine :=
  match ev with
  | ClickAnalyze text =>
      (* [InputArea.handleAnalyzeClick] *)
      if bool_decide (view (app m) = analyzer) && apiKeyConfigured (app m)
         && Js.truthy (trim text) && negb (isLoading (app m))
      then handleAnalyze (trim text) m else m
  | ClickGenerateWorksheet =>
      if resultsShown (app m) && negb (length (selectedWords (app m)) =? 0)
      then handleGenerateWorksheet m else m
  | ClickWord word =>
      (* buttons exist only once words were found *)
      if resultsShown (app m) && negb (length (analyzedWords (app m)) =? 0)
      then useEffect (on_app (handleWordClick word) m) else m
  | ClickBack =>
      if negb (bool_decide (view (app m) = analyzer))
      then useEffect (on_app handleBackToAnalyzer m) else m
  | ToggleWord word =>
      if resultsShown (app m) && bool_decide (word ∈ analyzedWords (app m))
      then on_app (fun s => setSelectedWords
                              (handleSelectionChange word (selectedWords s)) s) m
      else m
  | ClickClear =>
      if bool_decide (view (app m) = analyzer) && apiKeyConfigured (app m)
         && negb (isLoading (app m))
      then on_app handleClear m else m
  | ApiKeyChange apiKey => handleApiKeyChange apiKey m
  | Settle i r =>
      match pending m !! i with
      | Some (PAnalyze k) => analyze_progress (k r) (on_pending (delete i) m)
      | Some (PWorksheet k) => worksheet_progress (k r) (on_pending (delete i) m)
      | None => m
      end
  | ArtSettle f r =>
      match fetches m !! f with
      | Some ft =>
          match artPending ft with
          | Some k => art_progress f (k r) m
          | None => m
          end
      | None => m
      end
  | Stream f ev =>
      match fetches m !! f with
      | Some ft =>
          let '(outs, g) := stream_resume (generator ft) ev in
          consume f outs (on_fetches (alter (setGenerator g) f) m)
      | None => m
      end
  | Elapse ms => elapse ms m
  end.

Definition run_events (evs : list event) (m : Machine) : Machine :=
  foldl (fun m ev => step ev m) m evs.

End Handlers.

(** The component as first rendered, over a given module state. *)
Definition initial (welcome : jsstring) (w : World) : Machine :=
  mkMachine
    (mkState analyzer idle welcome [] [] None false false [] [] [] [] None None None)
    w 0 [] ∅ [] [] None (analyzer, []).

End App.

(** ** Vocabulary of the statements *)

Import GeminiService ApiKeyManager App.

(** A credential is configured: the client exists or a key can be found. *)
Definition configured (w : World) : Prop :=
  exists client w', ensureAiClient w = (inr client, w').

(** The document [["ephemeral","joys"]]. *)
Definition two_words_json : jsstring :=
  lit "[" ++ dquote ++ lit "ephemeral" ++ dquote ++ lit ","
  ++ dquote ++ lit "joys" ++ dquote ++ lit "]".

(** A stand-in for [JSON.parse] in closed examples: right on the three
    documents it knows and on text that is not JSON at all. *)
Definition JSON_parse_sample (s : jsstring) : jsstring + value :=
  if streq s (lit "{}") then inr (JObj [])
  else if streq s (lit "[]") then inr (JArr [])
  else if streq s two_words_json then inr (JArr [JStr (lit "ephemeral"); JStr (lit "joys")])
  else inl (lit "Unexpected token").

(** A message table for the type errors, for closed examples. *)
Definition type_errors : bool -> jsstring -> jsstring :=
  fun _ k => lit "Cannot read properties (reading " ++ k ++ lit ")".

(** No client, no saved key, no environment key. *)
Definition bare_world : World := mkWorld None true ∅ None None.

(** A world whose client was built from a key. *)
Definition keyed_world : World :=
  mkWorld (Some (lit "AIzaSyA-0123456789abcdef")) true ∅ None None.

(** The chunks that pass [if (chunk.text)]. *)
Definition visible (chunks : list (option jsstring)) : list jsstring :=
  omap (fun c => match c with
                 | Some t => if Js.truthy t then Some t else None
                 | None => None
                 end) chunks.

Definition activeCount (steps : list ProgressStep) : nat :=
  length (List.filter active steps).

(** The first analysis fails at once and leaves its three timers behind; a
    second analysis is started 1.2 s later and, 0.4 s into it, the [analysis]
    timer of the first one fires on the fresh step list. *)
Definition stale_timer_trace : list event :=
  [ ApiKeyChange (Some (lit "AIzaSyA-0123456789abcdef"));
    ClickAnalyze (lit "Ephemeral joys.");
    Elapse 200;
    Settle 0 (Rejected (ErrorObj (lit "503")));
    Elapse 1000;
    ClickAnalyze (lit "Ubiquitous sounds.");
    Elapse 400 ].

Definition incomplete_message : jsstring :=
  lit "Could not generate worksheet: API returned incomplete worksheet data.".

(** A parsed response without a title, or with an empty word-detail list. *)
Definition malformed (typeErrorMessage : bool -> jsstring -> jsstring) (data : value) : Prop :=
  getProp typeErrorMessage data (lit "title") = inr None
  \/ (data <> JNull
      /\ getProp typeErrorMessage data (lit "wordDetails") = inr (Some (JArr []))).

(** The analyzer view with two words found and one of them selected. *)
Definition words_selected : Machine :=
  mkMachine
    (App.mkState analyzer idle (lit "Ephemeral joys.") [lit "ephemeral"; lit "joys"]
       [lit "ephemeral"] None true false [] [] [] [] None None None)
    keyed_world 0 [] ∅ [] [] None (analyzer, []).

(** *** The definition effect *)

(** [m'] differs from [m] in nothing the invariant below looks at. *)
Definition alike (m m' : Machine) : Prop :=
  effect m' = effect m
  /\ definitionContent (app m') = definitionContent (app m)
  /\ forall f ft', fetches m' !! f = Some ft' ->
       exists ft, fetches m !! f = Some ft
                  /\ isCancelled ft' = isCancelled ft
                  /\ accumulatedContent ft' = accumulatedContent ft.

(** A first definition has been streamed, its art is still awaited, when
    the user goes back and opens a second definition. *)
Definition two_fetches_trace : list event :=
  [ ApiKeyChange (Some (lit "AIzaSyA-0123456789abcdef"));
    ClickAnalyze (lit "Ephemeral joys.");
    Settle 0 (Responded (Some two_words_json));
    Elapse 600;
    ClickWord (lit "ephemeral");
    Stream 0 Opened;
    Stream 0 (Chunk (Some (lit "Lasting a very short time.")));
    Stream 0 StreamEnd;
    ClickBack;
    ClickWord (lit "joys") ].

(** The service answers the first art request late, between the chunks of
    the second stream. *)
Definition late_art : list event :=
  [ Stream 1 Opened;
    Stream 1 (Chunk (Some (lit "Great ")));
    ArtSettle 0 (Rejected NonError);
    Stream 1 (Chunk (Some (lit "pleasures.")));
    Stream 1 StreamEnd ].

(** The states the component can be in. *)
Definition reachable (JSON_parse : jsstring -> jsstring + value)
    (typeErrorMessage : bool -> jsstring -> jsstring) (m : Machine) : Prop :=
  exists welcome w evs,
    m = run_events JSON_parse typeErrorMessage evs (initial welcome w).

(** Events that come from the service rather than from the user or a timer. *)
Definition from_service (ev : event) : Prop :=
  match ev with
  | Settle _ _ | ArtSettle _ _ | Stream _ _ => True
  | _ => False
  end.

(** Events that belong to run [f] of the definition effect. *)
Definition targets (f : nat) (ev : event) : Prop :=
  match ev with
  | ArtSettle f' _ | Stream f' _ => f' = f
  | _ => False
  end.

(** What the stream of run [b] does within a list of events. *)
Definition stream_of (b : nat) (evs : list event) : list streamEvent :=
  omap (fun ev => match ev with
                  | Stream f sev => if decide (f = b) then Some sev else None
                  | _ => None
                  end) evs.

(** The chunks among what a generator hands out. *)
Definition chunks_of (outs : list genOut) : list jsstring :=
  omap (fun o => match o with Yield c => Some c | _ => None end) outs.

(** Every run but the registered one is cancelled; the registered one is
    not, and the definition shown is what it has accumulated. *)
Definition fetch_invariant (m : Machine) : Prop :=
  forall f ft, fetches m !! f = Some ft ->
    (effect m <> Some f -> isCancelled ft = true)
    /\ (effect m = Some f ->
        isCancelled ft = false
        /\ definitionContent (app m) = accumulatedContent ft).

(** *** Highlighting *)

(** The case mappings on Basic Latin. *)
Definition asciiLower (c : N) : N :=
  if ((65 <=? c) && (c <=? 90))%N then (c + 32)%N else c.

Definition asciiUpper (c : N) : N :=
  if ((97 <=? c) && (c <=? 122))%N then (c - 32)%N else c.

Definition basicLatin (s : jsstring) : Prop := Forall (fun c => (c < 128)%N) s.

(** What is assumed of the case tables of the runtime: on Basic Latin they
    are the usual ones, and [Canonicalize] never folds a code unit from
    outside Basic Latin into it. *)
Definition basic_latin_tables (toLowerCase : jsstring -> jsstring)
    (Canonicalize : N -> N) : Prop :=
  (forall s, basicLatin s -> toLowerCase s = map asciiLower s)
  /\ (forall c, (c < 128)%N -> Canonicalize c = asciiUpper c)
  /\ (forall c, (128 <= c)%N -> (128 <= Canonicalize c)%N).

(** Tables that leave everything outside Basic Latin alone, for closed
    examples over Basic Latin. *)
Definition toLowerCase_sample (s : jsstring) : jsstring := map asciiLower s.
Definition Canonicalize_sample (c : N) : N :=
  if (c <? 128)%N then asciiUpper c else c.

Definition part_of (el : element) : jsstring :=
  match el with Fragment part | Button part => part end.

(** The children of the paragraph with the index where each starts. *)
Fixpoint spans_from (o : nat) (els : list element) : list (nat * element) :=
  match els with
  | [] => []
  | el :: rest => (o, el) :: spans_from (o + length (part_of el)) rest
  end.

Definition spans (els : list element) : list (nat * element) := spans_from 0 els.

(** A highlight word occurs in [text] from index [a] up to [b], whatever
    the case, with a word boundary on either side. *)
Definition occursAt (Canonicalize : N -> N) (highlightWords : list jsstring)
    (text : jsstring) (a b : nat) : Prop :=
  exists w, w ∈ highlightWords
            /\ b = a + length w
            /\ boundaryAt text a = true
            /\ matchesLiteral Canonicalize w (drop a text) = true
            /\ boundaryAt text b = true.

(** Two such occurrences are the same stretch of text or share no index. *)
Definition no_overlap (Canonicalize : N -> N) (highlightWords : list jsstring)
    (text : jsstring) : Prop :=
  forall a b a' b',
    occursAt Canonicalize highlightWords text a b ->
    occursAt Canonicalize highlightWords text a' b' ->
    a <= a' -> (a = a' -> b = b') /\ (a < a' -> b <= a').

(** Index [k] lies between two word characters. *)
Definition insideWord (text : jsstring) (k : nat) : Prop :=
  exists k', k = S k' /\ wordAt text k' = true /\ wordAt text k = true.

(** A word made of letters, digits and underscores. *)
Definition plainWord (w : jsstring) : Prop :=
  w <> [] /\ Forall (fun c => isWordChar c = true) w.

(** ** Further vocabulary *)

(** The key kept in the browser storage, as [getCurrentApiKey] reads it. *)
Definition savedKey (w : World) : option jsstring :=
  if window_defined w then localStorage w !! storage_key else None.

(** No white space at either end. *)
Definition noEdgeSpace (s : jsstring) : Prop :=
  trimStart s = s /\ trimStart (rev s) = rev s.

(** The document [{"art":"<>"}]. *)
Definition art_json : jsstring :=
  lit "{" ++ dquote ++ lit "art" ++ dquote ++ lit ":" ++ dquote ++ lit "<>" ++ dquote ++ lit "}".

(** A stand-in for [JSON.parse] that knows this one document. *)
Definition JSON_parse_art (s : jsstring) : jsstring + value :=
  if streq s art_json then inr (JObj [(lit "art", JStr (lit "<>"))])
  else inl (lit "Unexpected token").

(** What [generateWorksheetData] asks of a parsed reply before it hands it
    on: a truthy [title], truthy [wordDetails], and a [length] of these that
    is not [0]. *)
Definition complete (typeErrorMessage : bool -> jsstring -> jsstring) (data : value) : Prop :=
  exists title wd len,
    getProp typeErrorMessage data (lit "title") = inr title
    /\ Json.truthy title = true
    /\ getProp typeErrorMessage data (lit "wordDetails") = inr (Some wd)
    /\ Json.truthy (Some wd) = true
    /\ getProp typeErrorMessage wd (lit "length") = inr len
    /\ isZero len = false.

(** The document [{"title":"Joys","wordDetails":[{}]}] and its value. *)
Definition worksheet_json : jsstring :=
  lit "{" ++ dquote ++ lit "title" ++ dquote ++ lit ":" ++ dquote ++ lit "Joys" ++ dquote
  ++ lit "," ++ dquote ++ lit "wordDetails" ++ dquote ++ lit ":[{}]}".

Definition worksheet_value : value :=
  JObj [(lit "title", JStr (lit "Joys")); (lit "wordDetails", JArr [JObj []])].

(** A stand-in for [JSON.parse] that knows this one document. *)
Definition JSON_parse_worksheet (s : jsstring) : jsstring + value :=
  if streq s worksheet_json then inr worksheet_value else inl (lit "Unexpected token").

(** Worlds for closed examples: a saved key beside two environment keys,
    environment keys only, and the placeholder only. *)
Definition saved_world : World :=
  mkWorld None true {[ storage_key := lit "AIzaSy-saved-0123456789" ]}
    (Some (lit "AIzaSy-vite-0123456789")) (Some (lit "AIzaSy-node-0123456789")).

Definition vite_world : World :=
  mkWorld None true ∅ (Some (lit "AIzaSy-vite-0123456789"))
    (Some (lit "AIzaSy-node-0123456789")).

Definition placeholder_world : World :=
  mkWorld None true ∅ None (Some (lit "PLACEHOLDER_API_KEY")).

(** [<ApiKeyManager onApiKeyChange={handleApiKeyChange} />]: what a handler
    of the key manager leaves behind, seen from [App].  The storage it wrote
    is the one the client reads, and each [onApiKeyChange] call reaches
    [handleApiKeyChange] in order. *)
Definition with_storage (store : gmap jsstring jsstring) (w : World) : World :=
  mkWorld (ai w) (window_defined w) store (VITE_GEMINI_API_KEY w) (process_env_API_KEY w).

Definition onApiKeyChange (o : Outcome) (m : Machine) : Machine :=
  foldl (fun m a => handleApiKeyChange a m)
        (on_world (with_storage (storage o)) m) (notified o).

(** A key manager with a well-formed key typed in, padded with blanks. *)
Definition typed_key : ApiKeyManager.State :=
  ApiKeyManager.mkState (lit "  AIzaSy-typed-0123456789 ") false true false None.

(** How the pattern parser reads an escaped word back: a backslash makes
    the code unit after it a literal. *)
Fixpoint patternLiteral (p : jsstring) : jsstring :=
  match p with
  | [] => []
  | c :: rest =>
      if (c =? 92)%N then
        match rest with
        | d :: rest' => d :: patternLiteral rest'
        | [] => []
        end
      else c :: patternLiteral rest
  end.

(** The marks [handleWordClick] removes from the word clicked. *)
Definition isMark (c : N) : bool :=
  existsb (N.eqb c) [46; 44; 33; 63; 59; 58; 40; 41; 34; 39]%N.

(** *** Invariants of the component *)

(** The dependencies recorded are those of the last render; a run of the
    definition effect is registered exactly in the definition view, it is
    the run for the topic shown, and that topic is not empty. *)
Definition effect_invariant (m : Machine) : Prop :=
  deps m = (view (app m), definitionTopic (app m))
  /\ (view (app m) = definition -> definitionTopic (app m) <> [])
  /\ (effect m = None <-> view (app m) <> definition)
  /\ (forall f, effect m = Some f ->
        exists ft, fetches m !! f = Some ft /\ topic ft = definitionTopic (app m)).

(** A continuation that settles on any reply without a further request. *)
Definition settles {A} (k : reply -> task A) : Prop :=
  forall r, exists res, k r = Done res.

(** Every suspended handler waits for a request that was sent and settles
    on its reply. *)
Definition pending_invariant (m : Machine) : Prop :=
  (forall i op, pending m !! i = Some op ->
     i < length (sent m)
     /\ match op with PAnalyze k => settles k | PWorksheet k => settles k end)
  /\ Forall (fun ft => forall k, artPending ft = Some k -> settles k) (fetches m).

(** At most one handler is suspended, and only outside the definition view
    and under its own loading state. *)
Definition loading_invariant (m : Machine) : Prop :=
  (forall i j, is_Some (pending m !! i) -> is_Some (pending m !! j) -> i = j)
  /\ (forall i, is_Some (pending m !! i) ->
        view (app m) <> definition
        /\ (loadingState (app m) = analyzing
            \/ loadingState (app m) = generating_worksheet)).


(** A request as the client lets it out. *)
Definition well_formed (req : request) : Prop :=
  match req with
  | ReqVocabulary k text => k <> [] /\ ~ blank text
  | ReqWorksheet k text words => k <> [] /\ ~ blank text /\ words <> []
  | ReqAsciiArt k topic | ReqStream k topic => k <> [] /\ topic <> []
  end.

(** The client, if there is one, holds a key. *)
Definition client_ok (w : World) : Prop := forall k, ai w = Some k -> k <> [].

(** The requests one event may add. *)
Definition budget (ev : event) : nat :=
  match ev with
  | ClickAnalyze _ | ClickGenerateWorksheet => 1
  | ClickWord _ => 2
  | _ => 0
  end.

(** What one run of the definition effect may change while it consumes its
    stream: the content, the error, the loading state, the generation time
    and its own accumulator and generator. *)
Definition stream_frame (f : nat) (m m' : Machine) : Prop :=
  world m' = world m /\ sent m' = sent m /\ pending m' = pending m
  /\ effect m' = effect m /\ deps m' = deps m /\ timers m' = timers m
  /\ map topic (fetches m') = map topic (fetches m)
  /\ map isCancelled (fetches m') = map isCancelled (fetches m)
  /\ map artPending (fetches m') = map artPending (fetches m)
  /\ view (app m') = view (app m)
  /\ definitionTopic (app m') = definitionTopic (app m)
  /\ selectedWords (app m') = selectedWords (app m)
  /\ (loadingState (app m') = loadingState (app m)
      \/ (loadingState (app m') = idle
          /\ map isCancelled (fetches m) !! f = Some false)).

(** The definition view was left while its stream was still running. *)
Definition left_mid_stream (m : Machine) : Prop :=
  loadingState (app m) = loading_definition /\ view (app m) <> definition.

(** A key is configured, a text analysed, a word opened and the view left
    before the service has streamed anything. *)
Definition back_mid_stream : list event :=
  [ ApiKeyChange (Some (lit "AIzaSyA-0123456789abcdef"));
    ClickAnalyze (lit "Ephemeral joys.");
    Settle 0 (Responded (Some two_words_json));
    Elapse 600;
    ClickWord (lit "ephemeral");
    ClickBack ].

(** [m'] has sent at most [n] requests more than [m], and well-formed ones
    if the client of [m] holds a key. *)
Definition sends (n : nat) (m m' : Machine) : Prop :=
  exists new, sent m' = sent m ++ new /\ length new <= n
              /\ (client_ok (world m) -> client_ok (world m') /\ Forall well_formed new).

Definition view_invariant (m : Machine) : Prop :=
  effect_invariant m /\ pending_invariant m /\ loading_invariant m
  /\ NoDup (selectedWords (app m)).

Definition component_invariant (m : Machine) : Prop :=
  fetch_invariant m /\ view_invariant m.

(** A task of the client: settled, or one request away from it. *)
Definition one_request {A} (w : World) (ok : request -> Prop) (t : task A) : Prop :=
  match t with
  | Done _ => True
  | Await req k => settles k /\ (client_ok w -> ok req)
  end.

(** Two words are found and both check boxes are ticked. *)
Definition selection_trace : list event :=
  [ ApiKeyChange (Some (lit "AIzaSyA-0123456789abcdef"));
    ClickAnalyze (lit "Ephemeral joys.");
    Settle 0 (Responded (Some two_words_json));
    Elapse 600;
    ToggleWord (lit "joys");
    ToggleWord (lit "ephemeral") ].

(** An analysis is started and not yet answered. *)
Definition analysis_in_flight : list event :=
  [ ApiKeyChange (Some (lit "AIzaSyA-0123456789abcdef"));
    ClickAnalyze (lit "Ephemeral joys.") ].

(** What may follow once the view was left: the service finishes the
    stream and the art, the user tries the buttons, time passes. *)
Definition after_leaving : list event :=
  [ Stream 0 Opened;
    Stream 0 (Chunk (Some (lit "Lasting a very short time.")));
    Stream 0 StreamEnd;
    ArtSettle 0 (Rejected NonError);
    ClickAnalyze (lit "Ubiquitous sounds.");
    ClickWord (lit "joys");
    ClickBack;
    Elapse 4000 ].

(** *** handleRandom

    The handler from its call to its end, for a given behaviour of the
    service: [evs] is what the service does on the stream and [r] its reply
    to the analysis request.  [randomTopic] is the entry of [SAMPLE_TOPICS]
    that [Math.random] picks.  The result is the state the handler leaves
    with the requests it sent, or [None] while it is still suspended. *)

Definition generating (randomTopic : jsstring) : jsstring :=
  [10024%N] ++ lit " Generating article about: " ++ randomTopic ++ [10; 10]%N
  ++ lit "Please wait while our AI creates educational content...".

Definition generated (randomTopic articleText : jsstring) : jsstring :=
  [10024%N] ++ lit " Generated article about: " ++ randomTopic ++ [10; 10]%N
  ++ articleText.

(** How the [for await] loop ends. *)
Inductive loopEnd : Type :=
| Completed
| Failed (e : thrown)
| Suspended.

(** The generator has returned or thrown within [outs]. *)
Definition ended (outs : list genOut) : bool :=
  existsb (fun o => match o with Yield _ => false | Return | Throw _ => true end) outs.

(** The loop over what the generator hands out. *)
Fixpoint random_loop (randomTopic : jsstring) (outs : list genOut)
    (articleText : jsstring) (s : App.State) : jsstring * App.State * loopEnd :=
  match outs with
  | [] => (articleText, s, Suspended)
  | Yield chunk :: rest =>
      random_loop randomTopic rest (articleText ++ chunk)
        (setMainText (generated randomTopic (articleText ++ chunk)) s)
  | Return :: _ => (articleText, s, Completed)
  | Throw e :: _ => (articleText, s, Failed e)
  end.

Section Random.

Variable JSON_parse : jsstring -> jsstring + value.
Variable WELCOME_TEXT : jsstring.

(** The [catch] clause followed by the [finally] block. *)
Definition random_catch (e : thrown) (s : App.State) : App.State :=
  setLoadingState idle
    (setMainText WELCOME_TEXT
       (setError (Some (messageOr (lit "Failed to generate a random article.") e)) s)).

Definition handleRandom (randomTopic : jsstring) (evs : list streamEvent) (r : reply)
    (s : App.State) (w : World) : option (App.State * World * list request) :=
  if negb (apiKeyConfigured s) then
    Some (setError (Some (lit "Please configure your Gemini API key first.")) s, w, [])
  else
    let s := setSelectedWords [] (setAnalyzedWords []
               (setMainText ([55358; 56598]%N
                             ++ lit " AI is generating an educational article...")
                  (setError None (setLoadingState analyzing s)))) in
    let s := setMainText (generating randomTopic) s in
    let '(_, _, reqs, w1) := streamDefinition randomTopic w in
    let '(outs, _) := stream_all randomTopic w evs in
    match random_loop randomTopic outs [] s with
    | (_, _, Suspended) => None
    | (_, s, Failed e) => Some (random_catch e s, w1, reqs)
    | (articleText, s, Completed) =>
        let '(t, w2) := analyzeTextForVocabulary JSON_parse articleText w1 in
        let '(res, sent) := run (fun _ => r) reqs t in
        Some (match res with
              | inr words => setLoadingState idle (setAnalyzedWords words s)
              | inl e => random_catch e s
              end, w2, sent)
    end.

End Random.

(** The twelve topics. *)
Definition SAMPLE_TOPICS : list jsstring :=
  [ lit "Quantum Computing and Future Technology";
    lit "Sustainable Energy and Environmental Science";
    lit "Neuroscience and Cognitive Psychology";
    lit "Blockchain Technology and Cryptocurrency";
    lit "Artificial Intelligence and Machine Learning";
    lit "Space Exploration and Astrophysics";
    lit "Biotechnology and Genetic Engineering";
    lit "Climate Change and Global Warming";
    lit "Philosophy of Mind and Consciousness";
    lit "Economic Theory and Financial Markets";
    lit "Cultural Anthropology and Social Sciences";
    lit "Modern Architecture and Urban Planning" ].

(** A configured application before anything was analysed. *)
Definition fresh_configured : App.State :=
  App.mkState analyzer idle (lit "Welcome") [] [] None true false [] [] [] [] None None None.

(** *** Words beside letters that the pattern does not count as word
    characters *)

(** The words [cliché] and [résumé]; [233] is the code unit of the accented
    letter. *)
Definition cliche : jsstring := lit "clich" ++ [233%N].
Definition resume : jsstring := lit "r" ++ [233%N] ++ lit "sum" ++ [233%N].

(** Two case tables tell the code units of the words and of the text apart
    in the same way. *)
Definition agree_on (C C' : N -> N) (words : list jsstring) (text : jsstring) : Prop :=
  forall w a b, w ∈ words -> a ∈ w -> b ∈ text ->
    (C a =? C b)%N = (C' a =? C' b)%N.

(** *** Two definition runs at once *)

(** The first [b] runs are behind the effect: the list holds them, and the
    run registered, if there is one, was started after them. *)
Definition superseded (b : nat) (m : Machine) : Prop :=
  b <= length (fetches m) /\ forall c, effect m = Some c -> b <= c.

(** A first definition is opened and its stream has begun to yield; its
    art is still awaited. *)
Definition first_streaming : list event :=
  [ ApiKeyChange (Some (lit "AIzaSyA-0123456789abcdef"));
    ClickAnalyze (lit "Ephemeral joys.");
    Settle 0 (Responded (Some two_words_json));
    Elapse 600;
    ClickWord (lit "ephemeral");
    Stream 0 Opened;
    Stream 0 (Chunk (Some (lit "Lasting "))) ].

(** What the service goes on to send for the first run, and what it sends
    for the second, once the second has started. *)
Definition both_runs : list event :=
  [ Stream 1 Opened;
    Stream 0 (Chunk (Some (lit "a very short time.")));
    Stream 1 (Chunk (Some (lit "Great ")));
    ArtSettle 0 (Responded (Some (lit "{}")));
    Stream 0 StreamEnd;
    Stream 1 (Chunk (Some (lit "pleasures.")));
    ArtSettle 1 (Rejected NonError);
    Stream 1 StreamEnd ].

(** The events of the first run among [both_runs]. *)
Definition first_run_rest : list event :=
  [ Stream 0 (Chunk (Some (lit "a very short time.")));
    ArtSettle 0 (Responded (Some (lit "{}")));
    Stream 0 StreamEnd ].

(** * Properties *)


(** ** Strings *)

Lemma trimStart_blank (s : jsstring) : blank s -> trimStart s = [].
Proof.
  induction 1 as [|c s Hc _ IH]; simpl; [reflexivity|].
  rewrite Hc. exact IH.
Qed.

Lemma trim_blank (s : jsstring) : blank s -> trim s = [].
Proof.
  intros H. unfold trim, trimEnd. rewrite (trimStart_blank s H). reflexivity.
Qed.

Lemma trimStart_nil_blank (s : jsstring) : trimStart s = [] -> blank s.
Proof.
  induction s as [|c s IH]; simpl; intros H; [constructor|].
  destruct (isWhiteSpace c) eqn:Hc; [|discriminate].
  constructor; [exact Hc | apply IH; exact H].
Qed.

Lemma trim_nil_blank (s : jsstring) : trim s = [] -> blank s.
Proof.
  unfold trim, trimEnd. intros H.
  apply (f_equal (@rev N)) in H. rewrite rev_involutive in H. simpl in H.
  apply trimStart_nil_blank in H.
  apply trimStart_nil_blank.
  destruct (trimStart s) as [|c t] eqn:E; [reflexivity|].
  exfalso.
  assert (Hc : isWhiteSpace c = false).
  { clear H. induction s as [|d s IH]; simpl in E; [discriminate|].
    destruct (isWhiteSpace d) eqn:Hd; [auto|]. injection E as -> _. exact Hd. }
  unfold blank in H. rewrite Forall_forall in H.
  specialize (H c). rewrite Hc in H. discriminate H.
  apply list_elem_of_In. apply in_rev. rewrite rev_involutive. simpl. auto.
Qed.

(** A text is blank exactly when [!text.trim()] holds. *)
Lemma blank_iff_trim (s : jsstring) : blank s <-> Js.truthy (trim s) = false.
Proof.
  split.
  - intros H. rewrite trim_blank by assumption. reflexivity.
  - intros H. apply trim_nil_blank. destruct (trim s); [reflexivity|discriminate].
Qed.

(** ** The client *)

Example stripFence_fenced :
  stripFence (lit "```json" ++ [10%N] ++ lit "{}" ++ [10%N] ++ lit "```") = lit "{}"
  /\ stripFence (lit "``` json {} ```") = lit "json {}"
  /\ stripFence (lit "```a ``` ```") = lit "a ```"
  /\ stripFence (lit "`````") = lit "`````"
  /\ stripFence (lit "{}") = lit "{}".
Proof. vm_compute. repeat split; reflexivity. Qed.



Lemma configured_keyed_world : configured keyed_world.
Proof. eexists _, _. reflexivity. Qed.

Lemma ensure_cases (w : World) :
  configured w \/ ensureAiClient w = (inl (ErrorObj no_key_message), w).
Proof.
  unfold configured, ensureAiClient.
  destruct (ai w); [left; eauto|].
  destruct (getCurrentApiKey w) as [k|]; [|right; reflexivity].
  destruct (Js.truthy k); [left; eauto | right; reflexivity].
Qed.

Section ClientProperties.

Variable JSON_parse : jsstring -> jsstring + value.
Variable typeErrorMessage : bool -> jsstring -> jsstring.

Local Abbreviation analyze := (analyzeTextForVocabulary JSON_parse).
Local Abbreviation worksheet := (generateWorksheetData JSON_parse typeErrorMessage).
Local Abbreviation asciiArt := (generateAsciiArt JSON_parse typeErrorMessage).

(** Without a credential every operation settles with the no-key error
    before anything is sent. *)
Lemma analyze_no_credential text w service :
  ~ configured w ->
  run service [] (fst (analyze text w)) = (inl (ErrorObj no_key_message), []).
Proof.
  intros Hn. destruct (ensure_cases w) as [H|H]; [contradiction|].
  unfold analyzeTextForVocabulary. rewrite H. reflexivity.
Qed.

(** C6, as amended: with a credential configured, a text that is empty or
    made of white space only makes [analyzeTextForVocabulary] resolve to the
    empty list, and no request is sent. *)
Theorem analyze_blank_text text w service :
  blank text -> configured w ->
  run service [] (fst (analyze text w)) = (inr [], []).
Proof.
  intros Hb (client & w' & Hc).
  unfold analyzeTextForVocabulary. rewrite Hc.
  apply blank_iff_trim in Hb. rewrite Hb. reflexivity.
Qed.

(** C10: with a credential configured, a blank source text or an empty word
    list makes [generateWorksheetData] reject with the invalid-input error,
    and no request is sent. *)
Theorem worksheet_invalid_input text words w service :
  configured w -> blank text \/ words = [] ->
  run service [] (fst (worksheet text words w)) = (inl invalid_input, []).
Proof.
  intros (client & w' & Hc) Hin.
  unfold generateWorksheetData. rewrite Hc.
  destruct Hin as [Hb| ->].
  - apply blank_iff_trim in Hb. rewrite Hb. reflexivity.
  - simpl. rewrite orb_true_r. reflexivity.
Qed.

(** The retry loop: when every pass through the [try] block fails, a bound
    of [n >= 1] sends [n] requests and then gives up. *)
Lemma ascii_loop_all_fail client topic service n :
  (forall i, exists e, ascii_try JSON_parse typeErrorMessage (service i) = inl e) ->
  forall k sent, k <= n -> 1 <= k ->
  run service sent (ascii_loop JSON_parse typeErrorMessage client topic n (seq k (S n - k)))
  = (inl (ErrorObj (lit "Could not generate ASCII art after " ++ Js.ofNat n ++ lit " attempts.")),
     sent ++ repeat (ReqAsciiArt client topic) (S n - k)).
Proof.
  intros Hfail k sent Hk H1.
  remember (S n - k) as m eqn:Hm.
  revert k sent Hk H1 Hm. induction m as [|m IH]; intros k sent Hk H1 Hm; [lia|].
  simpl. destruct (Hfail (length sent)) as [e He]. rewrite He.
  destruct (Nat.eqb_spec k n) as [->|Hne].
  - assert (m = 0) as -> by lia. simpl. reflexivity.
  - rewrite (IH (S k)) by lia.
    rewrite <- app_assoc. reflexivity.
Qed.

(** Never more requests than the bound allows. *)
Lemma ascii_loop_bound client topic service n :
  forall attempts sent,
  length (snd (run service sent
                 (ascii_loop JSON_parse typeErrorMessage client topic n attempts)))
  <= length sent + length attempts.
Proof.
  induction attempts as [|a rest IH]; intros sent; simpl; [lia|].
  destruct (ascii_try _ _ _).
  - destruct (a =? n); simpl.
    + rewrite length_app. simpl. lia.
    + specialize (IH (sent ++ [ReqAsciiArt client topic])).
      rewrite length_app in IH. simpl in IH. lia.
  - simpl. rewrite length_app. simpl. lia.
Qed.

(** C1, as amended: [generateAsciiArt] makes a single attempt and never
    retries.  It sends at most one request; with a credential configured and
    a reply that fails validation it rejects after exactly that one request. *)
Theorem asciiArt_single_attempt topic w service :
  length (snd (run service [] (fst (asciiArt topic w)))) <= 1
  /\ (forall client w' e,
        ensureAiClient w = (inr client, w') ->
        ascii_try JSON_parse typeErrorMessage (service 0) = inl e ->
        run service [] (fst (asciiArt topic w))
        = (inl (ErrorObj (lit "Could not generate ASCII art after 1 attempts.")),
           [ReqAsciiArt client topic])).
Proof.
  split.
  - unfold generateAsciiArt. destruct (ensureAiClient w) as [[e|client] w']; simpl; [lia|].
    destruct (ascii_try _ _ _); simpl; lia.
  - intros client w' e Hc He. unfold generateAsciiArt. rewrite Hc. simpl.
    rewrite He. reflexivity.
Qed.

End ClientProperties.

(** C6 as stated fails: with no credential the blank text is not answered
    with the empty list; the call rejects with the no-key error. *)
Lemma analyze_blank_text_no_key :
  run (fun _ => Responded None) []
      (fst (analyzeTextForVocabulary JSON_parse_sample (lit "   ") bare_world))
  = (inl (ErrorObj no_key_message), []).
Proof. reflexivity. Qed.

Lemma analyze_blank_text_witness :
  run (fun _ => Responded None) []
      (fst (analyzeTextForVocabulary JSON_parse_sample (lit "   ") keyed_world))
  = (inr [], []).
Proof.
  apply analyze_blank_text.
  - repeat constructor.
  - exact configured_keyed_world.
Defined.

Lemma worksheet_invalid_input_witness :
  run (fun _ => Responded None) []
      (fst (generateWorksheetData JSON_parse_sample type_errors (lit "Some text.") [] keyed_world))
  = (inl invalid_input, []).
Proof.
  apply worksheet_invalid_input.
  - exact configured_keyed_world.
  - right. reflexivity.
Defined.

(** C1 as stated fails: malformed JSON on every attempt is given up on after
    one request, not two. *)
Lemma asciiArt_malformed_one_request :
  run (fun _ => Responded (Some (lit "not json"))) []
      (fst (generateAsciiArt JSON_parse_sample type_errors (lit "ephemeral") keyed_world))
  = (inl (ErrorObj (lit "Could not generate ASCII art after 1 attempts.")),
     [ReqAsciiArt (lit "AIzaSyA-0123456789abcdef") (lit "ephemeral")]).
Proof. reflexivity. Qed.

Lemma asciiArt_single_attempt_witness :
  run (fun _ => Responded (Some (lit "not json"))) []
      (fst (generateAsciiArt JSON_parse_sample type_errors (lit "ephemeral") keyed_world))
  = (inl (ErrorObj (lit "Could not generate ASCII art after 1 attempts.")),
     [ReqAsciiArt (lit "AIzaSyA-0123456789abcdef") (lit "ephemeral")]).
Proof.
  eapply (proj2 (asciiArt_single_attempt JSON_parse_sample type_errors (lit "ephemeral")
                   keyed_world (fun _ => Responded (Some (lit "not json"))))).
  - reflexivity.
  - reflexivity.
Defined.

(** ** The definition stream *)


Lemma stream_feed_finished evs : stream_feed Finished evs = ([], Finished).
Proof.
  induction evs as [|ev evs IH]; simpl; [reflexivity|].
  rewrite IH. destruct ev; reflexivity.
Qed.

Lemma stream_feed_chunks topic chunks evs :
  stream_feed (Iterating topic) (map Chunk chunks ++ evs)
  = (map Yield (visible chunks) ++ fst (stream_feed (Iterating topic) evs),
     snd (stream_feed (Iterating topic) evs)).
Proof.
  induction chunks as [|c chunks IH]; simpl.
  - destruct (stream_feed _ evs); reflexivity.
  - unfold visible. simpl. fold (visible chunks).
    destruct c as [t|]; simpl.
    + destruct (Js.truthy t); simpl; rewrite IH; reflexivity.
    + rewrite IH. reflexivity.
Qed.

(** C3: when no credential can be resolved the sequence is one error chunk
    followed by a normal return, and nothing is sent; when the service fails
    after the stream was opened, the chunks yielded so far are followed by
    the chunk of the [catch] clause and the sequence ends by throwing. *)
Theorem streamDefinition_failures topic w :
  (forall e w', ensureAiClient w = (inl e, w') ->
     streamDefinition topic w
     = ([Yield (lit "Error: " ++ messageOr (lit "API key not configured.") e); Return],
        Finished, [], w')
     /\ forall evs, stream_all topic w evs
        = ([Yield (lit "Error: " ++ messageOr (lit "API key not configured.") e); Return],
           Finished))
  /\ (forall client w' chunks e rest,
        ensureAiClient w = (inr client, w') ->
        stream_all topic w (Opened :: map Chunk chunks ++ StreamFailed e :: rest)
        = (map Yield (visible chunks)
             ++ [Yield (lit "Error: Could not generate content for " ++ dquote ++ topic
                        ++ dquote ++ lit ". " ++ messageOr unknown_error e);
                 Throw (ErrorObj (messageOr unknown_error e))],
           Finished)).
Proof.
  split.
  - intros e w' He. unfold stream_all, streamDefinition. rewrite He.
    split; [reflexivity|]. intros evs. rewrite stream_feed_finished. reflexivity.
  - intros client w' chunks e rest He.
    unfold stream_all, streamDefinition. rewrite He. simpl.
    rewrite stream_feed_chunks. simpl. rewrite stream_feed_finished. simpl.
    reflexivity.
Qed.

Lemma streamDefinition_failures_witness :
  stream_all (lit "ephemeral") bare_world [Opened; Chunk (Some (lit "abc"))]
  = ([Yield (lit "Error: No API key configured. Please set up your Gemini API key.");
      Return], Finished)
  /\ stream_all (lit "ox") keyed_world
       (Opened :: map Chunk [Some (lit "An "); Some []; None; Some (lit "ox is")]
          ++ StreamFailed (ErrorObj (lit "503")) :: [])
     = ([Yield (lit "An "); Yield (lit "ox is");
         Yield (lit "Error: Could not generate content for " ++ dquote ++ lit "ox"
                ++ dquote ++ lit ". 503");
         Throw (ErrorObj (lit "503"))], Finished).
Proof.
  split.
  - exact (proj2 (proj1 (streamDefinition_failures (lit "ephemeral") bare_world)
                     (ErrorObj no_key_message) bare_world eq_refl) _).
  - eapply (proj2 (streamDefinition_failures (lit "ox") keyed_world)).
    reflexivity.
Defined.

(** ** Saving a key *)


(** C9: a key that is empty after trimming, does not start with [AI] or has
    fewer than 20 code units is refused with an error message for the user;
    the stored value, the key flag and the client are left alone. *)
Theorem handleSaveKey_rejects setItem_throws st store :
  trim (apiKey st) = []
  \/ startsWith (trim (apiKey st)) (lit "AI") = false
  \/ length (trim (apiKey st)) < 20 ->
  let o := handleSaveKey setItem_throws st store in
  storage o = store
  /\ notified o = []
  /\ timeouts o = []
  /\ isKeySet (state o) = isKeySet st
  /\ (message (state o) = Some (failure, lit "Please enter a valid API key")
      \/ message (state o) = Some (failure, lit "Invalid Gemini API key format")).
Proof.
  intros H. unfold handleSaveKey.
  destruct (Js.truthy (trim (apiKey st))) eqn:Ht; simpl.
  - assert (Hbad : negb (startsWith (trim (apiKey st)) (lit "AI"))
                   || (length (trim (apiKey st)) <? 20) = true).
    { destruct H as [H|[H|H]].
      - rewrite H in Ht. discriminate.
      - rewrite H. reflexivity.
      - apply orb_true_iff. right. apply Nat.ltb_lt. exact H. }
    rewrite Hbad. simpl. auto 10.
  - auto 10.
Qed.

Lemma handleSaveKey_rejects_witness :
  let o := handleSaveKey false (ApiKeyManager.mkState (lit "short") false true false None) ∅ in
  storage o = ∅
  /\ notified o = []
  /\ timeouts o = []
  /\ isKeySet (state o) = false
  /\ (message (state o) = Some (failure, lit "Please enter a valid API key")
      \/ message (state o) = Some (failure, lit "Invalid Gemini API key format")).
Proof.
  apply (handleSaveKey_rejects false (ApiKeyManager.mkState (lit "short") false true false None) ∅).
  right. left. reflexivity.
Defined.

(** ** Selecting words *)


Lemma toggle_absent (word : jsstring) (prev : list jsstring) :
  word ∉ prev -> handleSelectionChange word prev = prev ++ [word].
Proof. intros H. unfold handleSelectionChange. rewrite bool_decide_eq_false_2; auto. Qed.

Lemma toggle_present (word : jsstring) (prev : list jsstring) :
  word ∈ prev -> handleSelectionChange word prev = filter (fun w => w ≠ word) prev.
Proof. intros H. unfold handleSelectionChange. rewrite bool_decide_eq_true_2; auto. Qed.

Lemma filter_ne_absent (word : jsstring) (l : list jsstring) :
  word ∉ l -> filter (fun w => w ≠ word) l = l.
Proof.
  induction l as [|x l IH]; intros H; [reflexivity|].
  apply not_elem_of_cons in H as [Hx Hl].
  rewrite filter_cons_True by congruence. rewrite IH; auto.
Qed.

Lemma toggle_NoDup (word : jsstring) (prev : list jsstring) :
  NoDup prev -> NoDup (handleSelectionChange word prev).
Proof.
  intros H. unfold handleSelectionChange. case_bool_decide as Hin.
  - apply NoDup_filter. exact H.
  - apply NoDup_app. split; [exact H|]. split.
    + intros x Hx Hx'. apply list_elem_of_singleton in Hx'. subst. contradiction.
    + apply NoDup_singleton.
Qed.

(** C8: toggling a word twice gives back the same set of selected words,
    and the very same list when the word was not selected.  A word that gets
    selected goes to the end; deselecting removes it and keeps the others in
    their order. *)
Theorem handleSelectionChange_twice (word : jsstring) (prev : list jsstring) :
  (forall w, w ∈ handleSelectionChange word (handleSelectionChange word prev) <-> w ∈ prev)
  /\ (word ∉ prev ->
      handleSelectionChange word prev = prev ++ [word]
      /\ handleSelectionChange word (handleSelectionChange word prev) = prev)
  /\ (word ∈ prev ->
      handleSelectionChange word prev = filter (fun w => w ≠ word) prev
      /\ handleSelectionChange word (handleSelectionChange word prev)
         = filter (fun w => w ≠ word) prev ++ [word])
  /\ filter (fun w => w ≠ word) (handleSelectionChange word prev)
     = filter (fun w => w ≠ word) prev.
Proof.
  assert (Hout : word ∉ filter (fun w => w ≠ word) prev).
  { intros Hin. apply list_elem_of_filter in Hin as [Hne _]. congruence. }
  assert (Habs : word ∉ prev ->
                 handleSelectionChange word (handleSelectionChange word prev) = prev).
  { intros Hn. rewrite (toggle_absent word prev Hn).
    rewrite toggle_present by (apply elem_of_app; right; apply list_elem_of_singleton; reflexivity).
    rewrite filter_app, filter_ne_absent by assumption.
    rewrite filter_cons_False by (intros Hc; apply Hc; reflexivity).
    rewrite filter_nil. apply app_nil_r. }
  assert (Hpre : word ∈ prev ->
                 handleSelectionChange word (handleSelectionChange word prev)
                 = filter (fun w => w ≠ word) prev ++ [word]).
  { intros Hi. rewrite (toggle_present word prev Hi). apply toggle_absent. exact Hout. }
  split; [|split; [|split]].
  - intros w. destruct (decide (word ∈ prev)) as [Hi|Hn].
    + rewrite Hpre by assumption. rewrite elem_of_app, list_elem_of_filter, list_elem_of_singleton.
      split.
      * intros [[_ H]| ->]; assumption.
      * intros H. destruct (decide (w = word)); [right|left]; auto.
    + rewrite Habs by assumption. reflexivity.
  - intros Hn. split; [apply toggle_absent|apply Habs]; assumption.
  - intros Hi. split; [apply toggle_present|apply Hpre]; assumption.
  - destruct (decide (word ∈ prev)) as [Hi|Hn].
    + rewrite (toggle_present word prev Hi). apply filter_ne_absent. exact Hout.
    + rewrite (toggle_absent word prev Hn). rewrite filter_app.
      rewrite filter_cons_False by (intros Hc; apply Hc; reflexivity).
      rewrite filter_nil. apply app_nil_r.
Qed.

Lemma handleSelectionChange_twice_witness :
  handleSelectionChange (lit "b") (handleSelectionChange (lit "b") [lit "a"]) = [lit "a"]
  /\ handleSelectionChange (lit "a")
       (handleSelectionChange (lit "a") [lit "a"; lit "b"]) = [lit "b"; lit "a"].
Proof.
  split.
  - apply (proj1 (proj2 (handleSelectionChange_twice (lit "b") [lit "a"]))).
    intros H. apply list_elem_of_singleton in H. discriminate H.
  - apply (proj1 (proj2 (proj2 (handleSelectionChange_twice (lit "a") [lit "a"; lit "b"])))).
    apply list_elem_of_here.
Defined.

(** ** Progress steps *)


(** [updateProgressStep] with its default second argument never takes a
    completion mark away. *)
Lemma updateSteps_keeps_completed stepId steps current i st :
  steps !! i = Some st -> completed st = true ->
  exists st', (updateSteps stepId true steps current).1 !! i = Some st'
              /\ completed st' = true.
Proof.
  intros Hi Hc. unfold updateSteps.
  destruct (list_find _ steps) as [[j x]|]; [|eauto].
  assert (H1 : exists st1, alter (setCompleted true) j steps !! i = Some st1
                           /\ completed st1 = true).
  { destruct (decide (j = i)) as [->|Hne].
    - rewrite list_lookup_alter_eq, Hi. simpl. eauto.
    - rewrite list_lookup_alter_ne by assumption. eauto. }
  destruct H1 as (st1 & H1 & Hc1).
  simpl. destruct (j + 1 <? length (alter (setCompleted true) j steps)); simpl; [|eauto].
  destruct (decide (j + 1 = i)) as [->|Hne].
  - rewrite list_lookup_alter_eq, H1. simpl. eauto.
  - rewrite list_lookup_alter_ne by assumption. eauto.
Qed.

(** The timers of one operation, firing in the order they were set, leave
    exactly one step active. *)
Lemma steps_in_order_one_active :
  forall k, k <= 3 ->
  activeCount (foldl (fun steps stepId => (updateSteps stepId true steps []).1)
                 (createProgressSteps analyze)
                 (take k [lit "preprocessing"; lit "analysis"; lit "ranking"])) = 1
  /\ activeCount (foldl (fun steps stepId => (updateSteps stepId true steps []).1)
                    (createProgressSteps worksheet_flow)
                    (take k [lit "setup"; lit "definitions"; lit "questions"])) = 1.
Proof.
  intros k Hk.
  destruct k as [|[|[|[|k]]]]; [split; vm_compute; reflexivity ..|lia].
Qed.


(** C4 fails on the code: timers are never cleared, so while the second
    analysis is in progress and its tracker is shown, two steps are active
    at once, and [ranking] became active before [analysis] was ever
    the active step. *)
Theorem stale_timer_two_active :
  let m := run_events JSON_parse_sample type_errors stale_timer_trace
             (initial (lit "Welcome") bare_world) in
  loadingState (app m) = analyzing
  /\ showProgress (app m) = true
  /\ map (fun st => (id st, completed st, active st)) (progressSteps (app m))
     = [ (lit "preprocessing", false, true);
         (lit "analysis", true, false);
         (lit "ranking", false, true);
         (lit "finalizing", false, false) ]
  /\ activeCount (progressSteps (app m)) = 2.
Proof. vm_compute. repeat split; reflexivity. Qed.

(** ** Worksheet generation in the orchestrator *)

Section Orchestrator.

Variable JSON_parse : jsstring -> jsstring + value.
Variable typeErrorMessage : bool -> jsstring -> jsstring.

Local Abbreviation step' := (step JSON_parse typeErrorMessage).
Local Abbreviation run_events' := (run_events JSON_parse typeErrorMessage).
Local Abbreviation fire' := (fire JSON_parse typeErrorMessage).
Local Abbreviation useEffect' := (useEffect JSON_parse typeErrorMessage).


Lemma worksheet_try_malformed t data :
  JSON_parse (textArg t) = inr data -> malformed typeErrorMessage data ->
  worksheet_catch (worksheet_try JSON_parse typeErrorMessage (Responded t))
  = inl (ErrorObj incomplete_message).
Proof.
  intros Hp Hm. unfold worksheet_try. rewrite Hp.
  destruct Hm as [Ht|[Hnn Hw]].
  - rewrite Ht. reflexivity.
  - destruct (getProp typeErrorMessage data (lit "title")) as [e|title] eqn:Ht.
    + destruct data; simpl in Ht; try discriminate; congruence.
    + destruct (Json.truthy title); simpl; [|reflexivity].
      rewrite Hw. reflexivity.
Qed.

Lemma useEffect_off_definition m :
  view (app m) <> definition ->
  pending (useEffect' m) = pending m /\ app (useEffect' m) = app m
  /\ timers (useEffect' m) = timers m /\ sent (useEffect' m) = sent m.
Proof.
  intros Hv. unfold useEffect. case_bool_decide; [auto|].
  destruct (effect m); simpl; rewrite bool_decide_eq_false_2 by assumption; simpl; auto.
Qed.

Lemma fire_pending a m : pending (fire' a m) = pending m.
Proof.
  destruct a; simpl; try reflexivity.
  match goal with |- pending (useEffect' ?x) = _ =>
    destruct (useEffect_off_definition x) as (-> & _); [simpl; discriminate|reflexivity]
  end.
Qed.

(** No timer callback raises the loading state, shows the tracker again or
    touches the error. *)
Lemma fire_app a m :
  loadingState (app (fire' a m)) = loadingState (app m)
  /\ error (app (fire' a m)) = error (app m)
  /\ (showProgress (app m) = false -> showProgress (app (fire' a m)) = false).
Proof.
  destruct a; simpl.
  - unfold updateProgressStep. destruct (updateSteps _ _ _ _). simpl. auto.
  - auto.
  - destruct (useEffect_off_definition
                (on_app (fun s => setShowProgress false (setView worksheet
                                    (setWorksheetData (Some data) s))) m))
      as (_ & -> & _); simpl; [discriminate|auto].
Qed.

(** What every timer callback preserves, the passing of time preserves. *)
Lemma elapse_preserves (P : Machine -> Prop) :
  (forall f m, P m -> P (on_timers f m)) ->
  (forall f m, P m -> P (on_now f m)) ->
  (forall a m, P m -> P (fire' a m)) ->
  forall ms m, P m -> P (elapse JSON_parse typeErrorMessage ms m).
Proof.
  intros Ht Hn Hf ms m Hm. unfold elapse. apply Hn.
  assert (H0 : P (on_timers (fun _ => List.filter (fun t => negb (t.1 <=? now m + ms))
                                        (timers m)) m)) by (apply Ht; exact Hm).
  revert H0. generalize (on_timers (fun _ => List.filter (fun t => negb (t.1 <=? now m + ms))
                                        (timers m)) m).
  induction (List.filter (fun t => t.1 <=? now m + ms) (timers m)) as [|t l IH];
    intros m0 H0; simpl; [exact H0|].
  apply IH. apply Hf. apply Hn. exact H0.
Qed.

Lemma elapses_preserve (P : Machine -> Prop) :
  (forall f m, P m -> P (on_timers f m)) ->
  (forall f m, P m -> P (on_now f m)) ->
  (forall a m, P m -> P (fire' a m)) ->
  forall delays m, P m -> P (run_events' (map Elapse delays) m).
Proof.
  intros Ht Hn Hf delays. induction delays as [|d l IH]; intros m Hm; simpl; [exact Hm|].
  apply IH. apply elapse_preserves; assumption.
Qed.

(** C5: a worksheet response without a title, or with an empty word-detail
    list, makes [generateWorksheetData] reject; [handleGenerateWorksheet]
    catches the error, stores its message, goes back to idle and hides the
    progress tracker, whatever timers fire before or after. *)
Theorem worksheet_malformed_response m t data before after :
  resultsShown (app m) = true ->
  selectedWords (app m) <> [] ->
  configured (world m) ->
  ~ blank (mainText (app m)) ->
  JSON_parse (textArg t) = inr data ->
  malformed typeErrorMessage data ->
  let i := length (sent m) in
  let m1 := run_events' (map Elapse before) (step' ClickGenerateWorksheet m) in
  let m2 := run_events' (map Elapse after) (step' (Settle i (Responded t)) m1) in
  (exists k, pending m1 !! i = Some (PWorksheet k)
             /\ k (Responded t) = Done (inl (ErrorObj incomplete_message)))
  /\ error (app m2) = Some incomplete_message
  /\ loadingState (app m2) = idle
  /\ showProgress (app m2) = false.
Proof.
  intros Hshown Hsel (client & w' & Hc) Hnb Hp Hm i m1 m2.
  set (k := fun r => Done (worksheet_catch (worksheet_try JSON_parse typeErrorMessage r))).
  assert (Hk : k (Responded t) = Done (inl (ErrorObj incomplete_message))).
  { unfold k. rewrite (worksheet_try_malformed t data Hp Hm). reflexivity. }
  assert (H1 : pending m1 !! i = Some (PWorksheet k)).
  { unfold m1. apply (elapses_preserve (fun m' => pending m' !! i = Some (PWorksheet k)));
      [auto | auto | intros a m' H; rewrite fire_pending; exact H |].
    simpl. rewrite Hshown.
    destruct (selectedWords (app m)) as [|w ws] eqn:Hs; [congruence|]. simpl.
    unfold handleGenerateWorksheet. rewrite Hs. simpl.
    unfold generateWorksheetData. rewrite Hc.
    assert (Ht : Js.truthy (trim (mainText (app m))) = true).
    { destruct (Js.truthy (trim (mainText (app m)))) eqn:E; [reflexivity|].
      exfalso. apply Hnb. apply blank_iff_trim. exact E. }
    rewrite Ht. simpl. apply lookup_insert_eq. }
  split; [exists k; auto|].
  unfold m2.
  apply (elapses_preserve (fun m' => error (app m') = Some incomplete_message
                                     /\ loadingState (app m') = idle
                                     /\ showProgress (app m') = false)).
  - auto.
  - auto.
  - intros a m' (He & Hl & Hs). destruct (fire_app a m') as (-> & -> & H3). auto.
  - simpl. rewrite H1, Hk. simpl. auto.
Qed.

End Orchestrator.

Lemma words_selected_not_blank : ~ blank (mainText (app words_selected)).
Proof. intros H. inversion H as [|c s Hc Hs]. discriminate Hc. Qed.

Lemma worksheet_malformed_response_witness :
  let m1 := run_events JSON_parse_sample type_errors (map Elapse [900])
              (step JSON_parse_sample type_errors ClickGenerateWorksheet words_selected) in
  let m2 := run_events JSON_parse_sample type_errors (map Elapse [5000])
              (step JSON_parse_sample type_errors
                 (Settle (length (sent words_selected)) (Responded (Some (lit "{}")))) m1) in
  error (app m2) = Some incomplete_message
  /\ loadingState (app m2) = idle
  /\ showProgress (app m2) = false.
Proof.
  apply (worksheet_malformed_response JSON_parse_sample type_errors
           words_selected (Some (lit "{}")) (JObj []) [900] [5000]).
  - reflexivity.
  - discriminate.
  - eexists _, _. reflexivity.
  - exact words_selected_not_blank.
  - reflexivity.
  - left. reflexivity.
Defined.

(** ** The definition effect *)

Section DefinitionEffect.

Variable JSON_parse : jsstring -> jsstring + value.
Variable typeErrorMessage : bool -> jsstring -> jsstring.

Local Abbreviation step' := (step JSON_parse typeErrorMessage).
Local Abbreviation run_events' := (run_events JSON_parse typeErrorMessage).
Local Abbreviation useEffect' := (useEffect JSON_parse typeErrorMessage).
Local Abbreviation fetchDefinition' := (fetchDefinition JSON_parse typeErrorMessage).

Lemma alike_refl m : alike m m.
Proof. repeat split; eauto. Qed.

Lemma alike_trans m1 m2 m3 : alike m1 m2 -> alike m2 m3 -> alike m1 m3.
Proof.
  intros (E1 & C1 & F1) (E2 & C2 & F2). repeat split; [congruence..|].
  intros f ft3 H3. destruct (F2 f ft3 H3) as (ft2 & H2 & ? & ?).
  destruct (F1 f ft2 H2) as (ft1 & H1 & ? & ?). exists ft1. repeat split; congruence.
Qed.

Lemma alike_invariant m m' : alike m m' -> fetch_invariant m -> fetch_invariant m'.
Proof.
  intros (E & C & F) Hinv f ft' Hf. destruct (F f ft' Hf) as (ft & H & Hc & Ha).
  destruct (Hinv f ft H) as [H1 H2]. rewrite E, C, Hc, Ha. auto.
Qed.

Lemma alike_alter g f m :
  (forall ft, isCancelled (g ft) = isCancelled ft
              /\ accumulatedContent (g ft) = accumulatedContent ft) ->
  alike m (on_fetches (alter g f) m).
Proof.
  intros Hg. repeat split. simpl. intros i ft' H.
  destruct (decide (f = i)) as [->|Hne].
  - rewrite list_lookup_alter_eq in H.
    destruct (fetches m !! i) as [ft|]; [|discriminate]. injection H as <-.
    exists ft. destruct (Hg ft). auto.
  - rewrite list_lookup_alter_ne in H by assumption. eauto.
Qed.

Lemma alike_fetch_finally f m :
  (forall ft, fetches m !! f = Some ft -> isCancelled ft = true) ->
  alike m (fetch_finally f m) /\ app (fetch_finally f m) = app m.
Proof.
  intros Hc. unfold fetch_finally. destruct (fetches m !! f) as [ft|] eqn:Hf.
  - rewrite (Hc ft eq_refl). split; [|reflexivity].
    apply (alike_alter (setGenerator Finished)). auto.
  - split; [apply alike_refl|reflexivity].
Qed.

(** A cancelled run consumes whatever its generator hands out without a
    single state update. *)
Lemma consume_cancelled f outs m ft :
  fetches m !! f = Some ft -> isCancelled ft = true ->
  alike m (consume f outs m) /\ app (consume f outs m) = app m.
Proof.
  intros Hf Hc.
  assert (Hall : forall ft0, fetches m !! f = Some ft0 -> isCancelled ft0 = true)
    by (intros ft0 H0; congruence).
  destruct outs as [|o rest]; simpl; [split; [apply alike_refl|reflexivity]|].
  rewrite Hf. destruct o; rewrite ?Hc; apply alike_fetch_finally; exact Hall.
Qed.

Lemma art_progress_alike f t m :
  alike m (art_progress f t m)
  /\ ((forall ft, fetches m !! f = Some ft -> isCancelled ft = true) ->
      app (art_progress f t m) = app m).
Proof.
  destruct t as [r|req k]; simpl.
  - unfold art_settled. simpl.
    rewrite list_lookup_alter_eq.
    destruct (fetches m !! f) as [ft|] eqn:Hf; simpl.
    + destruct (isCancelled ft) eqn:Hc.
      * split; [|reflexivity]. apply (alike_alter (setArtPending None)). auto.
      * split.
        -- destruct (alike_alter (setArtPending None) f m) as (E & C & F); [auto|].
           repeat split; assumption.
        -- intros H. rewrite (H ft eq_refl) in Hc. discriminate.
    + split; [|reflexivity]. apply (alike_alter (setArtPending None)). auto.
  - split; [|reflexivity].
    destruct (alike_alter (setArtPending (Some k)) f m) as (E & C & F); [auto|].
    repeat split; assumption.
Qed.

(** C2, first half at the level of one event: what a cancelled run still
    receives changes nothing of the component state. *)
Lemma stale_event_ignored m f ft ev :
  fetches m !! f = Some ft -> isCancelled ft = true -> targets f ev ->
  app (step' ev m) = app m /\ alike m (step' ev m).
Proof.
  intros Hf Hc Ht. destruct ev; simpl in Ht; try contradiction; subst; simpl; rewrite Hf.
  - destruct (artPending ft) as [k|]; [|split; [reflexivity|apply alike_refl]].
    destruct (art_progress_alike f (k r) m) as [Ha Happ]. split; [|exact Ha].
    apply Happ. intros ft0 H0. congruence.
  - destruct (stream_resume (generator ft) ev) as [outs g].
    set (m0 := on_fetches (alter (setGenerator g) f) m).
    assert (H0 : fetches m0 !! f = Some (setGenerator g ft)).
    { unfold m0. simpl. rewrite list_lookup_alter_eq, Hf. reflexivity. }
    destruct (consume_cancelled f outs m0 _ H0 Hc) as [Ha Happ].
    split; [rewrite Happ; reflexivity|].
    eapply alike_trans; [|exact Ha]. apply (alike_alter (setGenerator g)). auto.
Qed.

(** The registered run consumes its chunks into both the accumulator and
    the definition shown. *)
Lemma consume_invariant f outs : forall m,
  fetch_invariant m ->
  fetch_invariant (consume f outs m) /\ effect (consume f outs m) = effect m.
Proof.
  induction outs as [|o rest IH]; intros m Hinv; simpl; [auto|].
  destruct (fetches m !! f) as [ft|] eqn:Hf; [|auto].
  destruct (isCancelled ft) eqn:Hc.
  - assert (Hall : forall ft0, fetches m !! f = Some ft0 -> isCancelled ft0 = true)
      by (intros ft0 H0; congruence).
    destruct (alike_fetch_finally f m Hall) as [Ha _].
    destruct o; (split; [eapply alike_invariant; eauto | apply Ha]).
  - assert (He : effect m = Some f).
    { destruct (decide (effect m = Some f)) as [E|E]; [exact E|].
      destruct (Hinv f ft Hf) as [H1 _]. rewrite (H1 E) in Hc. discriminate. }
    assert (Hfin : forall m0, fetch_invariant m0 ->
              fetch_invariant (fetch_finally f m0)
              /\ effect (fetch_finally f m0) = effect m0).
    { intros m0 H0. unfold fetch_finally.
      destruct (fetches m0 !! f) as [ft0|]; [|auto].
      assert (A : alike m0 (on_fetches (alter (setGenerator Finished) f) m0))
        by (apply (alike_alter (setGenerator Finished)); auto).
      destruct (isCancelled ft0).
      - split; [eapply alike_invariant; eauto|reflexivity].
      - split; [|reflexivity]. eapply alike_invariant; [|exact H0].
        destruct A as (E & C & F). repeat split; assumption. }
    destruct o as [chunk| |e].
    + set (acc := accumulatedContent ft ++ chunk).
      destruct (IH (on_app (setDefinitionContent acc)
                      (on_fetches (alter (setAccumulated acc) f) m))) as [H1 H2].
      * intros i fti Hi. simpl in Hi. simpl.
        destruct (decide (f = i)) as [->|Hne].
        -- rewrite list_lookup_alter_eq, Hf in Hi. injection Hi as <-. simpl.
           split; [intros E; congruence|auto].
        -- rewrite list_lookup_alter_ne in Hi by assumption.
           destruct (Hinv i fti Hi) as [H1 H2].
           split; [exact H1|]. intros E. congruence.
      * split; [exact H1|]. rewrite H2. reflexivity.
    + apply Hfin. exact Hinv.
    + destruct (Hfin (on_app (setError (Some (messageOr (lit "An unknown error occurred") e))) m))
        as [H1 H2]; [|auto].
      eapply alike_invariant; [|exact Hinv]. repeat split; eauto.
Qed.

Lemma alike_simple m m' :
  effect m' = effect m ->
  definitionContent (app m') = definitionContent (app m) ->
  fetches m' = fetches m ->
  alike m m'.
Proof. intros E C F. repeat split; [assumption..|]. rewrite F. eauto. Qed.

Lemma updateProgressStep_definition stepId d s :
  definitionContent (updateProgressStep stepId d s) = definitionContent s.
Proof. unfold updateProgressStep. destruct (updateSteps _ _ _ _). reflexivity. Qed.

Lemma analyze_progress_alike t m : alike m (analyze_progress t m).
Proof.
  destruct t as [[e|words]|req k]; apply alike_simple; simpl;
    rewrite ?updateProgressStep_definition; reflexivity.
Qed.

Lemma worksheet_progress_alike t m : alike m (worksheet_progress t m).
Proof.
  destruct t as [[e|data]|req k]; apply alike_simple; simpl;
    rewrite ?updateProgressStep_definition; reflexivity.
Qed.

Lemma handleAnalyze_alike text m :
  alike m (handleAnalyze JSON_parse text m).
Proof.
  unfold handleAnalyze. destruct (apiKeyConfigured (app m)); simpl.
  - destruct (analyzeTextForVocabulary _ _ _) as [t w].
    eapply alike_trans; [|apply analyze_progress_alike].
    apply alike_simple; reflexivity.
  - apply alike_simple; reflexivity.
Qed.

Lemma handleGenerateWorksheet_alike m :
  alike m (handleGenerateWorksheet JSON_parse typeErrorMessage m).
Proof.
  unfold handleGenerateWorksheet. destruct (length _ =? 0); [apply alike_refl|].
  destruct (generateWorksheetData _ _ _ _ _) as [t w].
  eapply alike_trans; [|apply worksheet_progress_alike].
  apply alike_simple; reflexivity.
Qed.

(** A new run starts with every earlier one cancelled. *)
Lemma fetchDefinition_invariant m :
  (forall f ft, fetches m !! f = Some ft -> isCancelled ft = true) ->
  fetch_invariant (fetchDefinition' m)
  /\ effect (fetchDefinition' m) = Some (length (fetches m)).
Proof.
  intros Hall. unfold fetchDefinition.
  destruct (generateAsciiArt _ _ _ _) as [artTask w1]. simpl.
  match goal with |- context [art_progress ?f ?t ?x] => set (mb := x) end.
  assert (Hb : fetch_invariant mb).
  { intros i fti Hi. unfold mb in *. simpl in *.
    destruct (decide (i < length (fetches m))) as [Hlt|Hge].
    - rewrite lookup_app_l in Hi by assumption.
      split; [intros _; eauto|]. intros E. injection E as E. lia.
    - rewrite lookup_app_r in Hi by lia.
      destruct (i - length (fetches m)) as [|n] eqn:Hn; [|destruct n; discriminate].
      injection Hi as <-. simpl.
      split; [|auto]. intros E. exfalso. apply E. f_equal. lia. }
  destruct (art_progress_alike (length (fetches m)) artTask mb) as [Hc _].
  set (mc := art_progress (length (fetches m)) artTask mb) in *.
  destruct (streamDefinition _ (world mc)) as [[[outs g] reqs] w2].
  match goal with |- context [consume ?f ?o ?x] => set (md := x) end.
  assert (Hd : alike mc md).
  { unfold md. eapply alike_trans.
    - apply (alike_alter (setGenerator g) (length (fetches m)) mc). auto.
    - apply alike_simple; reflexivity. }
  destruct (consume_invariant (length (fetches m)) outs md) as [H1 H2].
  - eapply alike_invariant; [exact Hd|]. eapply alike_invariant; [exact Hc|exact Hb].
  - split; [exact H1|]. rewrite H2.
    destruct Hd as (-> & _). destruct Hc as (-> & _). reflexivity.
Qed.

Lemma useEffect_invariant m : fetch_invariant m -> fetch_invariant (useEffect' m).
Proof.
  intros Hinv. unfold useEffect. case_bool_decide; [exact Hinv|].
  match goal with |- context [on_effect _ (on_deps _ ?x)] => set (m0 := x) end.
  assert (Hall : forall f ft, fetches m0 !! f = Some ft -> isCancelled ft = true).
  { intros f ft Hf. unfold m0 in Hf. destruct (effect m) as [a|] eqn:He.
    - simpl in Hf. destruct (decide (a = f)) as [->|Hne].
      + rewrite list_lookup_alter_eq in Hf.
        destruct (fetches m !! f); [|discriminate]. injection Hf as <-. reflexivity.
      + rewrite list_lookup_alter_ne in Hf by assumption.
        apply (Hinv f ft Hf). congruence.
    - apply (Hinv f ft Hf). congruence. }
  match goal with |- fetch_invariant (if ?c then ?a else ?b) => destruct c end.
  - intros f ft Hf. simpl in Hf. split; [intros _; eauto|]. simpl. discriminate.
  - apply fetchDefinition_invariant. exact Hall.
Qed.

Lemma fire_invariant a m :
  fetch_invariant m -> fetch_invariant (fire JSON_parse typeErrorMessage a m).
Proof.
  intros Hinv. destruct a; simpl.
  - eapply alike_invariant; [|exact Hinv].
    apply alike_simple; simpl; rewrite ?updateProgressStep_definition; reflexivity.
  - eapply alike_invariant; [|exact Hinv]. apply alike_simple; reflexivity.
  - apply useEffect_invariant. eapply alike_invariant; [|exact Hinv].
    apply alike_simple; reflexivity.
Qed.

(** The invariant holds initially and every event keeps it. *)
Lemma step_invariant ev m : fetch_invariant m -> fetch_invariant (step' ev m).
Proof.
  intros Hinv. destruct ev as [text| |word| |word| |key|i r|f r|f sev|ms]; simpl.
  - match goal with |- fetch_invariant (if ?c then _ else _) => destruct c end;
      [|exact Hinv].
    eapply alike_invariant; [apply handleAnalyze_alike|exact Hinv].
  - match goal with |- fetch_invariant (if ?c then _ else _) => destruct c end;
      [|exact Hinv].
    eapply alike_invariant; [apply handleGenerateWorksheet_alike|exact Hinv].
  - match goal with |- fetch_invariant (if ?c then _ else _) => destruct c end;
      [|exact Hinv].
    apply useEffect_invariant. eapply alike_invariant; [|exact Hinv].
    apply alike_simple; [reflexivity| |reflexivity].
    simpl. unfold handleWordClick. destruct (negb _); reflexivity.
  - match goal with |- fetch_invariant (if ?c then _ else _) => destruct c end;
      [|exact Hinv].
    apply useEffect_invariant. eapply alike_invariant; [|exact Hinv].
    apply alike_simple; reflexivity.
  - match goal with |- fetch_invariant (if ?c then _ else _) => destruct c end;
      [|exact Hinv].
    eapply alike_invariant; [|exact Hinv]. apply alike_simple; reflexivity.
  - match goal with |- fetch_invariant (if ?c then _ else _) => destruct c end;
      [|exact Hinv].
    eapply alike_invariant; [|exact Hinv]. apply alike_simple; reflexivity.
  - eapply alike_invariant; [|exact Hinv]. apply alike_simple; [reflexivity| |reflexivity].
    simpl. destruct key as [k|]; [destruct (Js.truthy k)|]; reflexivity.
  - destruct (pending m !! i) as [[k|k]|]; [| |exact Hinv].
    + eapply alike_invariant; [|exact Hinv].
      eapply alike_trans; [|apply analyze_progress_alike]. apply alike_simple; reflexivity.
    + eapply alike_invariant; [|exact Hinv].
      eapply alike_trans; [|apply worksheet_progress_alike]. apply alike_simple; reflexivity.
  - destruct (fetches m !! f) as [ft|]; [|exact Hinv].
    destruct (artPending ft) as [k|]; [|exact Hinv].
    eapply alike_invariant; [apply art_progress_alike|exact Hinv].
  - destruct (fetches m !! f) as [ft|]; [|exact Hinv].
    destruct (stream_resume (generator ft) sev) as [outs g].
    apply consume_invariant. eapply alike_invariant; [|exact Hinv].
    apply (alike_alter (setGenerator g)). auto.
  - apply (elapse_preserves JSON_parse typeErrorMessage fetch_invariant);
      [ intros g m0 H0; eapply alike_invariant; [|exact H0]; apply alike_simple; reflexivity
      | intros g m0 H0; eapply alike_invariant; [|exact H0]; apply alike_simple; reflexivity
      | intros a m0 H0; apply fire_invariant; exact H0
      | exact Hinv ].
Qed.

Lemma run_events_invariant evs : forall m,
  fetch_invariant m -> fetch_invariant (run_events' evs m).
Proof.
  induction evs as [|ev evs IH]; intros m Hinv; simpl; [exact Hinv|].
  apply IH. apply step_invariant. exact Hinv.
Qed.

Lemma reachable_invariant m :
  reachable JSON_parse typeErrorMessage m -> fetch_invariant m.
Proof.
  intros (welcome & w & evs & ->). apply run_events_invariant.
  intros f ft Hf. simpl in Hf. rewrite lookup_nil in Hf. discriminate.
Qed.

Lemma fetch_finally_other f b m :
  f <> b -> fetches (fetch_finally f m) !! b = fetches m !! b.
Proof.
  intros Hne. unfold fetch_finally. destruct (fetches m !! f) as [ft|]; [|reflexivity].
  destruct (isCancelled ft); simpl; apply list_lookup_alter_ne; exact Hne.
Qed.

Lemma consume_other f b outs : forall m,
  f <> b -> fetches (consume f outs m) !! b = fetches m !! b.
Proof.
  induction outs as [|o rest IH]; intros m Hne; simpl; [reflexivity|].
  destruct (fetches m !! f) as [ft|]; [|reflexivity].
  destruct o as [chunk| |e].
  - destruct (isCancelled ft); [apply fetch_finally_other; exact Hne|].
    rewrite IH by exact Hne. simpl. apply list_lookup_alter_ne. exact Hne.
  - apply fetch_finally_other. exact Hne.
  - rewrite fetch_finally_other by exact Hne. destruct (isCancelled ft); reflexivity.
Qed.

(** What one event of its own stream does to a run that is not cancelled. *)
Lemma consume_own b ft sev m :
  fetches m !! b = Some ft -> isCancelled ft = false ->
  let '(outs, g) := stream_resume (generator ft) sev in
  exists ft',
    fetches (consume b outs (on_fetches (alter (setGenerator g) b) m)) !! b = Some ft'
    /\ generator ft' = g
    /\ accumulatedContent ft' = accumulatedContent ft ++ concat (chunks_of outs).
Proof.
  intros Hf Hc.
  assert (Hfin : forall m0 ft0, fetches m0 !! b = Some ft0 ->
            exists ft', fetches (fetch_finally b m0) !! b = Some ft'
                        /\ generator ft' = Finished
                        /\ accumulatedContent ft' = accumulatedContent ft0).
  { intros m0 ft0 H0. unfold fetch_finally. rewrite H0.
    exists (setGenerator Finished ft0).
    split; [|auto]. destruct (isCancelled ft0); simpl;
      rewrite list_lookup_alter_eq, H0; reflexivity. }
  assert (Hcatch : forall topic e m0 ft0,
            fetches m0 !! b = Some ft0 -> isCancelled ft0 = false ->
            exists ft', fetches (consume b (stream_catch topic e) m0) !! b = Some ft'
                        /\ generator ft' = Finished
                        /\ accumulatedContent ft'
                           = accumulatedContent ft0 ++ concat (chunks_of (stream_catch topic e))).
  { intros topic e m0 ft0 H0 Hc0. simpl. rewrite H0, Hc0. simpl.
    rewrite list_lookup_alter_eq, H0. simpl. rewrite Hc0.
    match goal with |- context [fetch_finally b ?x] =>
      destruct (Hfin x (setAccumulated
                          (accumulatedContent ft0
                             ++ lit "Error: Could not generate content for " ++ dquote ++ topic
                             ++ dquote ++ lit ". " ++ messageOr unknown_error e) ft0))
        as (ft' & H1 & H2 & H3)
    end.
    { simpl. rewrite list_lookup_alter_eq, H0. reflexivity. }
    exists ft'. split; [exact H1|]. split; [exact H2|].
    rewrite H3. simpl. rewrite app_nil_r. reflexivity. }
  assert (Hset : forall g, fetches (on_fetches (alter (setGenerator g) b) m) !! b
                           = Some (setGenerator g ft)).
  { intros g. simpl. rewrite list_lookup_alter_eq, Hf. reflexivity. }
  assert (Hnone : forall g, exists ft',
            fetches (consume b [] (on_fetches (alter (setGenerator g) b) m)) !! b = Some ft'
            /\ generator ft' = g
            /\ accumulatedContent ft' = accumulatedContent ft ++ concat (chunks_of [])).
  { intros g. exists (setGenerator g ft). split; [apply Hset|].
    split; [reflexivity|]. simpl. rewrite app_nil_r. reflexivity. }
  destruct (generator ft) as [topic|topic|] eqn:Hg; destruct sev as [|e|[t|]| |e]; simpl;
    try (rewrite <- Hg at 1; apply Hnone); try apply Hnone.
  - apply (Hcatch topic e _ _ (Hset Finished) Hc).
  - destruct (Js.truthy t); [|apply Hnone].
    simpl. rewrite list_lookup_alter_eq, Hf. simpl. rewrite Hc.
    eexists. split; [simpl; rewrite list_lookup_alter_eq; simpl;
                     rewrite list_lookup_alter_eq, Hf; reflexivity|].
    split; [reflexivity|]. simpl. rewrite app_nil_r. reflexivity.
  - destruct (Hfin _ _ (Hset Finished)) as (ft' & H1 & H2 & H3).
    rewrite list_lookup_alter_eq, Hf. simpl.
    exists ft'. split; [exact H1|]. split; [exact H2|].
    rewrite H3. simpl. rewrite app_nil_r. reflexivity.
  - apply (Hcatch topic e _ _ (Hset Finished) Hc).
Qed.

Lemma stream_feed_app g evs1 evs2 :
  stream_feed g (evs1 ++ evs2)
  = ((stream_feed g evs1).1 ++ (stream_feed (stream_feed g evs1).2 evs2).1,
     (stream_feed (stream_feed g evs1).2 evs2).2).
Proof.
  revert g. induction evs1 as [|ev evs1 IH]; intros g; simpl.
  - destruct (stream_feed g evs2); reflexivity.
  - destruct (stream_resume g ev) as [out g1]. rewrite IH.
    destruct (stream_feed g1 evs1) as [o1 g2]. simpl.
    destruct (stream_feed g2 evs2) as [o2 g3]. simpl.
    rewrite app_assoc. reflexivity.
Qed.

(** One event from the service, seen from the registered run. *)
Lemma service_step_current m b ft ev :
  fetch_invariant m -> effect m = Some b -> fetches m !! b = Some ft ->
  from_service ev ->
  effect (step' ev m) = Some b
  /\ exists ft', fetches (step' ev m) !! b = Some ft'
     /\ generator ft' = (stream_feed (generator ft) (stream_of b [ev])).2
     /\ accumulatedContent ft'
        = accumulatedContent ft
          ++ concat (chunks_of (stream_feed (generator ft) (stream_of b [ev])).1).
Proof.
  intros Hinv He Hf Hs.
  assert (Hc : isCancelled ft = false) by (apply (Hinv b ft Hf); exact He).
  assert (Hsame : exists ft', Some ft = Some ft'
            /\ generator ft' = (stream_feed (generator ft) []).2
            /\ accumulatedContent ft'
               = accumulatedContent ft
                 ++ concat (chunks_of (stream_feed (generator ft) []).1)).
  { exists ft. simpl. rewrite app_nil_r. auto. }
  destruct ev as [text| |word| |word| |key|i r|f r|f sev|ms]; simpl in Hs; try contradiction.
  - (* a request of a handler settles *)
    simpl. destruct (pending m !! i) as [[k|k]|].
    + destruct (analyze_progress_alike (k r) (on_pending (delete i) m)) as (E & _ & _).
      split; [rewrite E; exact He|].
      replace (fetches (analyze_progress (k r) (on_pending (delete i) m))) with (fetches m)
        by (destruct (k r) as [[e|ws]|req k']; reflexivity).
      rewrite Hf. exact Hsame.
    + destruct (worksheet_progress_alike (k r) (on_pending (delete i) m)) as (E & _ & _).
      split; [rewrite E; exact He|].
      replace (fetches (worksheet_progress (k r) (on_pending (delete i) m))) with (fetches m)
        by (destruct (k r) as [[e|ws]|req k']; reflexivity).
      rewrite Hf. exact Hsame.
    + split; [exact He|]. rewrite Hf. exact Hsame.
  - (* an art request settles *)
    simpl. destruct (fetches m !! f) as [ftf|] eqn:Hff;
      [|split; [exact He|rewrite Hf; exact Hsame]].
    destruct (artPending ftf) as [k|]; [|split; [exact He|rewrite Hf; exact Hsame]].
    destruct (art_progress_alike f (k r) m) as [(E & _ & _) _].
    split; [rewrite E; exact He|].
    assert (Hfs : exists g, fetches (art_progress f (k r) m) = alter (setArtPending g) f (fetches m)).
    { destruct (k r) as [res|req k']; simpl.
      - exists None. unfold art_settled. simpl.
        destruct (alter _ f (fetches m) !! f) as [x|]; [destruct (isCancelled x)|]; reflexivity.
      - eexists. reflexivity. }
    destruct Hfs as [g ->].
    destruct (decide (f = b)) as [->|Hne].
    + rewrite list_lookup_alter_eq, Hf. simpl.
      exists (setArtPending g ft). simpl. rewrite app_nil_r. auto.
    + rewrite list_lookup_alter_ne by exact Hne. rewrite Hf. exact Hsame.
  - (* a stream moves on *)
    simpl. destruct (fetches m !! f) as [ftf|] eqn:Hff;
      [|split; [exact He|rewrite Hf; simpl; case_decide; [congruence|exact Hsame]]].
    destruct (stream_resume (generator ftf) sev) as [outs g] eqn:Hr.
    assert (Hm0 : fetch_invariant (on_fetches (alter (setGenerator g) f) m)).
    { eapply alike_invariant; [|exact Hinv]. apply (alike_alter (setGenerator g)). auto. }
    destruct (consume_invariant f outs _ Hm0) as [_ E].
    split; [rewrite E; exact He|].
    case_decide as Hfb.
    + subst f. assert (ftf = ft) by congruence. subst ftf.
      pose proof (consume_own b ft sev m Hf Hc) as Hown. rewrite Hr in Hown.
      destruct Hown as (ft' & H1 & H2 & H3). exists ft'. split; [exact H1|].
      simpl. rewrite Hr. simpl. rewrite app_nil_r. auto.
    + rewrite consume_other by exact Hfb. simpl.
      rewrite list_lookup_alter_ne by exact Hfb. rewrite Hf. exact Hsame.
Qed.

Lemma from_service_effect ev m :
  fetch_invariant m -> from_service ev -> effect (step' ev m) = effect m.
Proof.
  intros Hinv Hs.
  destruct ev as [text| |word| |word| |key|i r|f r|f sev|ms]; simpl in Hs; try contradiction;
    simpl.
  - destruct (pending m !! i) as [[k|k]|]; [| |reflexivity].
    + apply (analyze_progress_alike (k r) (on_pending (delete i) m)).
    + apply (worksheet_progress_alike (k r) (on_pending (delete i) m)).
  - destruct (fetches m !! f) as [ft|]; [|reflexivity].
    destruct (artPending ft) as [k|]; [|reflexivity].
    apply (art_progress_alike f (k r) m).
  - destruct (fetches m !! f) as [ft|]; [|reflexivity].
    destruct (stream_resume (generator ft) sev) as [outs g].
    assert (Hm0 : fetch_invariant (on_fetches (alter (setGenerator g) f) m)).
    { eapply alike_invariant; [|exact Hinv]. apply (alike_alter (setGenerator g)). auto. }
    destruct (consume_invariant f outs _ Hm0) as [_ E]. rewrite E. reflexivity.
Qed.

Lemma chunks_of_app o1 o2 : chunks_of (o1 ++ o2) = chunks_of o1 ++ chunks_of o2.
Proof. unfold chunks_of. apply omap_app. Qed.

Lemma stream_of_cons b ev evs : stream_of b (ev :: evs) = stream_of b [ev] ++ stream_of b evs.
Proof. unfold stream_of. simpl. destruct ev; try reflexivity. case_decide; reflexivity. Qed.

(** The definition shown is what the registered run had accumulated,
    followed by the chunks its own stream yields from then on. *)
Lemma content_after_service evs : forall m b ft,
  fetch_invariant m -> effect m = Some b -> fetches m !! b = Some ft ->
  Forall from_service evs ->
  definitionContent (app (run_events' evs m))
  = accumulatedContent ft
    ++ concat (chunks_of (stream_feed (generator ft) (stream_of b evs)).1).
Proof.
  induction evs as [|ev evs IH]; intros m b ft Hinv He Hf Hs.
  - simpl. rewrite app_nil_r. apply (Hinv b ft Hf). exact He.
  - apply Forall_cons in Hs as [Hev Hs].
    destruct (service_step_current m b ft ev Hinv He Hf Hev) as (E & ft' & Hf' & Hg & Ha).
    change (run_events' (ev :: evs) m) with (run_events' evs (step' ev m)).
    rewrite (IH (step' ev m) b ft' (step_invariant ev m Hinv) E Hf' Hs).
    rewrite (stream_of_cons b ev evs), stream_feed_app.
    cbn [fst snd].
    rewrite chunks_of_app, concat_app, Ha, Hg, app_assoc. reflexivity.
Qed.

Lemma fetch_finally_length f m :
  length (fetches (fetch_finally f m)) = length (fetches m).
Proof.
  unfold fetch_finally. destruct (fetches m !! f) as [ft|]; [|reflexivity].
  destruct (isCancelled ft); simpl; apply length_alter.
Qed.

Lemma consume_length f outs : forall m,
  length (fetches (consume f outs m)) = length (fetches m).
Proof.
  induction outs as [|o rest IH]; intros m; simpl; [reflexivity|].
  destruct (fetches m !! f) as [ft|]; [|reflexivity].
  destruct o as [chunk| |e].
  - destruct (isCancelled ft); [apply fetch_finally_length|].
    rewrite IH. simpl. apply length_alter.
  - apply fetch_finally_length.
  - rewrite fetch_finally_length. destruct (isCancelled ft); reflexivity.
Qed.

Lemma art_progress_length f t m :
  length (fetches (art_progress f t m)) = length (fetches m).
Proof.
  destruct t as [r|req k]; simpl; [|apply length_alter].
  unfold art_settled. simpl.
  destruct (alter _ f (fetches m) !! f) as [x|]; [destruct (isCancelled x)|];
    simpl; apply length_alter.
Qed.

Lemma fetchDefinition_length m :
  length (fetches (fetchDefinition' m)) = S (length (fetches m)).
Proof.
  unfold fetchDefinition.
  destruct (generateAsciiArt _ _ _ _) as [artTask w1]. simpl.
  match goal with |- context [art_progress ?f ?t ?x] => set (mb := x) end.
  destruct (streamDefinition _ _) as [[[outs g] reqs] w2].
  rewrite consume_length. simpl. rewrite length_alter, art_progress_length.
  unfold mb. simpl. rewrite length_app. simpl. lia.
Qed.

(** When a dependency changed and a definition is to be shown, a new run
    is registered and every run there was before is cancelled from then on:
    the runs the theorem below calls superseded. *)
Lemma new_fetch_supersedes m :
  fetch_invariant m ->
  (view (app m), definitionTopic (app m)) <> deps m ->
  view (app m) = definition ->
  definitionTopic (app m) <> [] ->
  effect (useEffect' m) = Some (length (fetches m))
  /\ length (fetches (useEffect' m)) = S (length (fetches m))
  /\ forall a, a < length (fetches m) ->
       isCancelled <$> fetches (useEffect' m) !! a = Some true.
Proof.
  intros Hinv Hd Hv Ht.
  pose proof (useEffect_invariant m Hinv) as Hinv'.
  assert (He : effect (useEffect' m) = Some (length (fetches m))
               /\ length (fetches (useEffect' m)) = S (length (fetches m))).
  { unfold useEffect in *. rewrite bool_decide_eq_false_2 by exact Hd.
    match goal with |- context [on_effect _ (on_deps _ ?x)] => set (m0 := x) end.
    assert (Hlen : length (fetches m0) = length (fetches m)).
    { unfold m0. destruct (effect m); simpl; [apply length_alter|reflexivity]. }
    assert (Hv0 : view (app m0) = definition /\ definitionTopic (app m0) = definitionTopic (app m)).
    { unfold m0. destruct (effect m); simpl; auto. }
    destruct Hv0 as [Hv0 Ht0]. simpl. rewrite Hv0, Ht0.
    rewrite bool_decide_eq_true_2 by reflexivity.
    assert (Htr : Js.truthy (definitionTopic (app m)) = true)
      by (destruct (definitionTopic (app m)); [congruence|reflexivity]).
    rewrite Htr. simpl.
    match goal with |- context [fetchDefinition' ?x] => set (m1 := x) end.
    assert (Hall : forall f ft, fetches m1 !! f = Some ft -> isCancelled ft = true).
    { intros f ft Hf. unfold m1, m0 in Hf. simpl in Hf.
      destruct (effect m) as [a|] eqn:Ea; simpl in Hf.
      - destruct (decide (a = f)) as [->|Hne].
        + rewrite list_lookup_alter_eq in Hf.
          destruct (fetches m !! f); [|discriminate]. injection Hf as <-. reflexivity.
        + rewrite list_lookup_alter_ne in Hf by assumption.
          apply (Hinv f ft Hf). congruence.
      - apply (Hinv f ft Hf). congruence. }
    destruct (fetchDefinition_invariant m1 Hall) as [_ E].
    rewrite E, fetchDefinition_length. unfold m1. simpl. rewrite Hlen. auto. }
  destruct He as [He Hl]. split; [exact He|]. split; [exact Hl|].
  intros a Ha.
  destruct (lookup_lt_is_Some_2 (fetches (useEffect' m)) a) as [fa Hfa]; [lia|].
  rewrite Hfa. simpl. f_equal. apply (Hinv' a fa Hfa). rewrite He.
  intros E. injection E as E. lia.
Qed.

Lemma run_service_effect evs : forall m,
  fetch_invariant m -> Forall from_service evs ->
  effect (run_events' evs m) = effect m.
Proof.
  induction evs as [|ev evs IH]; intros m Hinv Hs; [reflexivity|].
  apply Forall_cons in Hs as [Hev Hs]. simpl.
  rewrite (IH (step' ev m) (step_invariant ev m Hinv) Hs).
  apply from_service_effect; assumption.
Qed.

End DefinitionEffect.

(** The second definition alone is shown. *)
Example late_art_content :
  definitionContent
    (app (run_events JSON_parse_sample type_errors (two_fetches_trace ++ late_art)
            (initial (lit "Welcome") bare_world)))
  = lit "Great pleasures.".
Proof. vm_compute. reflexivity. Qed.

(** The case the effect provides for, beyond what the buttons allow: the
    topic changes while the first stream is still yielding.  The chunks that
    stream goes on to deliver are dropped. *)
Example superseded_stream_dropped :
  let streaming :=
    run_events JSON_parse_sample type_errors
      [ ApiKeyChange (Some (lit "AIzaSyA-0123456789abcdef"));
        ClickAnalyze (lit "Ephemeral joys.");
        Settle 0 (Responded (Some two_words_json));
        Elapse 600;
        ClickWord (lit "ephemeral");
        Stream 0 Opened;
        Stream 0 (Chunk (Some (lit "Lasting "))) ]
      (initial (lit "Welcome") bare_world) in
  let retargeted :=
    useEffect JSON_parse_sample type_errors
      (on_app (setDefinitionTopic (lit "joys")) streaming) in
  let final :=
    run_events JSON_parse_sample type_errors
      [ Stream 1 Opened;
        Stream 0 (Chunk (Some (lit "a very short time.")));
        Stream 1 (Chunk (Some (lit "Great ")));
        Stream 0 (StreamFailed (ErrorObj (lit "503")));
        Stream 1 (Chunk (Some (lit "pleasures.")));
        Stream 1 StreamEnd ]
      retargeted in
  definitionContent (app streaming) = lit "Lasting "
  /\ definitionContent (app retargeted) = []
  /\ definitionContent (app final) = lit "Great pleasures."
  /\ error (app final) = None
  /\ loadingState (app final) = idle.
Proof. vm_compute. repeat split; reflexivity. Qed.

(** ** Highlighting *)

Lemma substring_length (text : jsstring) p q :
  q <= length text -> length (substring text p q) = q - p.
Proof. intros H. unfold substring. rewrite length_take, length_drop. lia. Qed.

Lemma substring_app (text : jsstring) p q e :
  p <= q -> q <= e -> substring text p q ++ substring text q e = substring text p e.
Proof.
  intros H1 H2. unfold substring.
  replace (drop q text) with (drop (q - p) (drop p text))
    by (rewrite drop_drop; f_equal; lia).
  rewrite take_take_drop. f_equal. lia.
Qed.

Lemma substring_to_end (text : jsstring) p :
  substring text p (length text) = drop p text.
Proof. unfold substring. apply take_ge. rewrite length_drop. lia. Qed.

Lemma wordAt_end (text : jsstring) k : length text <= k -> wordAt text k = false.
Proof. intros H. unfold wordAt. rewrite lookup_ge_None_2 by exact H. reflexivity. Qed.

Lemma boundary_not_inside (text : jsstring) k :
  boundaryAt text k = true -> ~ insideWord text k.
Proof.
  intros Hb (k' & -> & H1 & H2). unfold boundaryAt in Hb. rewrite H1, H2 in Hb. discriminate.
Qed.

Lemma boundary_in_range (text : jsstring) k :
  boundaryAt text k = true -> k <= length text.
Proof.
  intros Hb. destruct (Nat.le_gt_cases k (length text)) as [H|H]; [exact H|].
  unfold boundaryAt in Hb. destruct k as [|k']; [lia|].
  rewrite !wordAt_end in Hb by lia. discriminate.
Qed.

Lemma start_not_inside (text : jsstring) : ~ insideWord text 0.
Proof. intros (k' & H & _). discriminate. Qed.

Lemma end_not_inside (text : jsstring) : ~ insideWord text (length text).
Proof.
  intros (k' & _ & _ & H). rewrite wordAt_end in H by lia. discriminate.
Qed.

Section Highlighting.

Variable toLowerCase : jsstring -> jsstring.
Variable Canonicalize : N -> N.

Local Abbreviation matches := (matchesLiteral Canonicalize).
Local Abbreviation exec := (execAt Canonicalize).
Local Abbreviation loop := (split_loop Canonicalize).
Local Abbreviation occurs := (occursAt Canonicalize).

Lemma matches_length w rest : matches w rest = true -> length w <= length rest.
Proof.
  revert rest. induction w as [|a w IH]; intros [|b rest] H; simpl in *;
    try lia; try discriminate.
  apply andb_true_iff in H as [_ H]. apply IH in H. lia.
Qed.

Lemma exec_occurs words text q e :
  exec words text q = Some e -> occurs words text q e /\ q <= e <= length text.
Proof.
  unfold execAt. destruct (boundaryAt text q) eqn:Hb; [|discriminate].
  destruct (find _ words) as [w|] eqn:Hf; [|discriminate].
  simpl. intros [= <-].
  apply find_some in Hf as [Hin Hw]. apply andb_true_iff in Hw as [Hm He].
  pose proof (matches_length _ _ Hm) as Hl. rewrite length_drop in Hl.
  pose proof (boundary_in_range _ _ Hb) as Hr.
  split; [|lia]. exists w. rewrite <- list_elem_of_In in Hin. auto.
Qed.

Lemma occurs_exec words text a b :
  occurs words text a b -> exists e, exec words text a = Some e.
Proof.
  intros (w & Hin & -> & Ha & Hm & Hb). unfold execAt. rewrite Ha.
  destruct (find _ words) as [w'|] eqn:Hf; [eexists; reflexivity|].
  exfalso. apply list_elem_of_In in Hin.
  pose proof (find_none _ _ Hf w Hin) as Hn. simpl in Hn.
  rewrite Hm, Hb in Hn. discriminate.
Qed.

Lemma occurs_bounds words text a b :
  occurs words text a b -> a <= b <= length text.
Proof.
  intros (w & _ & -> & Ha & Hm & _). apply matches_length in Hm.
  rewrite length_drop in Hm. apply boundary_in_range in Ha. lia.
Qed.

(** The loop ends: the fuel that [split] provides is enough. *)
Lemma loop_total words text fuel : forall p q,
  p <= q -> q <= length text ->
  2 * (length text - q) + (if q =? p then 0 else 1) < fuel ->
  is_Some (loop words text fuel p q).
Proof.
  induction fuel as [|fuel IH]; intros p q Hpq Hq Hfuel; [lia|].
  simpl. destruct (Nat.ltb_spec q (length text)) as [Hlt|Hge]; [|eauto].
  destruct (exec words text q) as [e|] eqn:He.
  - apply exec_occurs in He as [_ Hqe].
    destruct (Nat.eqb_spec e p) as [->|Hne].
    + apply IH; try lia. destruct (Nat.eqb_spec (q + 1) p); destruct (Nat.eqb_spec q p); lia.
    + destruct (IH e e) as [parts Hp]; try lia.
      * rewrite Nat.eqb_refl. destruct (Nat.eqb_spec q p); lia.
      * rewrite Hp. eauto.
  - apply IH; try lia. destruct (Nat.eqb_spec (q + 1) p); destruct (Nat.eqb_spec q p); lia.
Qed.

(** The pieces are the text from [p] on, cut up. *)
Lemma loop_concat words text fuel : forall p q parts,
  p <= q -> q <= length text ->
  loop words text fuel p q = Some parts -> concat parts = drop p text.
Proof.
  induction fuel as [|fuel IH]; intros p q parts Hpq Hq H; [discriminate|].
  simpl in H. destruct (Nat.ltb_spec q (length text)) as [Hlt|Hge].
  - destruct (exec words text q) as [e|] eqn:He.
    + apply exec_occurs in He as [_ Hqe].
      destruct (Nat.eqb_spec e p) as [->|Hne]; [apply (IH p (q + 1)); auto; lia|].
      destruct (loop words text fuel e e) as [rest|] eqn:Hr; [|discriminate].
      injection H as <-. simpl. rewrite (IH e e rest) by (auto; lia).
      rewrite app_assoc, substring_app by lia.
      rewrite <- (substring_to_end text e), substring_app by lia.
      apply substring_to_end.
    + apply (IH p (q + 1)); auto; lia.
  - injection H as <-. simpl. rewrite app_nil_r. apply substring_to_end.
Qed.

(** No piece starts or ends between two word characters. *)
Lemma loop_cuts words text (f : jsstring -> element) fuel :
  (forall x, part_of (f x) = x) ->
  forall p q parts,
  p <= q -> q <= length text -> ~ insideWord text p ->
  loop words text fuel p q = Some parts ->
  forall i o el, spans_from p (map f parts) !! i = Some (o, el) ->
  ~ insideWord text o /\ ~ insideWord text (o + length (part_of el)).
Proof.
  intros Hf. induction fuel as [|fuel IH]; intros p q parts Hpq Hq Hp H; [discriminate|].
  simpl in H. destruct (Nat.ltb_spec q (length text)) as [Hlt|Hge].
  - destruct (exec words text q) as [e|] eqn:He.
    + apply exec_occurs in He as [(w & _ & _ & Hbq & _ & Hbe) Hqe].
      destruct (Nat.eqb_spec e p) as [->|Hne]; [apply (IH p (q + 1)); auto; lia|].
      destruct (loop words text fuel e e) as [rest|] eqn:Hr; [|discriminate].
      injection H as <-. intros i o el Hi. simpl in Hi.
      rewrite !Hf, !substring_length in Hi by lia.
      replace (p + (q - p)) with q in Hi by lia.
      replace (q + (e - q)) with e in Hi by lia.
      destruct i as [|[|i]]; simpl in Hi.
      * injection Hi as <- <-. rewrite Hf, substring_length by lia.
        replace (p + (q - p)) with q by lia.
        split; [exact Hp|apply boundary_not_inside; exact Hbq].
      * injection Hi as <- <-. rewrite Hf, substring_length by lia.
        replace (q + (e - q)) with e by lia.
        split; apply boundary_not_inside; assumption.
      * apply (IH e e rest) with (i := i); auto; try lia.
        apply boundary_not_inside; exact Hbe.
    + apply (IH p (q + 1)); auto; lia.
  - injection H as <-. intros i o el Hi. simpl in Hi.
    destruct i as [|i]; [|discriminate]. injection Hi as <- <-.
    rewrite Hf, substring_length by lia.
    assert (q = length text) as -> by lia.
    replace (p + (length text - p)) with (length text) by lia.
    split; [exact Hp|apply end_not_inside].
Qed.

(** Every occurrence from [q] on is one of the pieces taken by the group. *)
Lemma loop_marks words text (f : jsstring -> element) fuel :
  (forall x, part_of (f x) = x) ->
  Forall (fun w => w <> []) words ->
  no_overlap Canonicalize words text ->
  forall p q parts,
  p <= q -> q <= length text ->
  loop words text fuel p q = Some parts ->
  forall a b, occurs words text a b -> q <= a ->
  exists i, spans_from p (map f parts) !! i = Some (a, f (substring text a b)).
Proof.
  intros Hf Hne Hno.
  assert (Hlong : forall a b, occurs words text a b -> a < b).
  { intros a b (w & Hin & -> & _). rewrite Forall_forall in Hne.
    specialize (Hne w Hin). destruct w; [congruence|simpl; lia]. }
  induction fuel as [|fuel IH]; intros p q parts Hpq Hq H a b Hocc Hqa; [discriminate|].
  pose proof (occurs_bounds _ _ _ _ Hocc) as Hab. pose proof (Hlong _ _ Hocc) as Hlt'.
  simpl in H. destruct (Nat.ltb_spec q (length text)) as [Hlt|Hge]; [|lia].
  destruct (exec words text q) as [e|] eqn:He.
  - pose proof (exec_occurs _ _ _ _ He) as [Hoq Hqe].
    pose proof (Hlong _ _ Hoq) as Hqe'.
    destruct (Nat.eqb_spec e p) as [->|Hnp]; [lia|].
    destruct (loop words text fuel e e) as [rest|] eqn:Hr; [|discriminate].
    injection H as <-.
    destruct (Hno q e a b Hoq Hocc Hqa) as [Hsame Hlater].
    destruct (Nat.eq_dec q a) as [->|Hqa'].
    + rewrite (Hsame eq_refl). exists 1. simpl.
      rewrite Hf, substring_length by lia. do 3 f_equal. lia.
    + assert (Hea : e <= a) by (apply Hlater; lia).
      destruct (IH e e rest) with (a := a) (b := b) as [i Hi]; auto; try lia.
      exists (S (S i)). simpl. rewrite !Hf, !substring_length by lia.
      replace (p + (q - p) + (e - q)) with e by lia. exact Hi.
  - destruct (Nat.eq_dec q a) as [->|Hqa'].
    + destruct (occurs_exec _ _ _ _ Hocc) as [e' He']. congruence.
    + apply (IH p (q + 1) parts) with (a := a) (b := b); auto; lia.
Qed.

End Highlighting.

Lemma spans_from_start o els i a el :
  spans_from o els !! i = Some (a, el) -> o <= a.
Proof.
  revert o i. induction els as [|x els IH]; intros o i H; [discriminate|].
  destruct i as [|i]; simpl in H; [injection H as <- _; lia|].
  apply IH in H. lia.
Qed.

(** Two children that start at the same index: the earlier one is empty. *)
Lemma spans_from_same_start o els i j a e1 e2 :
  spans_from o els !! i = Some (a, e1) ->
  spans_from o els !! j = Some (a, e2) ->
  i < j -> part_of e1 = [].
Proof.
  revert o i j. induction els as [|x els IH]; intros o i j H1 H2 Hij; [discriminate|].
  destruct j as [|j]; [lia|]. simpl in H2.
  destruct i as [|i]; simpl in H1.
  - injection H1 as <- <-. apply spans_from_start in H2.
    destruct (part_of x); [reflexivity|simpl in H2; lia].
  - apply (IH _ i j H1 H2). lia.
Qed.

Lemma spans_from_concat o els :
  forall i a el, spans_from o els !! i = Some (a, el) ->
  a + length (part_of el) <= o + length (concat (map part_of els)).
Proof.
  revert o. induction els as [|x els IH]; intros o i a el H; [discriminate|].
  simpl. rewrite length_app. destruct i as [|i]; simpl in H.
  - injection H as <- <-. lia.
  - apply IH in H. lia.
Qed.

Lemma asciiUpper_small c : (c < 128)%N -> (asciiUpper c < 128)%N.
Proof.
  intros H. unfold asciiUpper.
  destruct (N.leb_spec 97 c); destruct (N.leb_spec c 122); simpl; lia.
Qed.

Lemma isWordChar_lower_case c : (97 <= c <= 122)%N -> isWordChar c = true.
Proof.
  intros [H1 H2]. unfold isWordChar.
  apply N.leb_le in H1, H2. rewrite H1, H2. reflexivity.
Qed.

Lemma isWordChar_upper_case c : (65 <= c <= 90)%N -> isWordChar c = true.
Proof.
  intros [H1 H2]. unfold isWordChar.
  apply N.leb_le in H1, H2. rewrite H1, H2. simpl.
  rewrite orb_true_r. reflexivity.
Qed.

Lemma asciiLower_upper_case c : (65 <= c <= 90)%N -> asciiLower c = (c + 32)%N.
Proof.
  intros [H1 H2]. unfold asciiLower. apply N.leb_le in H1, H2. rewrite H1, H2. reflexivity.
Qed.

Lemma asciiLower_other c : (c < 65 \/ 90 < c)%N -> asciiLower c = c.
Proof.
  intros H. unfold asciiLower.
  destruct (N.leb_spec 65 c); destruct (N.leb_spec c 90); simpl; try reflexivity; lia.
Qed.

(** Two code units with the same upper case differ by case at most. *)
Lemma asciiUpper_cases a b :
  asciiUpper a = asciiUpper b ->
  a = b \/ ((65 <= b <= 90)%N /\ a = (b + 32)%N) \/ ((65 <= a <= 90)%N /\ b = (a + 32)%N).
Proof.
  unfold asciiUpper.
  destruct (N.leb_spec 97 a); destruct (N.leb_spec a 122);
    destruct (N.leb_spec 97 b); destruct (N.leb_spec b 122); simpl; intros Heq; lia.
Qed.

Lemma asciiUpper_lower a b :
  (a < 128)%N -> (b < 128)%N -> asciiUpper a = asciiUpper b ->
  asciiLower a = asciiLower b /\ isWordChar a = isWordChar b.
Proof.
  intros Ha Hb H. destruct (asciiUpper_cases a b H) as [->|[[Hr ->]|[Hr ->]]].
  - auto.
  - rewrite (asciiLower_upper_case b Hr), (asciiLower_other (b + 32)) by lia.
    rewrite (isWordChar_upper_case b Hr), (isWordChar_lower_case (b + 32)) by lia. auto.
  - rewrite (asciiLower_upper_case a Hr), (asciiLower_other (a + 32)) by lia.
    rewrite (isWordChar_upper_case a Hr), (isWordChar_lower_case (a + 32)) by lia. auto.
Qed.

Lemma isWordChar_small c : isWordChar c = true -> (c < 128)%N.
Proof.
  unfold isWordChar. intros H.
  destruct (N.lt_ge_cases c 128) as [Hlt|Hge]; [exact Hlt|].
  exfalso.
  assert (H1 : (c <=? 122)%N = false) by (apply N.leb_gt; lia).
  assert (H2 : (c <=? 90)%N = false) by (apply N.leb_gt; lia).
  assert (H3 : (c <=? 57)%N = false) by (apply N.leb_gt; lia).
  assert (H4 : (c =? 95)%N = false) by (apply N.eqb_neq; lia).
  rewrite H1, H2, H3, H4, !andb_false_r in H. discriminate.
Qed.

Section CaseTables.

Variable toLowerCase : jsstring -> jsstring.
Variable Canonicalize : N -> N.
Hypothesis tables : basic_latin_tables toLowerCase Canonicalize.

Lemma canonical_pair a b :
  (a < 128)%N -> Canonicalize a = Canonicalize b ->
  (b < 128)%N /\ asciiLower a = asciiLower b /\ isWordChar a = isWordChar b.
Proof.
  destruct tables as (_ & Hlow & Hhigh). intros Ha H.
  destruct (N.lt_ge_cases b 128) as [Hb|Hb].
  - split; [exact Hb|]. apply asciiUpper_lower; auto.
    rewrite <- (Hlow a Ha), <- (Hlow b Hb). exact H.
  - exfalso. pose proof (Hhigh b Hb) as H1. rewrite <- H, (Hlow a Ha) in H1.
    pose proof (asciiUpper_small a Ha). lia.
Qed.

Lemma matches_lower w : forall rest,
  basicLatin w -> matchesLiteral Canonicalize w rest = true ->
  basicLatin (take (length w) rest)
  /\ map asciiLower (take (length w) rest) = map asciiLower w.
Proof.
  induction w as [|a w IH]; intros rest Hw Hm; simpl.
  - split; [constructor|reflexivity].
  - destruct rest as [|b rest]; simpl in Hm; [discriminate|].
    apply andb_true_iff in Hm as [Hab Hm]. apply N.eqb_eq in Hab.
    apply Forall_cons in Hw as [Ha Hw].
    destruct (canonical_pair a b Ha Hab) as (Hb & Hl & _).
    destruct (IH rest Hw Hm) as [H1 H2]. simpl.
    split; [constructor; assumption|]. rewrite H2, Hl. reflexivity.
Qed.

Lemma matches_word w : forall rest i,
  Forall (fun c => isWordChar c = true) w ->
  matchesLiteral Canonicalize w rest = true ->
  i < length w ->
  exists c, rest !! i = Some c /\ isWordChar c = true.
Proof.
  induction w as [|a w IH]; intros rest i Hw Hm Hi; simpl in Hi; [lia|].
  destruct rest as [|b rest]; simpl in Hm; [discriminate|].
  apply andb_true_iff in Hm as [Hab Hm]. apply N.eqb_eq in Hab.
  apply Forall_cons in Hw as [Ha Hw].
  destruct i as [|i].
  - exists b. split; [reflexivity|].
    pose proof (isWordChar_small a Ha) as Ha'.
    destruct (canonical_pair a b Ha' Hab) as (_ & _ & <-). exact Ha.
  - apply (IH rest i Hw Hm). lia.
Qed.

(** A matched occurrence of a Basic Latin word passes the [isHighlight]
    test of the rendering. *)
Lemma occurs_isHighlight words text a b :
  Forall basicLatin words ->
  occursAt Canonicalize words text a b ->
  isHighlight toLowerCase words (substring text a b) = true.
Proof.
  intros Hw (w & Hin & -> & _ & Hm & _).
  rewrite Forall_forall in Hw. specialize (Hw w Hin).
  destruct (matches_lower w _ Hw Hm) as [Hl Hmap].
  unfold isHighlight. apply existsb_exists. exists w.
  split; [apply list_elem_of_In; exact Hin|].
  unfold streq. apply bool_decide_eq_true.
  unfold substring. replace (a + length w - a) with (length w) by lia.
  destruct tables as (Hlower & _). rewrite (Hlower w Hw), (Hlower _ Hl). symmetry. exact Hmap.
Qed.

(** An occurrence of a plain word is a stretch of word characters. *)
Lemma occurs_plain_word words text a b k :
  Forall plainWord words ->
  occursAt Canonicalize words text a b ->
  a <= k < b -> wordAt text k = true.
Proof.
  intros Hw (w & Hin & -> & _ & Hm & _) Hk.
  rewrite Forall_forall in Hw. destruct (Hw w Hin) as [_ Hword].
  destruct (matches_word w (drop a text) (k - a) Hword Hm) as (c & Hc & Hcw); [lia|].
  rewrite lookup_drop in Hc. replace (a + (k - a)) with k in Hc by lia.
  unfold wordAt. rewrite Hc. exact Hcw.
Qed.

(** Occurrences of plain words are whole runs of word characters, so two
    of them coincide or lie apart. *)
Lemma plain_words_no_overlap words text :
  Forall plainWord words -> no_overlap Canonicalize words text.
Proof.
  intros Hw a b a' b' H1 H2 Hle.
  assert (Hlong : forall x y, occursAt Canonicalize words text x y -> x < y).
  { intros x y (w & Hin & -> & _). rewrite Forall_forall in Hw.
    destruct (Hw w Hin) as [Hne _]. destruct w; [congruence|simpl; lia]. }
  pose proof (Hlong _ _ H1) as L1. pose proof (Hlong _ _ H2) as L2.
  assert (Hcut : forall k, 0 < k -> wordAt text (k - 1) = true -> wordAt text k = true ->
                           boundaryAt text k = false).
  { intros k Hk Hp Hn. unfold boundaryAt. destruct k as [|k']; [lia|].
    replace (S k' - 1) with k' in Hp by lia. rewrite Hp, Hn. reflexivity. }
  assert (Ba : boundaryAt text a' = true) by (destruct H2 as (w & _ & _ & B & _); exact B).
  assert (Bb : boundaryAt text b = true) by (destruct H1 as (w & _ & _ & _ & _ & B); exact B).
  assert (Bb' : boundaryAt text b' = true) by (destruct H2 as (w & _ & _ & _ & _ & B); exact B).
  split.
  - intros <-. destruct (Nat.lt_trichotomy b b') as [Hlt|[Heq|Hgt]]; [|exact Heq|].
    + rewrite (Hcut b) in Bb; [discriminate|lia| |].
      * apply (occurs_plain_word words text a b); auto; lia.
      * apply (occurs_plain_word words text a b'); auto; lia.
    + rewrite (Hcut b') in Bb'; [discriminate|lia| |].
      * apply (occurs_plain_word words text a b'); auto; lia.
      * apply (occurs_plain_word words text a b); auto; lia.
  - intros Hlt. destruct (Nat.le_gt_cases b a') as [H|H]; [exact H|].
    rewrite (Hcut a') in Ba; [discriminate|lia| |].
    + apply (occurs_plain_word words text a b); auto; lia.
    + apply (occurs_plain_word words text a' b'); auto; lia.
Qed.

End CaseTables.

(** The rendering always exists, for any tables and any input. *)
Lemma AnalyzedContent_total toLowerCase Canonicalize text words :
  is_Some (AnalyzedContent toLowerCase Canonicalize text words).
Proof.
  unfold AnalyzedContent. destruct (length words =? 0); [eauto|].
  unfold split. destruct text as [|c text]; [eauto|].
  destruct (loop_total Canonicalize words (c :: text) (2 * length (c :: text) + 1) 0 0)
    as [parts Hp]; [lia|lia|simpl; lia|].
  rewrite Hp. eauto.
Qed.

(** Where the pattern does what is meant: for non-empty Basic Latin
    highlight words whose occurrences between the boundaries of the pattern in the text do not overlap one another, the
    rendering reproduces the text, every such occurrence is one button of
    it and the only child starting there that is not empty, and no child
    starts or ends between two word characters. *)
Theorem AnalyzedContent_marks toLowerCase Canonicalize text words :
  basic_latin_tables toLowerCase Canonicalize ->
  Forall (fun w => w <> []) words ->
  Forall basicLatin words ->
  no_overlap Canonicalize words text ->
  exists els,
    AnalyzedContent toLowerCase Canonicalize text words = Some els
    /\ concat (map part_of els) = text
    /\ (forall a b, occursAt Canonicalize words text a b ->
          exists i, spans els !! i = Some (a, Button (substring text a b))
                    /\ forall j el, spans els !! j = Some (a, el) ->
                                    part_of el <> [] -> j = i)
    /\ (forall i o el, spans els !! i = Some (o, el) ->
          ~ insideWord text o /\ ~ insideWord text (o + length (part_of el))).
Proof.
  intros Htab Hne Hlat Hno.
  set (f := fun part => if isHighlight toLowerCase words part then Button part
                        else Fragment part).
  assert (Hf : forall x, part_of (f x) = x) by (intros x; unfold f; destruct (isHighlight _ _ _); reflexivity).
  assert (Hlong : forall a b, occursAt Canonicalize words text a b -> a < b <= length text).
  { intros a b Ho. pose proof (occurs_bounds _ _ _ _ _ Ho).
    destruct Ho as (w & Hin & -> & _). rewrite Forall_forall in Hne.
    specialize (Hne w Hin). destruct w; [congruence|simpl in *; lia]. }
  assert (Hfinish : forall parts,
            concat parts = text ->
            (forall a b, occursAt Canonicalize words text a b ->
               exists i, spans_from 0 (map f parts) !! i = Some (a, f (substring text a b))) ->
            (forall i o el, spans_from 0 (map f parts) !! i = Some (o, el) ->
               ~ insideWord text o /\ ~ insideWord text (o + length (part_of el))) ->
            concat (map part_of (map f parts)) = text
            /\ (forall a b, occursAt Canonicalize words text a b ->
                  exists i, spans (map f parts) !! i = Some (a, Button (substring text a b))
                            /\ forall j el, spans (map f parts) !! j = Some (a, el) ->
                                            part_of el <> [] -> j = i)
            /\ (forall i o el, spans (map f parts) !! i = Some (o, el) ->
                  ~ insideWord text o /\ ~ insideWord text (o + length (part_of el)))).
  { intros parts Hc Hm Hg. split; [|split; [|exact Hg]].
    - rewrite <- Hc. f_equal. rewrite map_map. rewrite <- (map_id parts) at 2.
      apply map_ext. exact Hf.
    - intros a b Ho. destruct (Hm a b Ho) as [i Hi]. exists i.
      assert (Hb : f (substring text a b) = Button (substring text a b)).
      { unfold f. rewrite (occurs_isHighlight toLowerCase Canonicalize Htab words text a b Hlat Ho).
        reflexivity. }
      rewrite Hb in Hi. split; [exact Hi|].
      intros j el Hj Hnon.
      destruct (Nat.lt_trichotomy j i) as [Hlt|[Heq|Hgt]]; [|exact Heq|]; exfalso.
      + apply Hnon. apply (spans_from_same_start 0 _ j i a _ _ Hj Hi Hlt).
      + pose proof (spans_from_same_start 0 _ i j a _ _ Hi Hj Hgt) as He. simpl in He.
        apply (f_equal (@length N)) in He. rewrite substring_length in He;
          destruct (Hlong a b Ho); simpl in He; lia. }
  unfold AnalyzedContent.
  destruct words as [|w0 ws].
  - (* no highlight word: the text as it is *)
    exists [Fragment text]. split; [reflexivity|]. simpl. rewrite app_nil_r.
    split; [reflexivity|]. split.
    + intros a b (w & Hin & _). apply elem_of_nil in Hin. contradiction.
    + intros i o el Hi. destruct i as [|i]; [|discriminate]. injection Hi as <- <-.
      simpl. split; [apply start_not_inside|apply end_not_inside].
  - change (length (w0 :: ws) =? 0) with false. cbv iota.
    unfold split. destruct text as [|c text'] eqn:Htext.
    + (* the empty text *)
      assert (Hnone : forall a b, ~ occursAt Canonicalize (w0 :: ws) [] a b).
      { intros a b Ho. destruct (Hlong a b Ho). simpl in *. lia. }
      assert (He : execAt Canonicalize (w0 :: ws) [] 0 = None) by reflexivity.
      rewrite He. exists (map f [[]]). split; [reflexivity|].
      apply Hfinish.
      * reflexivity.
      * intros a b Ho. destruct (Hnone a b Ho).
      * intros i o el Hi. destruct i as [|i]; [|discriminate].
        injection Hi as <- <-. rewrite Hf. simpl.
        split; apply start_not_inside.
    + rewrite <- Htext in *.
      assert (Hsize : 0 < length text) by (rewrite Htext; simpl; lia).
      destruct (loop_total Canonicalize (w0 :: ws) text (2 * length text + 1) 0 0)
        as [parts Hp]; [lia|lia|simpl; lia|].
      rewrite Hp. exists (map f parts). split; [reflexivity|].
      apply Hfinish.
      * rewrite (loop_concat Canonicalize _ _ _ 0 0 parts (Nat.le_refl 0) (Nat.le_0_l _) Hp).
        reflexivity.
      * intros a b Ho.
        apply (loop_marks Canonicalize (w0 :: ws) text f _ Hf Hne Hno 0 0 parts
                 (Nat.le_refl 0) (Nat.le_0_l _) Hp a b Ho (Nat.le_0_l _)).
      * apply (loop_cuts Canonicalize (w0 :: ws) text f _ Hf 0 0 parts
                 (Nat.le_refl 0) (Nat.le_0_l _) (start_not_inside text) Hp).
Qed.

Lemma sample_tables : basic_latin_tables toLowerCase_sample Canonicalize_sample.
Proof.
  split; [reflexivity|]. split; intros c Hc; unfold Canonicalize_sample;
    destruct (N.ltb_spec c 128); try reflexivity; lia.
Qed.

Example AnalyzedContent_sentence :
  AnalyzedContent toLowerCase_sample Canonicalize_sample
    (lit "The cat sat on a catalog.") [lit "cat"; lit "SAT"]
  = Some [ Fragment (lit "The "); Button (lit "cat"); Fragment (lit " ");
           Button (lit "sat"); Fragment (lit " on a catalog.") ].
Proof. vm_compute. reflexivity. Qed.

(** Alternatives shadow one another: [self] is listed before [self-aware], the pattern
    settles for the shorter alternative, and the occurrence of the longer
    highlight word, word-bounded as it is, is no button of the rendering. *)
Lemma AnalyzedContent_shadowed_word :
  AnalyzedContent toLowerCase_sample Canonicalize_sample
    (lit "self-aware") [lit "self"; lit "self-aware"]
  = Some [Fragment []; Button (lit "self"); Fragment (lit "-aware")]
  /\ occursAt Canonicalize_sample [lit "self"; lit "self-aware"] (lit "self-aware") 0 10.
Proof.
  split; [vm_compute; reflexivity|].
  exists (lit "self-aware"). split; [apply list_elem_of_In; right; left; reflexivity|].
  repeat split; vm_compute; reflexivity.
Qed.

Lemma AnalyzedContent_marks_witness :
  exists els,
    AnalyzedContent toLowerCase_sample Canonicalize_sample
      (lit "The cat sat on a catalog.") [lit "cat"; lit "SAT"] = Some els
    /\ concat (map part_of els) = lit "The cat sat on a catalog."
    /\ (forall a b,
          occursAt Canonicalize_sample [lit "cat"; lit "SAT"]
            (lit "The cat sat on a catalog.") a b ->
          exists i, spans els !! i
                    = Some (a, Button (substring (lit "The cat sat on a catalog.") a b))
                    /\ forall j el, spans els !! j = Some (a, el) ->
                                    part_of el <> [] -> j = i)
    /\ (forall i o el, spans els !! i = Some (o, el) ->
          ~ insideWord (lit "The cat sat on a catalog.") o
          /\ ~ insideWord (lit "The cat sat on a catalog.") (o + length (part_of el))).
Proof.
  apply AnalyzedContent_marks.
  - exact sample_tables.
  - repeat constructor; discriminate.
  - repeat constructor.
  - apply (plain_words_no_overlap toLowerCase_sample Canonicalize_sample sample_tables).
    repeat constructor; discriminate.
Defined.

(** ** Beside accented letters *)

Lemma find_agree {A} (p p' : A -> bool) (l : list A) :
  (forall x, x ∈ l -> p x = p' x) -> find p l = find p' l.
Proof.
  induction l as [|x l IH]; intros H; simpl; [reflexivity|].
  rewrite <- (H x) by (left). destruct (p x); [reflexivity|].
  apply IH. intros y Hy. apply H. right. exact Hy.
Qed.

Lemma matches_agree (C C' : N -> N) (w : jsstring) : forall rest,
  (forall a b, a ∈ w -> b ∈ rest -> (C a =? C b)%N = (C' a =? C' b)%N) ->
  matchesLiteral C w rest = matchesLiteral C' w rest.
Proof.
  induction w as [|a w IH]; intros rest H; [destruct rest; reflexivity|].
  destruct rest as [|b rest]; [reflexivity|]. simpl.
  rewrite (H a b) by (left). rewrite IH; [reflexivity|].
  intros a' b' Ha Hb. apply H; right; assumption.
Qed.

Lemma execAt_agree (C C' : N -> N) words text q :
  agree_on C C' words text -> execAt C words text q = execAt C' words text q.
Proof.
  intros H. unfold execAt. destruct (boundaryAt text q); [|reflexivity].
  f_equal. apply find_agree. intros w Hw. f_equal.
  apply matches_agree. intros a b Ha Hb. apply (H w a b Hw Ha).
  apply (subseteq_drop q text). exact Hb.
Qed.

Lemma split_loop_agree (C C' : N -> N) words text fuel : forall p q,
  agree_on C C' words text ->
  split_loop C words text fuel p q = split_loop C' words text fuel p q.
Proof.
  induction fuel as [|fuel IH]; intros p q H; simpl; [reflexivity|].
  rewrite (execAt_agree C C' words text q H).
  destruct (q <? length text); [|reflexivity].
  destruct (execAt C' words text q) as [e|]; [|apply IH; exact H].
  destruct (e =? p); [apply IH; exact H|]. rewrite (IH e e H). reflexivity.
Qed.

Lemma split_agree (C C' : N -> N) words text :
  agree_on C C' words text -> split C words text = split C' words text.
Proof.
  intros H. unfold split. destruct text as [|c text].
  - rewrite (execAt_agree C C' words [] 0 H). reflexivity.
  - apply split_loop_agree. exact H.
Qed.

(** On Basic Latin and one more code unit, the tables of the runtime tell
    code units apart as the sample tables do. *)
Lemma tables_agree toLowerCase Canonicalize (x : N) words text :
  basic_latin_tables toLowerCase Canonicalize ->
  (128 <= x)%N ->
  Forall (Forall (fun c => (c < 128)%N \/ c = x)) words ->
  Forall (fun c => (c < 128)%N \/ c = x) text ->
  agree_on Canonicalize Canonicalize_sample words text.
Proof.
  intros (_ & Hlow & Hhigh) Hx Hw Ht w a b Hin Ha Hb.
  rewrite Forall_forall in Hw. specialize (Hw w Hin).
  rewrite Forall_forall in Hw, Ht.
  assert (Hs : forall c, (c < 128)%N \/ c = x ->
             (c < 128 /\ Canonicalize c = asciiUpper c /\ Canonicalize_sample c = asciiUpper c
              /\ asciiUpper c < 128)%N
             \/ (c = x /\ 128 <= Canonicalize c /\ Canonicalize_sample c = x)%N).
  { intros c [Hc| ->].
    - left. split; [exact Hc|]. split; [apply Hlow; exact Hc|].
      split; [|apply asciiUpper_small; exact Hc].
      unfold Canonicalize_sample. destruct (N.ltb_spec c 128); [reflexivity|lia].
    - right. split; [reflexivity|]. split; [apply Hhigh; exact Hx|].
      unfold Canonicalize_sample. destruct (N.ltb_spec x 128); [lia|reflexivity]. }
  destruct (Hs a (Hw a Ha)) as [(A1 & A2 & A3 & A4)|(A1 & A2 & A3)];
    destruct (Hs b (Ht b Hb)) as [(B1 & B2 & B3 & B4)|(B1 & B2 & B3)].
  - rewrite A2, A3, B2, B3. reflexivity.
  - rewrite A2, A3, B3.
    destruct (N.eqb_spec (asciiUpper a) (Canonicalize b)) as [E|_]; [lia|].
    destruct (N.eqb_spec (asciiUpper a) x) as [E|_]; [lia|reflexivity].
  - rewrite A3, B2, B3.
    destruct (N.eqb_spec (Canonicalize a) (asciiUpper b)) as [E|_]; [lia|].
    destruct (N.eqb_spec x (asciiUpper b)) as [E|_]; [lia|reflexivity].
  - subst a b. rewrite !N.eqb_refl. reflexivity.
Qed.

(** C7: the pattern takes letters, digits and the underscore of Basic Latin
    for word characters and every other letter for a gap.  The highlight
    word [cliché] standing between two spaces is followed by no boundary of
    the pattern, so it is not marked: the rendering is one child that holds
    the whole text.  And in [résumé] the highlight word [sum] lies between
    two such boundaries, so this stretch inside the larger word is rendered
    as a button. *)
Theorem AnalyzedContent_accented_letters toLowerCase Canonicalize :
  basic_latin_tables toLowerCase Canonicalize ->
  (exists el,
     AnalyzedContent toLowerCase Canonicalize (lit "a " ++ cliche ++ lit " here") [cliche]
     = Some [el]
     /\ part_of el = lit "a " ++ cliche ++ lit " here")
  /\ (exists pre post,
        AnalyzedContent toLowerCase Canonicalize resume [lit "sum"]
        = Some [pre; Button (lit "sum"); post]
        /\ part_of pre = lit "r" ++ [233%N]
        /\ part_of post = [233%N]).
Proof.
  intros Htab.
  assert (Hx : (128 <= 233)%N) by (intros H; discriminate H).
  split.
  - assert (Ha : agree_on Canonicalize Canonicalize_sample [cliche]
                   (lit "a " ++ cliche ++ lit " here")).
    { apply (tables_agree toLowerCase Canonicalize 233 _ _ Htab Hx).
      - repeat constructor; first [left; reflexivity|right; reflexivity].
      - repeat constructor; first [left; reflexivity|right; reflexivity]. }
    unfold AnalyzedContent. change (length [cliche] =? 0) with false. cbv iota.
    rewrite (split_agree _ _ _ _ Ha).
    replace (split Canonicalize_sample [cliche] (lit "a " ++ cliche ++ lit " here"))
      with (Some [lit "a " ++ cliche ++ lit " here"]) by (vm_compute; reflexivity).
    eexists. split; [reflexivity|].
    destruct (isHighlight toLowerCase [cliche] (lit "a " ++ cliche ++ lit " here"));
      reflexivity.
  - assert (Ha : agree_on Canonicalize Canonicalize_sample [lit "sum"] resume).
    { apply (tables_agree toLowerCase Canonicalize 233 _ _ Htab Hx).
      - repeat constructor; first [left; reflexivity|right; reflexivity].
      - repeat constructor; first [left; reflexivity|right; reflexivity]. }
    unfold AnalyzedContent. change (length [lit "sum"] =? 0) with false. cbv iota.
    rewrite (split_agree _ _ _ _ Ha).
    replace (split Canonicalize_sample [lit "sum"] resume)
      with (Some [lit "r" ++ [233%N]; lit "sum"; [233%N]]) by (vm_compute; reflexivity).
    assert (Hsum : isHighlight toLowerCase [lit "sum"] (lit "sum") = true).
    { unfold isHighlight. simpl. unfold streq. rewrite bool_decide_eq_true_2; reflexivity. }
    cbn [fmap option_fmap option_map map]. rewrite Hsum.
    eexists _, _. split; [reflexivity|].
    split;
      match goal with |- part_of (if ?c then _ else _) = _ => destruct c end; reflexivity.
Qed.

Lemma AnalyzedContent_accented_letters_witness :
  (exists el,
     AnalyzedContent toLowerCase_sample Canonicalize_sample
       (lit "a " ++ cliche ++ lit " here") [cliche]
     = Some [el]
     /\ part_of el = lit "a " ++ cliche ++ lit " here")
  /\ (exists pre post,
        AnalyzedContent toLowerCase_sample Canonicalize_sample resume [lit "sum"]
        = Some [pre; Button (lit "sum"); post]
        /\ part_of pre = lit "r" ++ [233%N]
        /\ part_of post = [233%N]).
Proof.
  apply (AnalyzedContent_accented_letters toLowerCase_sample Canonicalize_sample).
  exact sample_tables.
Defined.

(** With tables that leave the accented letter alone, as those of the
    runtime do with the lower-case one: no button in the first text, one
    between two fragments in the second; and a highlight word that ends in
    a sign is not marked before a space either. *)
Example AnalyzedContent_accented_sample :
  AnalyzedContent toLowerCase_sample Canonicalize_sample
    (lit "a " ++ cliche ++ lit " here") [cliche]
  = Some [Fragment (lit "a " ++ cliche ++ lit " here")]
  /\ AnalyzedContent toLowerCase_sample Canonicalize_sample resume [lit "sum"]
     = Some [Fragment (lit "r" ++ [233%N]); Button (lit "sum"); Fragment [233%N]]
  /\ AnalyzedContent toLowerCase_sample Canonicalize_sample
       (lit "I use C++ daily") [lit "C++"]
     = Some [Fragment (lit "I use C++ daily")].
Proof. vm_compute. repeat split; reflexivity. Qed.

(** * Further properties *)

(** ** Resolving the key *)

Lemma getCurrentApiKey_not_empty (w : World) k : getCurrentApiKey w = Some k -> k <> [].
Proof.
  unfold getCurrentApiKey. fold (savedKey w).
  assert (Hu : forall o, usable o = true -> o = Some k -> k <> []).
  { intros o Ho ->. simpl in Ho. destruct k; [discriminate|discriminate]. }
  destruct (usable (savedKey w)) eqn:E1; [apply Hu; exact E1|].
  destruct (usable (VITE_GEMINI_API_KEY w)) eqn:E2; [apply Hu; exact E2|].
  destruct (process_env_API_KEY w) as [p|]; [|discriminate].
  destruct p as [|c p]; [discriminate|].
  destruct (_ && _); [|discriminate]. intros [= <-]. discriminate.
Qed.

(** X1: the saved key wins over the environment, the Vite value over the
    Node one, the placeholder and the empty string count as no key, and a
    key that is found is never the empty string. *)
Theorem getCurrentApiKey_precedence (w : World) :
  (usable (savedKey w) = true -> getCurrentApiKey w = savedKey w)
  /\ (usable (savedKey w) = false -> usable (VITE_GEMINI_API_KEY w) = true ->
      getCurrentApiKey w = VITE_GEMINI_API_KEY w)
  /\ (usable (savedKey w) = false -> usable (VITE_GEMINI_API_KEY w) = false ->
      forall k, process_env_API_KEY w = Some k ->
      getCurrentApiKey w
      = if bool_decide (k = [] \/ k = lit "PLACEHOLDER_API_KEY") then None else Some k)
  /\ (usable (savedKey w) = false -> usable (VITE_GEMINI_API_KEY w) = false ->
      process_env_API_KEY w = None -> getCurrentApiKey w = None)
  /\ (forall k, getCurrentApiKey w = Some k -> k <> []).
Proof.
  unfold getCurrentApiKey. fold (savedKey w).
  split; [intros ->; reflexivity|].
  split; [intros -> ->; reflexivity|].
  split.
  { intros -> -> k ->. destruct k as [|c k].
    - reflexivity.
    - cbn [Js.truthy andb]. unfold streq.
      case_bool_decide as H1; case_bool_decide as H2; simpl; try reflexivity; exfalso.
      + apply H2. auto.
      + destruct H2 as [H2|H2]; [discriminate|contradiction]. }
  split; [intros -> -> ->; reflexivity|].
  fold (getCurrentApiKey w). intros k. apply getCurrentApiKey_not_empty.
Qed.

Lemma getCurrentApiKey_precedence_witness :
  getCurrentApiKey saved_world = savedKey saved_world
  /\ getCurrentApiKey vite_world = VITE_GEMINI_API_KEY vite_world
  /\ getCurrentApiKey placeholder_world
     = (if bool_decide (lit "PLACEHOLDER_API_KEY" = []
                        \/ lit "PLACEHOLDER_API_KEY" = lit "PLACEHOLDER_API_KEY")
        then None else Some (lit "PLACEHOLDER_API_KEY")).
Proof.
  assert (H1 : usable (savedKey saved_world) = true) by (vm_compute; reflexivity).
  assert (H2 : usable (savedKey vite_world) = false) by (vm_compute; reflexivity).
  assert (H3 : usable (savedKey placeholder_world) = false) by (vm_compute; reflexivity).
  split; [|split].
  - apply (proj1 (getCurrentApiKey_precedence saved_world) H1).
  - apply (proj1 (proj2 (getCurrentApiKey_precedence vite_world)) H2). reflexivity.
  - apply (proj1 (proj2 (proj2 (getCurrentApiKey_precedence placeholder_world))) H3);
      reflexivity.
Defined.

Example getCurrentApiKey_samples :
  getCurrentApiKey saved_world = Some (lit "AIzaSy-saved-0123456789")
  /\ getCurrentApiKey vite_world = Some (lit "AIzaSy-vite-0123456789")
  /\ getCurrentApiKey placeholder_world = None.
Proof. vm_compute. repeat split; reflexivity. Qed.

(** ** The client and its four operations *)

(** X2: once the client exists it is handed out as it is; the storage and
    the environment are not consulted again, and nothing changes. *)
Theorem ensureAiClient_sticky (w : World) client w' :
  ensureAiClient w = (inr client, w') ->
  ai w' = Some client
  /\ window_defined w' = window_defined w
  /\ localStorage w' = localStorage w
  /\ VITE_GEMINI_API_KEY w' = VITE_GEMINI_API_KEY w
  /\ process_env_API_KEY w' = process_env_API_KEY w
  /\ forall store vite node,
       ensureAiClient (mkWorld (ai w') (window_defined w') store vite node)
       = (inr client, mkWorld (ai w') (window_defined w') store vite node).
Proof.
  unfold ensureAiClient. destruct (ai w) as [c|] eqn:Ha.
  - intros [= <- <-]. rewrite Ha. repeat split; try reflexivity.
  - destruct (getCurrentApiKey w) as [k|]; [|discriminate].
    destruct (Js.truthy k); [|discriminate]. intros [= <- <-]. simpl.
    repeat split; reflexivity.
Qed.

Lemma ensureAiClient_sticky_witness :
  ai vite_world = None
  /\ forall store vite node,
       ensureAiClient (mkWorld (Some (lit "AIzaSy-vite-0123456789")) true store vite node)
       = (inr (lit "AIzaSy-vite-0123456789"),
          mkWorld (Some (lit "AIzaSy-vite-0123456789")) true store vite node).
Proof.
  split; [reflexivity|].
  apply (ensureAiClient_sticky vite_world (lit "AIzaSy-vite-0123456789")
           (with_ai (Some (lit "AIzaSy-vite-0123456789")) vite_world)).
  vm_compute. reflexivity.
Defined.

Lemma trimStart_head (s : jsstring) c t :
  trimStart s = c :: t -> isWhiteSpace c = false.
Proof.
  induction s as [|d s IH]; simpl; [discriminate|].
  destruct (isWhiteSpace d) eqn:Hd; [exact IH|]. intros [= <- _]. exact Hd.
Qed.

(** A trimmed string that is all white space is empty. *)
Lemma trim_blank_nil (s : jsstring) : blank (trim s) -> trim s = [].
Proof.
  unfold trim, trimEnd. intros H.
  destruct (trimStart (rev (trimStart s))) as [|c t] eqn:E; [reflexivity|].
  exfalso. pose proof (trimStart_head _ _ _ E) as Hc.
  unfold blank in H. rewrite Forall_forall in H.
  specialize (H c). rewrite Hc in H. discriminate H.
  apply list_elem_of_In. apply in_rev. rewrite rev_involutive. left. reflexivity.
Qed.

Lemma trim_trim_truthy (s : jsstring) :
  Js.truthy (trim s) = true -> Js.truthy (trim (trim s)) = true.
Proof.
  intros H. destruct (Js.truthy (trim (trim s))) eqn:E; [reflexivity|].
  apply blank_iff_trim in E. apply trim_blank_nil in E. rewrite E in H. discriminate.
Qed.

(** X3: [setApiKey] with a key that is not blank installs a client for the
    trimmed key, whatever was there; with [null] or a blank key it only drops
    the client, so that the next operation resolves the key again from the
    storage and the environment. *)
Theorem setApiKey_then_ensure (w : World) :
  (forall k, ~ blank k ->
     ensureAiClient (setApiKey (Some k) w) = (inr (trim k), setApiKey (Some k) w))
  /\ (forall o, (o = None \/ exists k, o = Some k /\ blank k) ->
        ai (setApiKey o w) = None
        /\ getCurrentApiKey (setApiKey o w) = getCurrentApiKey w
        /\ fst (ensureAiClient (setApiKey o w))
           = match getCurrentApiKey w with
             | Some k => inr k
             | None => inl (ErrorObj no_key_message)
             end).
Proof.
  split.
  - intros k Hk.
    assert (Ht : Js.truthy (trim k) = true).
    { destruct (Js.truthy (trim k)) eqn:E; [reflexivity|].
      exfalso. apply Hk. apply blank_iff_trim. exact E. }
    assert (Hk' : Js.truthy k = true).
    { destruct k; [|reflexivity]. discriminate Ht. }
    unfold setApiKey. rewrite Hk', Ht. reflexivity.
  - intros o Ho.
    assert (Hs : setApiKey o w = with_ai None w).
    { destruct Ho as [->|(k & -> & Hb)]; [reflexivity|].
      unfold setApiKey. apply blank_iff_trim in Hb. rewrite Hb.
      rewrite andb_false_r. reflexivity. }
    rewrite Hs. split; [reflexivity|]. split; [reflexivity|].
    unfold ensureAiClient. simpl.
    change (getCurrentApiKey (with_ai None w)) with (getCurrentApiKey w).
    pose proof (getCurrentApiKey_not_empty w) as Hne.
    destruct (getCurrentApiKey w) as [k|]; [|reflexivity].
    destruct k; [exfalso; apply (Hne [] eq_refl); reflexivity|reflexivity].
Qed.

Lemma setApiKey_then_ensure_witness :
  ensureAiClient (setApiKey (Some (lit "  AIzaSy-typed-0123456789 ")) saved_world)
  = (inr (trim (lit "  AIzaSy-typed-0123456789 ")),
     setApiKey (Some (lit "  AIzaSy-typed-0123456789 ")) saved_world)
  /\ fst (ensureAiClient (setApiKey None saved_world))
     = match getCurrentApiKey saved_world with
       | Some k => inr k
       | None => inl (ErrorObj no_key_message)
       end.
Proof.
  split.
  - apply (proj1 (setApiKey_then_ensure saved_world)).
    intros H. inversion H as [|c s Hc Hs]. inversion Hs as [|c' s' Hc' Hs'].
    inversion Hs' as [|c'' s'' Hc'' Hs'']. discriminate Hc''.
  - apply (proj2 (setApiKey_then_ensure saved_world) None). left. reflexivity.
Defined.

Section MoreClientProperties.

Variable JSON_parse : jsstring -> jsstring + value.
Variable typeErrorMessage : bool -> jsstring -> jsstring.

Local Abbreviation analyze := (analyzeTextForVocabulary JSON_parse).
Local Abbreviation worksheet := (generateWorksheetData JSON_parse typeErrorMessage).
Local Abbreviation asciiArt := (generateAsciiArt JSON_parse typeErrorMessage).

(** X4: with no client and no key to be found, each of the four operations
    fails with the no-key message and sends nothing; the definition stream
    does so by yielding the message as its only chunk. *)
Theorem no_credential_no_request text words topic w service :
  ~ configured w ->
  run service [] (fst (analyze text w)) = (inl (ErrorObj no_key_message), [])
  /\ run service [] (fst (worksheet text words w)) = (inl (ErrorObj no_key_message), [])
  /\ run service [] (fst (asciiArt topic w)) = (inl (ErrorObj no_key_message), [])
  /\ streamDefinition topic w
     = ([Yield (lit "Error: " ++ no_key_message); Return], Finished, [], w).
Proof.
  intros Hn. destruct (ensure_cases w) as [H|H]; [contradiction|].
  unfold analyzeTextForVocabulary, generateWorksheetData, generateAsciiArt, streamDefinition.
  rewrite H. repeat split; reflexivity.
Qed.

Lemma map_JStr_inj (ws1 ws2 : list jsstring) : map JStr ws1 = map JStr ws2 -> ws1 = ws2.
Proof.
  revert ws2. induction ws1 as [|x ws1 IH]; intros [|y ws2] H; try discriminate;
    [reflexivity|].
  simpl in H. injection H as -> H. f_equal. apply IH. exact H.
Qed.

Lemma strings_of_spec items ws : strings_of items = Some ws <-> items = map JStr ws.
Proof.
  revert ws. induction items as [|v items IH]; intros ws; simpl.
  - split; [intros [= <-]; reflexivity|]. destruct ws; [reflexivity|discriminate].
  - destruct v; try (split; [discriminate|destruct ws; discriminate]).
    destruct (strings_of items) as [ws'|] eqn:E; simpl.
    + split.
      * intros [= <-]. simpl. f_equal. apply IH. reflexivity.
      * destruct ws as [|x ws]; [discriminate|]. simpl. intros [= -> H].
        apply IH in H. injection H as ->. reflexivity.
    + split; [discriminate|]. destruct ws as [|x ws]; [discriminate|].
      simpl. intros [= -> H]. apply IH in H. discriminate.
Qed.

(** X5: for a text that is not blank, with a credential,
    [analyzeTextForVocabulary] sends exactly one request, never a second.  It
    resolves to [ws] exactly when the reply parses to the array of the strings
    [ws]; any other outcome is a rejection whose message starts with the
    prefix of the operation. *)
Theorem analyze_outcome text w client w' service :
  ensureAiClient w = (inr client, w') -> ~ blank text ->
  let '(r, sent) := run service [] (fst (analyze text w)) in
  sent = [ReqVocabulary client text]
  /\ (forall ws, r = inr ws <->
        exists t, service 0 = Responded t
                  /\ JSON_parse (textArg t) = inr (JArr (map JStr ws)))
  /\ (forall e, r = inl e ->
        exists m, e = ErrorObj (lit "Could not analyze text for vocabulary: " ++ m)).
Proof.
  intros Hc Hb. unfold analyzeTextForVocabulary. rewrite Hc.
  assert (Ht : Js.truthy (trim text) = true).
  { destruct (Js.truthy (trim text)) eqn:E; [reflexivity|].
    exfalso. apply Hb. apply blank_iff_trim. exact E. }
  rewrite Ht. simpl. split; [reflexivity|].
  unfold analyze_try. destruct (service 0) as [e|t]; simpl.
  - split; [|intros e' [= <-]; eauto].
    intros ws. split; [discriminate|]. intros (t & Ht' & _). discriminate.
  - destruct (JSON_parse (textArg t)) as [m|v] eqn:Hp; simpl.
    + split; [|intros e' [= <-]; eauto].
      intros ws. split; [discriminate|]. intros (t' & [= <-] & H). congruence.
    + destruct v as [| | | |items|];
        try (split; [intros ws; split; [discriminate|];
                     intros (t' & [= <-] & H); rewrite Hp in H; discriminate
                    |intros e' [= <-]; eauto]).
      destruct (strings_of items) as [ws0|] eqn:Hs; simpl.
      * apply strings_of_spec in Hs. subst items. split; [|discriminate].
        intros ws. split.
        -- intros [= <-]. eauto.
        -- intros (t' & [= <-] & H). rewrite Hp in H. injection H as H.
           f_equal. apply map_JStr_inj. exact H.
      * split; [|intros e' [= <-]; eauto].
        intros ws. split; [discriminate|].
        intros (t' & [= <-] & H). rewrite Hp in H. injection H as ->.
        rewrite (proj2 (strings_of_spec _ ws) eq_refl) in Hs. discriminate.
Qed.

(** X6: for valid input, with a credential, [generateWorksheetData] sends
    exactly one request.  It resolves exactly when the reply parses and the
    parsed value passes the validation: the value resolved is the parsed
    reply as it came, which is not [null], has a truthy title and truthy
    word details whose length is not [0]; and every reply that parses to
    such a value is resolved with it.  When it rejects, the message starts
    with the prefix of the operation. *)
Theorem worksheet_outcome text words w client w' service :
  ensureAiClient w = (inr client, w') -> ~ blank text -> words <> [] ->
  let '(r, sent) := run service [] (fst (worksheet text words w)) in
  sent = [ReqWorksheet client text words]
  /\ (forall data, r = inr data ->
        (exists t, service 0 = Responded t /\ JSON_parse (textArg t) = inr data)
        /\ data <> JNull
        /\ complete typeErrorMessage data)
  /\ (forall t data, service 0 = Responded t -> JSON_parse (textArg t) = inr data ->
        complete typeErrorMessage data -> r = inr data)
  /\ (forall e, r = inl e ->
        exists m, e = ErrorObj (lit "Could not generate worksheet: " ++ m)).
Proof.
  intros Hc Hb Hw. unfold generateWorksheetData. rewrite Hc.
  assert (Ht : Js.truthy (trim text) = true).
  { destruct (Js.truthy (trim text)) eqn:E; [reflexivity|].
    exfalso. apply Hb. apply blank_iff_trim. exact E. }
  rewrite Ht. destruct words as [|x words]; [congruence|]. simpl.
  split; [reflexivity|].
  split; [|split; [|intros e; unfold worksheet_catch;
           destruct (worksheet_try _ _ _); [intros [= <-]; eauto|discriminate]]].
  - intros data. unfold worksheet_try.
    destruct (service 0) as [e|t]; [discriminate|].
    destruct (JSON_parse (textArg t)) as [m|d] eqn:Hp; [discriminate|].
    destruct (getProp typeErrorMessage d (lit "title")) as [e|title] eqn:Htitle;
      [discriminate|].
    destruct (Json.truthy title) eqn:Htt; [|discriminate]. simpl.
    destruct (getProp typeErrorMessage d (lit "wordDetails")) as [e|wd] eqn:Hwd;
      [discriminate|].
    destruct (Json.truthy wd) eqn:Hwt; [|discriminate]. simpl.
    destruct wd as [wd|]; [|discriminate].
    destruct (getProp typeErrorMessage wd (lit "length")) as [e|len] eqn:Hlen;
      [discriminate|].
    destruct (isZero len) eqn:Hz; [discriminate|]. simpl. intros [= <-].
    split; [eauto|]. split.
    + intros ->. simpl in Htitle. discriminate.
    + exists title, wd, len. auto 10.
  - intros t data Hs Hp (title & wd & len & H1 & H2 & H3 & H4 & H5 & H6).
    unfold worksheet_try. rewrite Hs, Hp, H1, H2. simpl. rewrite H3, H4. simpl.
    rewrite H5, H6. reflexivity.
Qed.

(** X7: what [generateAsciiArt] resolves to comes from the first and only
    reply, whose text, trimmed and freed of its fence, is an object in braces
    with a string under [art]; the art is that string, it is not blank, and
    no [text] field is ever passed on. *)
Theorem asciiArt_result topic w service a sent :
  run service [] (fst (asciiArt topic w)) = (inr a, sent) ->
  text a = None
  /\ ~ blank (art a)
  /\ length sent = 1
  /\ exists t parsedData,
       service 0 = Responded (Some t)
       /\ startsWith (stripFence (trim t)) (lit "{") = true
       /\ endsWith (stripFence (trim t)) (lit "}") = true
       /\ JSON_parse (stripFence (trim t)) = inr parsedData
       /\ getProp typeErrorMessage parsedData (lit "art") = inr (Some (JStr (art a))).
Proof.
  unfold generateAsciiArt.
  destruct (ensureAiClient w) as [[e|client] w']; [discriminate|]. simpl.
  destruct (ascii_try JSON_parse typeErrorMessage (service 0)) as [e|res] eqn:Htry;
    [discriminate|].
  simpl. intros [= <- <-].
  unfold ascii_try in Htry.
  destruct (service 0) as [e|[t|]]; [discriminate| |discriminate].
  destruct (startsWith (stripFence (trim t)) (lit "{")) eqn:Hs; [|discriminate].
  destruct (endsWith (stripFence (trim t)) (lit "}")) eqn:He; [|discriminate].
  simpl in Htry.
  destruct (JSON_parse (stripFence (trim t))) as [m|parsedData] eqn:Hp; [discriminate|].
  destruct (getProp typeErrorMessage parsedData (lit "art")) as [e|[v|]] eqn:Ha;
    try discriminate.
  destruct v as [| | |s| |]; try discriminate.
  destruct (length (trim s) =? 0) eqn:Hl; [discriminate|].
  simpl in Htry. injection Htry as <-. simpl.
  split; [reflexivity|]. split.
  - intros Hb. apply trim_blank in Hb. rewrite Hb in Hl. discriminate.
  - split; [reflexivity|]. exists t, parsedData. auto.
Qed.

End MoreClientProperties.

Lemma bare_world_not_configured : ~ configured bare_world.
Proof. intros (c & w' & H). vm_compute in H. discriminate. Qed.

Lemma no_credential_no_request_witness :
  run (fun _ => Responded None) []
      (fst (analyzeTextForVocabulary JSON_parse_sample (lit "Ephemeral joys.") bare_world))
  = (inl (ErrorObj no_key_message), [])
  /\ run (fun _ => Responded None) []
         (fst (generateWorksheetData JSON_parse_sample type_errors (lit "Ephemeral joys.")
                 [lit "joys"] bare_world))
     = (inl (ErrorObj no_key_message), [])
  /\ run (fun _ => Responded None) []
         (fst (generateAsciiArt JSON_parse_sample type_errors (lit "joys") bare_world))
     = (inl (ErrorObj no_key_message), [])
  /\ streamDefinition (lit "joys") bare_world
     = ([Yield (lit "Error: " ++ no_key_message); Return], Finished, [], bare_world).
Proof.
  apply no_credential_no_request. exact bare_world_not_configured.
Defined.

Lemma text_not_blank : ~ blank (lit "Ephemeral joys.").
Proof. intros H. inversion H as [|c s Hc Hs]. discriminate Hc. Qed.

Lemma analyze_outcome_witness :
  let '(r, sent) :=
    run (fun _ => Responded (Some two_words_json)) []
        (fst (analyzeTextForVocabulary JSON_parse_sample (lit "Ephemeral joys.") keyed_world)) in
  sent = [ReqVocabulary (lit "AIzaSyA-0123456789abcdef") (lit "Ephemeral joys.")]
  /\ (forall ws, r = inr ws <->
        exists t, (fun _ : nat => Responded (Some two_words_json)) 0 = Responded t
                  /\ JSON_parse_sample (textArg t) = inr (JArr (map JStr ws)))
  /\ (forall e, r = inl e ->
        exists m, e = ErrorObj (lit "Could not analyze text for vocabulary: " ++ m)).
Proof.
  apply (analyze_outcome JSON_parse_sample (lit "Ephemeral joys.") keyed_world
           (lit "AIzaSyA-0123456789abcdef") keyed_world
           (fun _ => Responded (Some two_words_json))).
  - reflexivity.
  - exact text_not_blank.
Defined.

Example analyze_two_words :
  run (fun _ => Responded (Some two_words_json)) []
      (fst (analyzeTextForVocabulary JSON_parse_sample (lit "Ephemeral joys.") keyed_world))
  = (inr [lit "ephemeral"; lit "joys"],
     [ReqVocabulary (lit "AIzaSyA-0123456789abcdef") (lit "Ephemeral joys.")]).
Proof. vm_compute. reflexivity. Qed.

Lemma worksheet_outcome_witness :
  run (fun _ => Responded (Some worksheet_json)) []
      (fst (generateWorksheetData JSON_parse_worksheet type_errors (lit "Ephemeral joys.")
              [lit "joys"] keyed_world))
  = (inr worksheet_value,
     [ReqWorksheet (lit "AIzaSyA-0123456789abcdef") (lit "Ephemeral joys.") [lit "joys"]])
  /\ complete type_errors worksheet_value.
Proof.
  assert (Hcomplete : complete type_errors worksheet_value).
  { exists (Some (JStr (lit "Joys"))), (JArr [JObj []]), (Some (Json.ofNat 1)).
    repeat split; reflexivity. }
  split; [|exact Hcomplete].
  pose proof (worksheet_outcome JSON_parse_worksheet type_errors (lit "Ephemeral joys.")
                [lit "joys"] keyed_world (lit "AIzaSyA-0123456789abcdef") keyed_world
                (fun _ => Responded (Some worksheet_json))
                eq_refl text_not_blank ltac:(discriminate)) as H.
  destruct (run (fun _ => Responded (Some worksheet_json)) []
              (fst (generateWorksheetData JSON_parse_worksheet type_errors
                      (lit "Ephemeral joys.") [lit "joys"] keyed_world))) as [r sent].
  destruct H as (Hsent & _ & Hres & _).
  rewrite Hsent. f_equal.
  apply (Hres (Some worksheet_json) worksheet_value); [reflexivity|reflexivity|exact Hcomplete].
Defined.

Example worksheet_length_zero :
  worksheet_catch
    (worksheet_try
       (fun _ => inr (JObj [(lit "title", JStr (lit "Joys"));
                            (lit "wordDetails", JObj [(lit "length", Json.ofNat 0)])]))
       type_errors (Responded (Some (lit "x"))))
  = inl (ErrorObj incomplete_message).
Proof. vm_compute. reflexivity. Qed.

Lemma asciiArt_result_witness :
  text (mkArt (lit "<>") None) = None
  /\ ~ blank (art (mkArt (lit "<>") None))
  /\ length [ReqAsciiArt (lit "AIzaSyA-0123456789abcdef") (lit "joys")] = 1
  /\ exists t parsedData,
       (fun _ : nat => Responded (Some (lit "```json" ++ [10%N] ++ art_json ++ [10%N] ++ lit "```"))) 0
       = Responded (Some t)
       /\ startsWith (stripFence (trim t)) (lit "{") = true
       /\ endsWith (stripFence (trim t)) (lit "}") = true
       /\ JSON_parse_art (stripFence (trim t)) = inr parsedData
       /\ getProp type_errors parsedData (lit "art")
          = inr (Some (JStr (art (mkArt (lit "<>") None)))).
Proof.
  apply (asciiArt_result JSON_parse_art type_errors (lit "joys") keyed_world
           (fun _ => Responded (Some (lit "```json" ++ [10%N] ++ art_json ++ [10%N] ++ lit "```")))).
  vm_compute. reflexivity.
Defined.

(** X8: with a credential the generator sends its one request at the first
    [next()].  A stream that opens and ends hands out the texts of its
    chunks that are not empty, in order, then returns, and whatever the
    service does afterwards is ignored; a stream that fails to open hands out
    the error chunk alone and throws. *)
Theorem streamDefinition_complete topic w client w' chunks rest e :
  ensureAiClient w = (inr client, w') ->
  streamDefinition topic w = ([], Opening topic, [ReqStream client topic], w')
  /\ stream_all topic w (Opened :: map Chunk chunks ++ StreamEnd :: rest)
     = (map Yield (visible chunks) ++ [Return], Finished)
  /\ stream_all topic w (OpenFailed e :: rest)
     = ([Yield (lit "Error: Could not generate content for " ++ dquote ++ topic
                ++ dquote ++ lit ". " ++ messageOr unknown_error e);
         Throw (ErrorObj (messageOr unknown_error e))], Finished).
Proof.
  intros Hc. unfold stream_all, streamDefinition. rewrite Hc.
  split; [reflexivity|]. split.
  - simpl. rewrite stream_feed_chunks. simpl. rewrite stream_feed_finished. reflexivity.
  - simpl. rewrite stream_feed_finished. reflexivity.
Qed.

Lemma streamDefinition_complete_witness :
  streamDefinition (lit "joys") keyed_world
  = ([], Opening (lit "joys"),
     [ReqStream (lit "AIzaSyA-0123456789abcdef") (lit "joys")], keyed_world)
  /\ stream_all (lit "joys") keyed_world
       (Opened :: map Chunk [Some (lit "Great "); None; Some []; Some (lit "pleasures.")]
          ++ StreamEnd :: [Opened])
     = (map Yield (visible [Some (lit "Great "); None; Some []; Some (lit "pleasures.")])
          ++ [Return], Finished)
  /\ stream_all (lit "joys") keyed_world (OpenFailed NonError :: [Opened])
     = ([Yield (lit "Error: Could not generate content for " ++ dquote ++ lit "joys"
                ++ dquote ++ lit ". " ++ messageOr unknown_error NonError);
         Throw (ErrorObj (messageOr unknown_error NonError))], Finished).
Proof.
  apply (streamDefinition_complete (lit "joys") keyed_world
           (lit "AIzaSyA-0123456789abcdef") keyed_world).
  reflexivity.
Defined.

(** ** The fence around a reply *)

Lemma trimStart_blank_app (u s : jsstring) : blank u -> trimStart (u ++ s) = trimStart s.
Proof.
  induction 1 as [|c u Hc _ IH]; simpl; [reflexivity|]. rewrite Hc. exact IH.
Qed.

Lemma trimStart_fixed_app (b v : jsstring) :
  trimStart b = b -> b <> [] -> trimStart (b ++ v) = b ++ v.
Proof.
  intros Hb Hne. destruct b as [|c b]; [congruence|].
  pose proof (trimStart_head _ _ _ Hb) as Hc. simpl. rewrite Hc. reflexivity.
Qed.

Lemma blank_rev (u : jsstring) : blank u -> blank (rev u).
Proof.
  unfold blank. rewrite !Forall_forall. intros H c Hc. apply H.
  apply list_elem_of_In. apply in_rev. apply list_elem_of_In. exact Hc.
Qed.

(** White space around a text without white space at its ends is all
    that [trim] removes. *)
Lemma trim_padded (u b v : jsstring) :
  blank u -> blank v -> noEdgeSpace b -> trim (u ++ b ++ v) = b.
Proof.
  intros Hu Hv [Hs He]. unfold trim, trimEnd.
  rewrite trimStart_blank_app by exact Hu.
  destruct b as [|c b].
  - simpl. rewrite (trimStart_blank v Hv). reflexivity.
  - rewrite trimStart_fixed_app by (auto; discriminate).
    rewrite rev_app_distr, trimStart_blank_app by (apply blank_rev; exact Hv).
    rewrite He. apply rev_involutive.
Qed.

Lemma startsWith_app (p s : jsstring) : startsWith (p ++ s) p = true.
Proof.
  induction p as [|a p IH]; simpl; [destruct s; reflexivity|].
  rewrite N.eqb_refl. exact IH.
Qed.

Lemma fenced_parts (x : jsstring) :
  startsWith (fence ++ x ++ fence) fence = true
  /\ endsWith (drop 3 (fence ++ x ++ fence)) fence = true
  /\ take (length (fence ++ x ++ fence) - 6) (drop 3 (fence ++ x ++ fence)) = x.
Proof.
  split; [apply startsWith_app|].
  change (drop 3 (fence ++ x ++ fence)) with (x ++ fence).
  split.
  - unfold endsWith. rewrite rev_app_distr. apply startsWith_app.
  - rewrite !length_app. change (length fence) with 3.
    apply take_app_length'. lia.
Qed.

(** X9: the clean-up of a reply in [generateAsciiArt] gives back the body
    of a fenced block, with or without the [json] tag and whatever white
    space surrounds the body, and leaves alone a text that does not open
    with a fence. *)
Theorem stripFence_unwraps (body u v : jsstring) :
  noEdgeSpace body -> blank u -> blank v ->
  stripFence (fence ++ (lit "json" ++ u ++ body ++ v) ++ fence) = body
  /\ (startsWith (u ++ body ++ v) (lit "json") = false ->
      stripFence (fence ++ (u ++ body ++ v) ++ fence) = body)
  /\ (forall s, startsWith s fence = false -> stripFence s = s).
Proof.
  intros Hb Hu Hv. split; [|split].
  - unfold stripFence.
    destruct (fenced_parts (lit "json" ++ u ++ body ++ v)) as (-> & -> & ->).
    cbn [andb]. unfold dropPrefix. rewrite startsWith_app.
    rewrite drop_app_length. apply trim_padded; assumption.
  - intros Hn. unfold stripFence.
    destruct (fenced_parts (u ++ body ++ v)) as (-> & -> & ->).
    cbn [andb]. unfold dropPrefix. rewrite Hn. apply trim_padded; assumption.
  - intros s Hs. unfold stripFence. rewrite Hs. reflexivity.
Qed.

Lemma stripFence_unwraps_witness :
  stripFence (fence ++ (lit "json" ++ [10%N] ++ art_json ++ [10%N; 32%N]) ++ fence) = art_json
  /\ stripFence (fence ++ ([10%N] ++ art_json ++ [10%N; 32%N]) ++ fence) = art_json
  /\ stripFence art_json = art_json.
Proof.
  assert (Hn : noEdgeSpace art_json) by (split; reflexivity).
  assert (Hu : blank [10%N]) by (repeat constructor).
  assert (Hv : blank [10%N; 32%N]) by (repeat constructor).
  destruct (stripFence_unwraps art_json [10%N] [10%N; 32%N] Hn Hu Hv) as (H1 & H2 & H3).
  split; [exact H1|]. split; [apply H2; reflexivity|apply H3; reflexivity].
Defined.

(** ** The key manager *)

Lemma trimStart_idem (s : jsstring) : trimStart (trimStart s) = trimStart s.
Proof.
  induction s as [|c s IH]; simpl; [reflexivity|].
  destruct (isWhiteSpace c) eqn:Hc; [exact IH|]. simpl. rewrite Hc. reflexivity.
Qed.

Lemma trimStart_snoc (a : jsstring) c :
  isWhiteSpace c = false -> trimStart (a ++ [c]) = trimStart a ++ [c].
Proof.
  intros Hc. induction a as [|d a IH]; simpl; [rewrite Hc; reflexivity|].
  destruct (isWhiteSpace d); [exact IH|reflexivity].
Qed.

Lemma trim_noEdgeSpace (s : jsstring) : noEdgeSpace (trim s).
Proof.
  unfold noEdgeSpace, trim, trimEnd. split.
  - destruct (trimStart s) as [|c t] eqn:E; [reflexivity|].
    pose proof (trimStart_head s c t E) as Hc.
    simpl rev. rewrite (trimStart_snoc (rev t) c Hc).
    rewrite rev_app_distr. simpl. rewrite Hc. reflexivity.
  - rewrite rev_involutive. apply trimStart_idem.
Qed.

Lemma trim_idem (s : jsstring) : trim (trim s) = trim s.
Proof.
  pose proof (trim_padded [] (trim s) [] (List.Forall_nil _) (List.Forall_nil _) (trim_noEdgeSpace s)) as H.
  simpl in H. rewrite app_nil_r in H. exact H.
Qed.

Lemma truthy_length (s : jsstring) : 0 < length s -> Js.truthy s = true.
Proof. destruct s; simpl; [lia|reflexivity]. Qed.

(** X10: a key that passes the format test is stored trimmed under
    [gemini_api_key] and nothing else in the storage changes; the parent is
    told the trimmed key once and one 3000 ms timer is set.  The stored key
    is then what [getCurrentApiKey] resolves, whatever the environment
    holds, and what the next mount reports.  When [setItem] throws nothing
    of this happens. *)
Theorem handleSaveKey_round_trip (st : ApiKeyManager.State)
    (store : gmap jsstring jsstring) (client envV envN envN' : option jsstring)
    (st' : ApiKeyManager.State) :
  let k := trim (ApiKeyManager.apiKey st) in
  startsWith k (lit "AI") = true ->
  20 <= length k ->
  let o := handleSaveKey false st store in
  storage o !! storage_key = Some k
  /\ (forall other, other <> storage_key -> storage o !! other = store !! other)
  /\ notified o = [Some k]
  /\ timeouts o = [3000]
  /\ isKeySet (state o) = true
  /\ isExpanded (state o) = false
  /\ getCurrentApiKey (mkWorld client true (storage o) envV envN) = Some k
  /\ notified (mountEffect envV envN' st' (storage o)) = [Some k]
  /\ ApiKeyManager.apiKey (state (mountEffect envV envN' st' (storage o))) = k
  /\ storage (handleSaveKey true st store) = store
  /\ notified (handleSaveKey true st store) = []
  /\ isKeySet (state (handleSaveKey true st store)) = isKeySet st.
Proof.
  intros k Hp Hl o.
  assert (Ht : Js.truthy k = true) by (apply truthy_length; lia).
  assert (Htt : Js.truthy (trim k) = true).
  { unfold k. rewrite trim_idem. exact Ht. }
  assert (Ho : o = mkOutcome (ApiKeyManager.mkState (ApiKeyManager.apiKey st) true false
                                (showKey st) (Some (success, lit "API key saved successfully!")))
                             (<[storage_key := k]> store) [Some k] [3000]).
  { unfold o, handleSaveKey. fold k. rewrite Ht, Hp. simpl.
    replace (length k <? 20) with false by (symmetry; apply Nat.ltb_ge; exact Hl).
    reflexivity. }
  assert (Hs : storage o !! storage_key = Some k).
  { rewrite Ho. simpl. apply lookup_insert_eq. }
  split; [exact Hs|].
  split. { intros other Hne. rewrite Ho. simpl. apply lookup_insert_ne. congruence. }
  split; [rewrite Ho; reflexivity|].
  split; [rewrite Ho; reflexivity|].
  split; [rewrite Ho; reflexivity|].
  split; [rewrite Ho; reflexivity|].
  split. { unfold getCurrentApiKey. simpl. rewrite Hs. simpl. rewrite Ht, Htt. reflexivity. }
  split. { unfold mountEffect. rewrite Hs, Ht, Htt. reflexivity. }
  split. { unfold mountEffect. rewrite Hs, Ht, Htt. reflexivity. }
  assert (Hf : handleSaveKey true st store
               = mkOutcome (setMessage (Some (failure, lit "Failed to save API key")) st)
                           store [] []).
  { unfold handleSaveKey. fold k. rewrite Ht, Hp. simpl.
    replace (length k <? 20) with false by (symmetry; apply Nat.ltb_ge; exact Hl).
    reflexivity. }
  rewrite Hf. repeat split.
Qed.

Lemma handleSaveKey_round_trip_witness :
  let k := trim (ApiKeyManager.apiKey typed_key) in
  let o := handleSaveKey false typed_key (localStorage saved_world) in
  storage o !! storage_key = Some k
  /\ (forall other, other <> storage_key ->
        storage o !! other = localStorage saved_world !! other)
  /\ notified o = [Some k]
  /\ timeouts o = [3000]
  /\ isKeySet (state o) = true
  /\ isExpanded (state o) = false
  /\ getCurrentApiKey (mkWorld None true (storage o) None None) = Some k
  /\ notified (mountEffect None None typed_key (storage o)) = [Some k]
  /\ ApiKeyManager.apiKey (state (mountEffect None None typed_key (storage o))) = k
  /\ storage (handleSaveKey true typed_key (localStorage saved_world))
     = localStorage saved_world
  /\ notified (handleSaveKey true typed_key (localStorage saved_world)) = []
  /\ isKeySet (state (handleSaveKey true typed_key (localStorage saved_world)))
     = isKeySet typed_key.
Proof.
  apply (handleSaveKey_round_trip typed_key (localStorage saved_world)
           None None None None typed_key).
  - vm_compute. reflexivity.
  - vm_compute. lia.
Defined.

Example handleSaveKey_trims :
  trim (ApiKeyManager.apiKey typed_key) = lit "AIzaSy-typed-0123456789".
Proof. vm_compute. reflexivity. Qed.

(** X11: removing the key deletes [gemini_api_key] and nothing else, tells
    the parent [null] once and resets the input box; the client then resolves
    its key as over a storage that never held one.  Saving and then removing
    leaves the storage without the key, whatever it held before.  When
    [removeItem] throws the storage and the parent are left alone. *)
Theorem handleRemoveKey_forgets (st st' : ApiKeyManager.State)
    (store : gmap jsstring jsstring) (client envV envN : option jsstring) (b : bool) :
  let o := handleRemoveKey false st store in
  storage o = delete storage_key store
  /\ storage o !! storage_key = None
  /\ (forall other, other <> storage_key -> storage o !! other = store !! other)
  /\ notified o = [None]
  /\ ApiKeyManager.apiKey (state o) = []
  /\ isKeySet (state o) = false
  /\ isExpanded (state o) = true
  /\ getCurrentApiKey (mkWorld client true (storage o) envV envN)
     = getCurrentApiKey (mkWorld client false store envV envN)
  /\ storage (handleRemoveKey false st' (storage (handleSaveKey b st store)))
     = delete storage_key store
  /\ storage (handleRemoveKey true st store) = store
  /\ notified (handleRemoveKey true st store) = []
  /\ isKeySet (state (handleRemoveKey true st store)) = isKeySet st.
Proof.
  intros o.
  assert (Hs : storage o !! storage_key = None) by apply lookup_delete_eq.
  split; [reflexivity|]. split; [exact Hs|].
  split. { intros other Hne. apply lookup_delete_ne. congruence. }
  split; [reflexivity|]. split; [reflexivity|]. split; [reflexivity|].
  split; [reflexivity|].
  split.
  { unfold getCurrentApiKey.
    cbn [window_defined localStorage VITE_GEMINI_API_KEY process_env_API_KEY].
    rewrite Hs. reflexivity. }
  split.
  { unfold handleRemoveKey, handleSaveKey. simpl.
    repeat match goal with |- context [if ?c then _ else _] => destruct c end; simpl;
      try reflexivity.
    apply delete_insert_eq. }
  repeat split.
Qed.

Lemma lookup_concat_replicate (n : nat) (u : jsstring) (j : nat) :
  j < n * length u -> concat (replicate n u) !! j = u !! (j mod length u).
Proof.
  revert j. induction n as [|n IH]; intros j Hj; [simpl in Hj; lia|].
  change (concat (replicate (S n) u)) with (u ++ concat (replicate n u)).
  destruct (decide (j < length u)) as [Hlt|Hge].
  - rewrite lookup_app_l by exact Hlt. rewrite Nat.mod_small by exact Hlt. reflexivity.
  - rewrite lookup_app_r by lia. rewrite IH by (simpl in Hj; lia).
    replace j with ((j - length u) + 1 * length u) at 2 by lia.
    rewrite Nat.Div0.mod_add. reflexivity.
Qed.

(** X12: [maskApiKey] shows a key of at most eight code units in full.  Of a
    longer key it keeps the first four and the last four code units and
    writes the three code units of its mask literal for each one between, so
    the result has [3 * length key - 16] code units and depends on the hidden
    part through its length only. *)
Theorem maskApiKey_shape (key : jsstring) :
  (length key <= 8 -> maskApiKey key = key)
  /\ (8 < length key ->
      take 4 (maskApiKey key) = take 4 key
      /\ drop (length (maskApiKey key) - 4) (maskApiKey key) = drop (length key - 4) key
      /\ length (maskApiKey key) = 3 * length key - 16
      /\ (forall i, 4 <= i < length (maskApiKey key) - 4 ->
            maskApiKey key !! i = maskUnit !! ((i - 4) mod 3))
      /\ (forall key', length key' = length key ->
            take 4 key' = take 4 key ->
            drop (length key - 4) key' = drop (length key - 4) key ->
            maskApiKey key' = maskApiKey key)).
Proof.
  unfold maskApiKey. split.
  - intros H. replace (length key <=? 8) with true by (symmetry; apply Nat.leb_le; exact H).
    reflexivity.
  - intros H.
    replace (length key <=? 8) with false by (symmetry; apply Nat.leb_gt; exact H).
    set (mid := concat (replicate (length key - 8) maskUnit)).
    assert (Hmid : length mid = 3 * (length key - 8)).
    { unfold mid. generalize (length key - 8). intros n.
      induction n as [|n IH]; simpl; [reflexivity|].
      rewrite IH. lia. }
    assert (H4 : length (take 4 key) = 4) by (rewrite length_take; lia).
    assert (Hd : length (drop (length key - 4) key) = 4) by (rewrite length_drop; lia).
    split. { rewrite take_app_length'; [reflexivity|symmetry; exact H4]. }
    split.
    { rewrite !length_app, H4, Hmid, Hd.
      rewrite app_assoc. rewrite drop_app_length'; [reflexivity|].
      rewrite length_app, H4, Hmid. lia. }
    split. { rewrite !length_app, H4, Hmid, Hd. lia. }
    split.
    { intros i Hi. rewrite !length_app, H4, Hmid, Hd in Hi.
      rewrite lookup_app_r by lia. rewrite H4.
      rewrite lookup_app_l by lia.
      unfold mid. rewrite (lookup_concat_replicate _ maskUnit) by (simpl; lia).
      reflexivity. }
    intros key' Hl Ht Hdr. rewrite Hl.
    replace (length key <=? 8) with false by (symmetry; apply Nat.leb_gt; exact H).
    rewrite Ht, Hdr. reflexivity.
Qed.

Lemma maskApiKey_shape_witness :
  maskApiKey (lit "AIza") = lit "AIza"
  /\ take 4 (maskApiKey (lit "AIzaSy-0123")) = take 4 (lit "AIzaSy-0123")
  /\ length (maskApiKey (lit "AIzaSy-0123")) = 3 * length (lit "AIzaSy-0123") - 16.
Proof.
  split.
  - apply (proj1 (maskApiKey_shape (lit "AIza"))). vm_compute. lia.
  - assert (H : 8 < length (lit "AIzaSy-0123")) by (vm_compute; lia).
    destruct (proj2 (maskApiKey_shape (lit "AIzaSy-0123")) H) as (H1 & _ & H3 & _).
    split; [exact H1|exact H3].
Defined.

Example maskApiKey_sample :
  maskApiKey (lit "AIzaSy-0123")
  = lit "AIza" ++ maskUnit ++ maskUnit ++ maskUnit ++ lit "0123".
Proof. vm_compute. reflexivity. Qed.

(** X13: the mount effect never writes the storage and sets no timer.  A
    usable saved key wins over the environment: it fills the input box and is
    the one reported.  Otherwise a Vite value that is a string other than the
    placeholder is taken, and when it is empty nothing is reported and the
    panel opens, whatever the Node value is; the Node value is consulted only
    when the Vite value is absent or the placeholder, and is then reported
    when it is a non-empty string, the placeholder included. *)
Theorem mountEffect_precedence (envV envN : option jsstring)
    (st : ApiKeyManager.State) (store : gmap jsstring jsstring) :
  let o := mountEffect envV envN st store in
  storage o = store
  /\ timeouts o = []
  /\ (usable (store !! storage_key) = true ->
        notified o = [store !! storage_key]
        /\ Some (ApiKeyManager.apiKey (state o)) = store !! storage_key
        /\ isKeySet (state o) = true
        /\ isExpanded (state o) = isExpanded st)
  /\ (usable (store !! storage_key) = false ->
        ApiKeyManager.apiKey (state o) = ApiKeyManager.apiKey st
        /\ (forall v, envV = Some v -> v <> lit "PLACEHOLDER_API_KEY" ->
              (v <> [] -> notified o = [Some v] /\ isKeySet (state o) = true
                          /\ isExpanded (state o) = isExpanded st)
              /\ (v = [] -> notified o = [] /\ isExpanded (state o) = true
                            /\ isKeySet (state o) = isKeySet st))
        /\ (envV = None \/ envV = Some (lit "PLACEHOLDER_API_KEY") ->
              (forall n, envN = Some n -> n <> [] ->
                 notified o = [Some n] /\ isKeySet (state o) = true)
              /\ (envN = None \/ envN = Some [] ->
                    notified o = [] /\ isExpanded (state o) = true
                    /\ isKeySet (state o) = isKeySet st))).
Proof.
  intros o.
  assert (Hst : storage o = store /\ timeouts o = []).
  { unfold o, mountEffect, mountFromEnv.
    repeat match goal with
           | |- context [match ?c with _ => _ end] => destruct c
           end; split; reflexivity. }
  destruct Hst as [Hs Ht]. split; [exact Hs|]. split; [exact Ht|].
  split.
  - intros Hu. unfold o, mountEffect.
    destruct (store !! storage_key) as [s|]; [|discriminate Hu].
    simpl in Hu. rewrite Hu. repeat split.
  - intros Hu.
    assert (Ho : o = mountFromEnv envV envN st store).
    { unfold o, mountEffect. destruct (store !! storage_key) as [s|]; [|reflexivity].
      simpl in Hu. rewrite Hu. reflexivity. }
    rewrite Ho. unfold mountFromEnv, apiKeyFromEnv. split.
    { repeat match goal with
             | |- context [match ?c with _ => _ end] => destruct c
             end; reflexivity. }
    split.
    + intros v -> Hv.
      replace (streq v (lit "PLACEHOLDER_API_KEY")) with false
        by (symmetry; apply bool_decide_eq_false; exact Hv).
      simpl. split.
      * intros Hne. destruct v; [congruence|]. repeat split.
      * intros ->. repeat split.
    + intros Hv.
      assert (He : match envV with
                   | Some v => if negb (streq v (lit "PLACEHOLDER_API_KEY")) then Some v
                               else envN
                   | None => envN
                   end = envN).
      { destruct Hv as [->| ->]; reflexivity. }
      rewrite He. split.
      * intros n -> Hn. destruct n; [congruence|]. repeat split.
      * intros [->| ->]; repeat split.
Qed.

Lemma mountEffect_precedence_witness :
  notified (mountEffect (VITE_GEMINI_API_KEY saved_world) None typed_key
              (localStorage saved_world))
  = [localStorage saved_world !! storage_key]
  /\ (notified (mountEffect (Some []) (Some (lit "AIzaSy-node-0123456789")) typed_key ∅) = []
      /\ isExpanded (state (mountEffect (Some []) (Some (lit "AIzaSy-node-0123456789"))
                              typed_key ∅)) = true
      /\ isKeySet (state (mountEffect (Some []) (Some (lit "AIzaSy-node-0123456789"))
                            typed_key ∅)) = isKeySet typed_key)
  /\ notified (mountEffect None (Some (lit "PLACEHOLDER_API_KEY")) typed_key ∅)
     = [Some (lit "PLACEHOLDER_API_KEY")].
Proof.
  split; [|split].
  - assert (H : usable (localStorage saved_world !! storage_key) = true)
      by (vm_compute; reflexivity).
    exact (proj1 (proj1 (proj2 (proj2 (mountEffect_precedence
             (VITE_GEMINI_API_KEY saved_world) None typed_key
             (localStorage saved_world)))) H)).
  - assert (H : usable ((∅ : gmap jsstring jsstring) !! storage_key) = false)
      by reflexivity.
    destruct (proj2 (proj2 (proj2 (mountEffect_precedence
                (Some []) (Some (lit "AIzaSy-node-0123456789")) typed_key ∅))) H)
      as (_ & Hv & _).
    apply (proj2 (Hv [] eq_refl ltac:(discriminate)) eq_refl).
  - assert (H : usable ((∅ : gmap jsstring jsstring) !! storage_key) = false)
      by reflexivity.
    destruct (proj2 (proj2 (proj2 (mountEffect_precedence
                None (Some (lit "PLACEHOLDER_API_KEY")) typed_key ∅))) H)
      as (_ & _ & Hn).
    apply (proj1 (Hn (or_introl eq_refl)) (lit "PLACEHOLDER_API_KEY") eq_refl).
    discriminate.
Defined.

Lemma handleRemoveKey_forgets_witness :
  let o := handleRemoveKey false typed_key (localStorage saved_world) in
  storage o = delete storage_key (localStorage saved_world)
  /\ storage o !! storage_key = None
  /\ notified o = [None].
Proof.
  destruct (handleRemoveKey_forgets typed_key typed_key (localStorage saved_world)
              None None None false) as (H1 & H2 & _ & H4 & _).
  exact (conj H1 (conj H2 H4)).
Defined.

(** ** The key manager and the orchestrator *)

Lemma with_storage_same (w : World) : with_storage (localStorage w) w = w.
Proof. destruct w; reflexivity. Qed.

Lemma on_world_same (m : Machine) : on_world (with_storage (localStorage (world m))) m = m.
Proof. unfold on_world. rewrite with_storage_same. destruct m; reflexivity. Qed.

Section KeyManagerAndApp.

Variable JSON_parse : jsstring -> jsstring + value.
Variable typeErrorMessage : bool -> jsstring -> jsstring.

Local Abbreviation step' := (step JSON_parse typeErrorMessage).

(** X14: a key accepted by [handleSaveKey] reaches the orchestrator: the
    application is marked configured, a shown error is cleared, and the
    client is replaced by one for the trimmed key, which the next operation
    uses as it is, whichever client existed before.  Nothing else of the
    application changes and no request is sent.  A key that is rejected
    leaves the application and the client exactly as they were. *)
Theorem save_key_configures_app (st : ApiKeyManager.State) (m : Machine) :
  let k := trim (ApiKeyManager.apiKey st) in
  let m' := onApiKeyChange (handleSaveKey false st (localStorage (world m))) m in
  (startsWith k (lit "AI") = true -> 20 <= length k ->
     apiKeyConfigured (app m') = true
     /\ error (app m') = None
     /\ ensureAiClient (world m') = (inr k, world m')
     /\ savedKey (world m') = (if window_defined (world m) then Some k else None)
     /\ app m' = setError None (setApiKeyConfigured true (app m))
     /\ (timers m', pending m', sent m', fetches m', effect m', deps m', now m')
        = (timers m, pending m, sent m, fetches m, effect m, deps m, now m))
  /\ (startsWith k (lit "AI") = false \/ length k < 20 -> m' = m).
Proof.
  intros k m'. split.
  - intros Hp Hl.
    assert (Ht : Js.truthy k = true) by (apply truthy_length; lia).
    assert (Htt : Js.truthy (trim k) = true).
    { unfold k. rewrite trim_idem. exact Ht. }
    assert (Ho : handleSaveKey false st (localStorage (world m))
                 = mkOutcome (ApiKeyManager.mkState (ApiKeyManager.apiKey st) true false
                                (showKey st) (Some (success, lit "API key saved successfully!")))
                             (<[storage_key := k]> (localStorage (world m))) [Some k] [3000]).
    { unfold handleSaveKey. fold k. rewrite Ht, Hp. simpl.
      replace (length k <? 20) with false by (symmetry; apply Nat.ltb_ge; exact Hl).
      reflexivity. }
    unfold m', onApiKeyChange. rewrite Ho.
    cbn [notified storage foldl]. unfold handleApiKeyChange.
    rewrite Ht. unfold setApiKey. rewrite Ht, Htt.
    unfold k at 3. fold k. replace (trim k) with k by (unfold k; rewrite trim_idem; reflexivity).
    split; [reflexivity|]. split; [reflexivity|].
    split; [reflexivity|].
    split.
    { unfold savedKey. simpl. destruct (window_defined (world m)); [|reflexivity].
      apply lookup_insert_eq. }
    split; reflexivity.
  - intros Hbad.
    assert (Ho : exists msg, handleSaveKey false st (localStorage (world m))
                 = mkOutcome (setMessage msg st) (localStorage (world m)) [] []).
    { unfold handleSaveKey. fold k.
      destruct (Js.truthy k); simpl; [|eexists; reflexivity].
      destruct Hbad as [Hp|Hl].
      - rewrite Hp. simpl. eexists; reflexivity.
      - replace (length k <? 20) with true by (symmetry; apply Nat.ltb_lt; exact Hl).
        rewrite orb_true_r. eexists; reflexivity. }
    destruct Ho as [msg Ho]. unfold m', onApiKeyChange. rewrite Ho.
    cbn [notified storage foldl]. apply on_world_same.
Qed.

(** X15: removing the key reaches the orchestrator as [null]: the client is
    dropped and the application is marked not configured while a shown error
    stays; from then on the Analyze button does nothing, for every text.
    The client itself would still resolve a key from the environment. *)
Theorem remove_key_unconfigures_app (st : ApiKeyManager.State) (m : Machine)
    (text : jsstring) :
  let m' := onApiKeyChange (handleRemoveKey false st (localStorage (world m))) m in
  apiKeyConfigured (app m') = false
  /\ ai (world m') = None
  /\ savedKey (world m') = None
  /\ app m' = setApiKeyConfigured false (app m)
  /\ (timers m', pending m', sent m', fetches m', effect m', deps m', now m')
     = (timers m, pending m, sent m, fetches m, effect m, deps m, now m)
  /\ step' (ClickAnalyze text) m' = m'
  /\ handleAnalyze JSON_parse text m'
     = on_app (setError (Some (lit "Please configure your Gemini API key first."))) m'
  /\ getCurrentApiKey (world m')
     = getCurrentApiKey (mkWorld None false ∅ (VITE_GEMINI_API_KEY (world m))
                           (process_env_API_KEY (world m))).
Proof.
  intros m'.
  assert (Hs : savedKey (world m') = None).
  { unfold savedKey. simpl. destruct (window_defined (world m)); [|reflexivity].
    apply lookup_delete_eq. }
  split; [reflexivity|]. split; [reflexivity|]. split; [exact Hs|].
  split; [reflexivity|]. split; [reflexivity|].
  split. { unfold step. simpl. rewrite andb_false_r. reflexivity. }
  split; [reflexivity|].
  unfold getCurrentApiKey. fold (savedKey (world m')). rewrite Hs. reflexivity.
Qed.

End KeyManagerAndApp.

Lemma save_key_configures_app_witness :
  let st := typed_key in
  let m := initial [] saved_world in
  let k := trim (ApiKeyManager.apiKey st) in
  let m' := onApiKeyChange (handleSaveKey false st (localStorage (world m))) m in
  apiKeyConfigured (app m') = true
  /\ error (app m') = None
  /\ ensureAiClient (world m') = (inr k, world m')
  /\ savedKey (world m') = (if window_defined (world m) then Some k else None)
  /\ app m' = setError None (setApiKeyConfigured true (app m))
  /\ (timers m', pending m', sent m', fetches m', effect m', deps m', now m')
     = (timers m, pending m, sent m, fetches m, effect m, deps m, now m).
Proof.
  apply (proj1 (save_key_configures_app typed_key (initial [] saved_world))).
  - vm_compute. reflexivity.
  - vm_compute. lia.
Defined.

(** ** The pure helpers of the orchestrator *)

(** X16: the fallback art is a box of three lines of equal width around the
    topic, which is shown in full up to twenty code units and cut to
    seventeen followed by three dots beyond; the box is never wider than
    twenty-four, carries no text and is never blank, so it passes the test
    that [generateAsciiArt] applies to the art of the service. *)
Theorem createFallbackArt_box (topic : jsstring) :
  let shown := if 20 <? length topic then take 17 topic ++ lit "..." else topic in
  exists top bottom,
    art (createFallbackArt topic)
    = top ++ [10%N] ++ ([9474; 32]%N ++ shown ++ [32; 9474]%N) ++ [10%N] ++ bottom
    /\ length top = length shown + 4
    /\ length bottom = length shown + 4
    /\ length shown = Nat.min (length topic) 20
    /\ take 17 shown = take 17 topic
    /\ (length topic <= 20 -> shown = topic)
    /\ (length (trim (art (createFallbackArt topic))) =? 0) = false
    /\ text (createFallbackArt topic) = None.
Proof.
  intros shown. unfold createFallbackArt. fold shown. cbn [art text].
  set (bar := repeat 9472%N (length (lit " " ++ shown ++ lit " "))).
  assert (Hbar : length bar = length shown + 2).
  { unfold bar. rewrite repeat_length, !length_app. simpl. lia. }
  exists ([9484%N] ++ bar ++ [9488%N]), ([9492%N] ++ bar ++ [9496%N]).
  split. { simpl. rewrite <- !app_assoc. reflexivity. }
  split. { rewrite !length_app, Hbar. simpl. lia. }
  split. { rewrite !length_app, Hbar. simpl. lia. }
  split.
  { unfold shown. destruct (20 <? length topic) eqn:E.
    - apply Nat.ltb_lt in E. rewrite length_app, length_take.
      change (length (lit "...")) with 3. lia.
    - apply Nat.ltb_ge in E. lia. }
  split.
  { unfold shown. destruct (20 <? length topic) eqn:E; [|reflexivity].
    apply Nat.ltb_lt in E. rewrite take_app_length'; [reflexivity|].
    rewrite length_take. lia. }
  split.
  { intros H. unfold shown.
    replace (20 <? length topic) with false by (symmetry; apply Nat.ltb_ge; exact H).
    reflexivity. }
  split; [|reflexivity].
  apply Nat.eqb_neq. intros H0. apply length_zero_iff_nil in H0.
  apply trim_nil_blank in H0. inversion H0 as [|c s Hc Hs]. discriminate Hc.
Qed.

Lemma createFallbackArt_box_witness :
  exists top bottom,
    art (createFallbackArt (lit "ephemeral"))
    = top ++ [10%N] ++ ([9474; 32]%N ++ lit "ephemeral" ++ [32; 9474]%N) ++ [10%N] ++ bottom
    /\ length top = length (lit "ephemeral") + 4
    /\ length bottom = length (lit "ephemeral") + 4
    /\ (if 20 <? length (lit "ephemeral")
        then take 17 (lit "ephemeral") ++ lit "..." else lit "ephemeral")
       = lit "ephemeral".
Proof.
  destruct (createFallbackArt_box (lit "ephemeral"))
    as (top & bottom & H1 & H2 & H3 & _ & _ & H6 & _).
  exists top, bottom. split; [exact H1|]. split; [exact H2|]. split; [exact H3|].
  apply H6. vm_compute. lia.
Defined.

Example createFallbackArt_long :
  art (createFallbackArt (lit "pneumonoultramicroscopic"))
  = [9484%N] ++ repeat 9472%N 22 ++ [9488; 10; 9474]%N
    ++ lit " pneumonoultramicr... "
    ++ [9474; 10; 9492]%N ++ repeat 9472%N 22 ++ [9496%N].
Proof. vm_compute. reflexivity. Qed.

Lemma isSpecial_backslash : isSpecial 92 = true.
Proof. reflexivity. Qed.

Lemma isWordChar_not_special c : isWordChar c = true -> isSpecial c = false.
Proof.
  unfold isWordChar, isSpecial. intros H. simpl.
  repeat match goal with
         | |- context [(c =? ?n)%N] =>
             destruct (N.eqb_spec c n) as [->|_]; [vm_compute in H; discriminate H|]
         end.
  reflexivity.
Qed.

(** X17: escaping puts a backslash before each of the sixteen pattern
    characters and changes nothing else, so the pattern parser reads the
    escaped word back as the word itself and two different words never give
    the same alternative; a word of letters, digits and underscores is its
    own escape. *)
Theorem escapeRegExp_literal (w : jsstring) :
  patternLiteral (escapeRegExp w) = w
  /\ length (escapeRegExp w) = length w + length (List.filter isSpecial w)
  /\ (forall w', escapeRegExp w' = escapeRegExp w -> w' = w)
  /\ (Forall (fun c => isWordChar c = true) w -> escapeRegExp w = w).
Proof.
  assert (Hrt : forall v, patternLiteral (escapeRegExp v) = v).
  { induction v as [|c v IH]; [reflexivity|].
    unfold escapeRegExp. simpl flat_map. fold (escapeRegExp v).
    destruct (isSpecial c) eqn:Hc.
    - simpl. rewrite IH. reflexivity.
    - simpl. destruct (N.eqb_spec c 92) as [->|Hne].
      + rewrite isSpecial_backslash in Hc. discriminate.
      + rewrite IH. reflexivity. }
  split; [apply Hrt|]. split; [|split].
  - induction w as [|c w IH]; [reflexivity|].
    unfold escapeRegExp. simpl flat_map. fold (escapeRegExp w). simpl List.filter.
    destruct (isSpecial c); simpl; rewrite IH; lia.
  - intros w' H. rewrite <- (Hrt w'), H. apply Hrt.
  - induction 1 as [|c v Hc _ IH]; [reflexivity|].
    unfold escapeRegExp. simpl flat_map. fold (escapeRegExp v).
    rewrite (isWordChar_not_special c Hc), IH. reflexivity.
Qed.

Lemma escapeRegExp_literal_witness : escapeRegExp (lit "joys_1") = lit "joys_1".
Proof.
  apply (proj2 (proj2 (proj2 (escapeRegExp_literal (lit "joys_1"))))).
  repeat constructor.
Defined.

Example escapeRegExp_sample :
  escapeRegExp (lit "self-aware (adj.)") = lit "self\-aware \(adj\.\)".
Proof. vm_compute. reflexivity. Qed.

Lemma filter_Forall_false {A} (p : A -> bool) (l : list A) :
  Forall (fun x => p x = false) (List.filter (fun x => negb (p x)) l).
Proof.
  induction l as [|x l IH]; simpl; [constructor|].
  destruct (p x) eqn:E; simpl; [exact IH|]. constructor; assumption.
Qed.

Lemma filter_all {A} (p : A -> bool) (l : list A) :
  Forall (fun x => p x = true) l -> List.filter p l = l.
Proof.
  induction 1 as [|x l Hx _ IH]; simpl; [reflexivity|]. rewrite Hx, IH. reflexivity.
Qed.

Lemma filter_none {A} (p : A -> bool) (l : list A) :
  Forall (fun x => p x = false) l -> List.filter p l = [].
Proof.
  induction 1 as [|x l Hx _ IH]; simpl; [reflexivity|]. rewrite Hx. exact IH.
Qed.

Lemma trimStart_Forall (P : N -> Prop) (s : jsstring) : Forall P s -> Forall P (trimStart s).
Proof.
  induction 1 as [|c s Hc Hs IH]; simpl; [constructor|].
  destruct (isWhiteSpace c); [exact IH|constructor; assumption].
Qed.

Lemma Forall_rev_js (P : N -> Prop) (s : jsstring) : Forall P s -> Forall P (rev s).
Proof.
  rewrite !Forall_forall. intros H c Hc. apply H.
  apply list_elem_of_In. apply in_rev. apply list_elem_of_In. exact Hc.
Qed.

Lemma trim_Forall (P : N -> Prop) (s : jsstring) : Forall P s -> Forall P (trim s).
Proof.
  intros H. unfold trim, trimEnd.
  apply Forall_rev_js, trimStart_Forall, Forall_rev_js, trimStart_Forall. exact H.
Qed.

(** X18: the topic [handleWordClick] sets is the word clicked, trimmed and
    freed of the ten marks, and the click opens the definition view and
    changes nothing else.  A click on a word that is nothing but marks
    between blanks is ignored, so the topic of an opened definition is never
    empty; a word without marks and without blanks at its ends is its own
    topic. *)
Theorem handleWordClick_topic (word : jsstring) (s : App.State) :
  let s' := handleWordClick word s in
  Forall (fun c => isMark c = false) (cleanWord word)
  /\ (cleanWord word <> [] ->
        s' = setView definition (setDefinitionTopic (cleanWord word) s)
        /\ view s' = definition
        /\ definitionTopic s' = cleanWord word)
  /\ (cleanWord word = [] -> s' = s)
  /\ (Forall (fun c => isMark c = true) (trim word) -> s' = s)
  /\ (noEdgeSpace word -> Forall (fun c => isMark c = false) word ->
        cleanWord word = word).
Proof.
  intros s'.
  assert (Hnil : cleanWord word = [] -> s' = s).
  { intros H. unfold s', handleWordClick. rewrite H. reflexivity. }
  split. { unfold cleanWord. apply (filter_Forall_false isMark). }
  split.
  { intros H. unfold s', handleWordClick.
    destruct (cleanWord word) as [|c t]; [congruence|]. repeat split. }
  split; [exact Hnil|]. split.
  - intros Hm. apply Hnil. unfold cleanWord. apply filter_none.
    eapply Forall_impl; [exact Hm|]. intros c Hc. simpl in Hc. fold (isMark c).
    rewrite Hc. reflexivity.
  - intros Hne Hm. unfold cleanWord.
    replace (trim word) with word
      by (symmetry; pose proof (trim_padded [] word [] (List.Forall_nil _)
                                  (List.Forall_nil _) Hne) as H;
          simpl in H; rewrite app_nil_r in H; exact H).
    apply filter_all. eapply Forall_impl; [exact Hm|].
    intros c Hc. simpl in Hc. fold (isMark c). rewrite Hc. reflexivity.
Qed.

Lemma handleWordClick_topic_witness :
  let s := app words_selected in
  let s' := handleWordClick (lit " (joys), ") s in
  s' = setView definition (setDefinitionTopic (cleanWord (lit " (joys), ")) s)
  /\ view s' = definition
  /\ definitionTopic s' = cleanWord (lit " (joys), ").
Proof.
  apply (proj1 (proj2 (handleWordClick_topic (lit " (joys), ") (app words_selected)))).
  vm_compute. discriminate.
Defined.

Example cleanWord_samples :
  cleanWord (lit " (joys), ") = lit "joys"
  /\ cleanWord (lit " ?! ") = []
  /\ cleanWord (lit ". .") = lit " ".
Proof. vm_compute. repeat split. Qed.

Lemma map_alter_same {A B} (g : A -> B) (f : A -> A) (i : nat) (l : list A) :
  (forall x, g (f x) = g x) -> map g (alter f i l) = map g l.
Proof.
  intros H. revert i. induction l as [|x l IH]; intros [|i]; simpl; try reflexivity.
  - rewrite H. reflexivity.
  - f_equal. apply IH.
Qed.

(** X19: [updateProgressStep] never adds, removes, renames or reorders a
    step: identifiers, labels and icons stay as they are.  An identifier
    that no step carries changes nothing.  Otherwise only the first step
    carrying it and the step after it are written: every other entry is
    left as it was, and the current step named afterwards is the old one or
    a step of the list. *)
Theorem updateSteps_frame (stepId : jsstring) (done : bool)
    (prev : list ProgressStep) (current : jsstring) :
  let r := updateSteps stepId done prev current in
  map id r.1 = map id prev
  /\ map label r.1 = map label prev
  /\ map icon r.1 = map icon prev
  /\ (stepId ∉ map id prev -> r = (prev, current))
  /\ (forall i,
        (forall st, prev !! i = Some st -> id st <> stepId) ->
        (forall j st, i = S j -> prev !! j = Some st -> id st <> stepId) ->
        r.1 !! i = prev !! i)
  /\ (r.2 = current \/ r.2 ∈ map id prev).
Proof.
  intros r. unfold r, updateSteps.
  destruct (list_find (fun s => id s = stepId) prev) as [[k x]|] eqn:Hf.
  - apply list_find_Some in Hf. destruct Hf as (Hk & Hx & Hfirst).
    set (new := alter (setCompleted done) k prev).
    assert (Hid : forall g : ProgressStep -> jsstring,
              (forall y, g (setCompleted done y) = g y) -> (forall y, g (activate y) = g y) ->
              map g (if done && (k + 1 <? length new)
                     then (alter activate (k + 1) new,
                           match alter activate (k + 1) new !! (k + 1) with
                           | Some nxt => id nxt
                           | None => current
                           end)
                     else (new, current)).1 = map g prev).
    { intros g H1 H2. destruct (done && (k + 1 <? length new)); simpl.
      - rewrite (map_alter_same g activate) by exact H2.
        apply (map_alter_same g (setCompleted done)). exact H1.
      - apply (map_alter_same g (setCompleted done)). exact H1. }
    split; [apply Hid; reflexivity|]. split; [apply Hid; reflexivity|].
    split; [apply Hid; reflexivity|].
    split.
    { intros Hn. exfalso. apply Hn. rewrite <- Hx.
      apply list_elem_of_fmap_2. eapply list_elem_of_lookup_2. exact Hk. }
    split.
    { intros i Hi Hprev.
      assert (Hik : k <> i). { intros <-. exact (Hi x Hk Hx). }
      assert (Hik1 : k + 1 <> i).
      { intros <-. apply (Hprev k x); [lia|exact Hk|exact Hx]. }
      destruct (done && (k + 1 <? length new)); simpl.
      - rewrite list_lookup_alter_ne by exact Hik1.
        unfold new. rewrite list_lookup_alter_ne by exact Hik. reflexivity.
      - unfold new. rewrite list_lookup_alter_ne by exact Hik. reflexivity. }
    destruct (done && (k + 1 <? length new)); simpl; [|left; reflexivity].
    rewrite list_lookup_alter_eq.
    destruct (new !! (k + 1)) as [nxt|] eqn:Hn; simpl; [|left; reflexivity].
    right. unfold new in Hn. rewrite list_lookup_alter_ne in Hn by lia.
    apply list_elem_of_fmap_2. eapply list_elem_of_lookup_2. exact Hn.
  - simpl. repeat split; try reflexivity.
    left. reflexivity.
Qed.

Lemma updateSteps_frame_witness :
  updateSteps (lit "ranking") true (createProgressSteps worksheet_flow) (lit "setup")
  = (createProgressSteps worksheet_flow, lit "setup").
Proof.
  apply (proj1 (proj2 (proj2 (proj2 (updateSteps_frame (lit "ranking") true
           (createProgressSteps worksheet_flow) (lit "setup")))))).
  vm_compute. intros H. repeat (apply elem_of_cons in H; destruct H as [H|H]; [discriminate H|]).
  inversion H.
Defined.

(** ** Invariants of the running component *)

Lemma map_lookup {A B} (g : A -> B) (l : list A) (i : nat) : map g l !! i = g <$> l !! i.
Proof. exact (list_lookup_fmap g l i). Qed.

Lemma Forall_map_eq {A B} (g : A -> B) (P : B -> Prop) (l l' : list A) :
  map g l' = map g l -> Forall (fun x => P (g x)) l -> Forall (fun x => P (g x)) l'.
Proof.
  intros H Hl. apply (proj1 (List.Forall_map g P l')). rewrite H.
  apply (proj2 (List.Forall_map g P l)). exact Hl.
Qed.

Lemma alter_app_last {A} (g : A -> A) (l : list A) (x : A) :
  alter g (length l) (l ++ [x]) = l ++ [g x].
Proof. induction l as [|y l IH]; simpl; [reflexivity|]. f_equal. exact IH. Qed.

Section Invariants.

Variable JSON_parse : jsstring -> jsstring + value.
Variable typeErrorMessage : bool -> jsstring -> jsstring.

Local Abbreviation step' := (step JSON_parse typeErrorMessage).
Local Abbreviation run_events' := (run_events JSON_parse typeErrorMessage).
Local Abbreviation fire' := (fire JSON_parse typeErrorMessage).
Local Abbreviation useEffect' := (useEffect JSON_parse typeErrorMessage).
Local Abbreviation fetchDefinition' := (fetchDefinition JSON_parse typeErrorMessage).

Lemma stream_frame_refl f m : stream_frame f m m.
Proof. unfold stream_frame. repeat split; auto. Qed.

Lemma stream_frame_trans f m1 m2 m3 :
  stream_frame f m1 m2 -> stream_frame f m2 m3 -> stream_frame f m1 m3.
Proof.
  unfold stream_frame.
  intros (A1 & A2 & A3 & A4 & A5 & A6 & A7 & A8 & A9 & A10 & A11 & A12 & A13)
         (B1 & B2 & B3 & B4 & B5 & B6 & B7 & B8 & B9 & B10 & B11 & B12 & B13).
  repeat (split; [congruence|]).
  destruct B13 as [B|[B B']].
  - destruct A13 as [A|[A A']]; [left; congruence|right; split; congruence].
  - right. split; [exact B|]. rewrite <- A8. exact B'.
Qed.

Lemma stream_frame_alter g f m :
  (forall ft, topic (g ft) = topic ft) -> (forall ft, isCancelled (g ft) = isCancelled ft) ->
  (forall ft, artPending (g ft) = artPending ft) ->
  stream_frame f m (on_fetches (alter g f) m).
Proof.
  intros H1 H2 H3. unfold stream_frame. simpl.
  rewrite (map_alter_same topic g), (map_alter_same isCancelled g),
    (map_alter_same artPending g) by assumption.
  repeat split; auto.
Qed.

Lemma fetch_finally_frame f m : stream_frame f m (fetch_finally f m).
Proof.
  unfold fetch_finally. destruct (fetches m !! f) as [ft|] eqn:Hf; [|apply stream_frame_refl].
  pose proof (stream_frame_alter (setGenerator Finished) f m
                (fun _ => eq_refl) (fun _ => eq_refl) (fun _ => eq_refl)) as H.
  destruct (isCancelled ft) eqn:Hc; [exact H|].
  unfold stream_frame in *. simpl in *.
  destruct H as (A1 & A2 & A3 & A4 & A5 & A6 & A7 & A8 & A9 & _).
  repeat (split; [assumption || reflexivity|]).
  right. split; [reflexivity|]. rewrite map_lookup, Hf. simpl. rewrite Hc. reflexivity.
Qed.

Lemma consume_frame f outs : forall m, stream_frame f m (consume f outs m).
Proof.
  induction outs as [|o rest IH]; intros m; simpl; [apply stream_frame_refl|].
  destruct (fetches m !! f) as [ft|] eqn:Hf; [|apply stream_frame_refl].
  destruct o as [chunk| |e].
  - destruct (isCancelled ft); [apply fetch_finally_frame|].
    eapply stream_frame_trans; [|apply IH].
    pose proof (stream_frame_alter (setAccumulated (accumulatedContent ft ++ chunk)) f m
                  (fun _ => eq_refl) (fun _ => eq_refl) (fun _ => eq_refl)) as H.
    unfold stream_frame in *. simpl in *.
    destruct H as (A1 & A2 & A3 & A4 & A5 & A6 & A7 & A8 & A9 & _).
    repeat (split; [assumption || reflexivity|]). left. reflexivity.
  - apply fetch_finally_frame.
  - eapply stream_frame_trans; [|apply fetch_finally_frame].
    destruct (isCancelled ft); [apply stream_frame_refl|].
    unfold stream_frame. simpl. repeat split; auto.
Qed.

(** What settling or sending the art request changes. *)
Lemma art_progress_frame f t m :
  let m' := art_progress f t m in
  world m' = world m /\ pending m' = pending m /\ effect m' = effect m
  /\ deps m' = deps m /\ timers m' = timers m
  /\ map topic (fetches m') = map topic (fetches m)
  /\ map isCancelled (fetches m') = map isCancelled (fetches m)
  /\ view (app m') = view (app m)
  /\ definitionTopic (app m') = definitionTopic (app m)
  /\ selectedWords (app m') = selectedWords (app m)
  /\ loadingState (app m') = loadingState (app m)
  /\ sent m' = sent m ++ match t with Done _ => [] | Await req _ => [req] end
  /\ fetches m' = alter (setArtPending match t with Done _ => None | Await _ k => Some k end)
                        f (fetches m).
Proof.
  intros m'. subst m'. destruct t as [r|req k]; simpl.
  - unfold art_settled. simpl. rewrite list_lookup_alter_eq. rewrite app_nil_r.
    destruct (fetches m !! f) as [ft|]; simpl; [destruct (isCancelled ft); simpl|];
      rewrite (map_alter_same topic), (map_alter_same isCancelled) by reflexivity;
      repeat split; reflexivity.
  - rewrite (map_alter_same topic), (map_alter_same isCancelled) by reflexivity.
    repeat split; reflexivity.
Qed.

Lemma Forall_alter_art (P : Fetch -> Prop) g f (l : list Fetch) :
  (forall ft, P ft -> P (g ft)) -> Forall P l -> Forall P (alter g f l).
Proof.
  intros Hg Hl. apply Forall_alter; [exact Hl|]. intros x _. apply Hg.
Qed.

(** *** What the client lets out *)

Lemma ensure_client_ok (w : World) :
  client_ok w ->
  match ensureAiClient w with
  | (inr c, w') => c <> [] /\ client_ok w'
  | (inl _, w') => w' = w
  end.
Proof.
  intros Hok. unfold ensureAiClient. destruct (ai w) as [c|] eqn:Ha.
  - split; [apply Hok; exact Ha|exact Hok].
  - destruct (getCurrentApiKey w) as [k|]; [|reflexivity].
    destruct k as [|c k]; [reflexivity|]. simpl.
    split; [discriminate|]. intros k' [= <-]. discriminate.
Qed.

Lemma ensure_client_fail (w : World) e w' : ensureAiClient w = (inl e, w') -> w' = w.
Proof.
  unfold ensureAiClient. destruct (ai w); [discriminate|].
  destruct (getCurrentApiKey w) as [k|]; [destruct (Js.truthy k)|]; congruence.
Qed.

Lemma setApiKey_client_ok o w : client_ok (setApiKey o w).
Proof.
  unfold setApiKey, client_ok.
  destruct o as [k|]; [|discriminate].
  destruct (Js.truthy k && Js.truthy (trim k)) eqn:E; [|discriminate].
  simpl. intros k' [= <-]. apply andb_true_iff in E. destruct E as [_ E].
  destruct (trim k); [discriminate|discriminate].
Qed.

Lemma analyze_one_request text w :
  one_request w well_formed (analyzeTextForVocabulary JSON_parse text w).1
  /\ (client_ok w -> client_ok (analyzeTextForVocabulary JSON_parse text w).2).
Proof.
  unfold analyzeTextForVocabulary.
  pose proof (ensure_client_ok w) as Hc.
  destruct (ensureAiClient w) as [[e|c] w'] eqn:He; simpl.
  - split; [exact I|]. intros H. rewrite (Hc H). exact H.
  - destruct (Js.truthy (trim text)) eqn:Ht; simpl.
    + split; [|intros H; exact (proj2 (Hc H))]. split.
      * intros r. eexists. reflexivity.
      * intros H. split; [exact (proj1 (Hc H))|].
        intros Hb. apply blank_iff_trim in Hb. congruence.
    + split; [exact I|intros H; exact (proj2 (Hc H))].
Qed.

Lemma worksheet_one_request text words w :
  one_request w well_formed
    (generateWorksheetData JSON_parse typeErrorMessage text words w).1
  /\ (client_ok w ->
      client_ok (generateWorksheetData JSON_parse typeErrorMessage text words w).2).
Proof.
  unfold generateWorksheetData.
  pose proof (ensure_client_ok w) as Hc.
  destruct (ensureAiClient w) as [[e|c] w'] eqn:He; simpl.
  - split; [exact I|]. intros H. rewrite (Hc H). exact H.
  - destruct (Js.truthy (trim text)) eqn:Ht; simpl.
    + destruct (length words =? 0) eqn:Hw; simpl.
      * split; [exact I|intros H; exact (proj2 (Hc H))].
      * split; [|intros H; exact (proj2 (Hc H))]. split.
        -- intros r. eexists. reflexivity.
        -- intros H. split; [exact (proj1 (Hc H))|]. split.
           ++ intros Hb. apply blank_iff_trim in Hb. congruence.
           ++ intros ->. discriminate Hw.
    + split; [exact I|intros H; exact (proj2 (Hc H))].
Qed.

Lemma asciiArt_one_request topic w :
  one_request w (fun req => topic <> [] -> well_formed req)
    (generateAsciiArt JSON_parse typeErrorMessage topic w).1
  /\ (client_ok w -> client_ok (generateAsciiArt JSON_parse typeErrorMessage topic w).2).
Proof.
  unfold generateAsciiArt.
  pose proof (ensure_client_ok w) as Hc.
  destruct (ensureAiClient w) as [[e|c] w'] eqn:He; simpl.
  - split; [exact I|]. intros H. rewrite (Hc H). exact H.
  - split; [|intros H; exact (proj2 (Hc H))]. split.
    + intros r. destruct (ascii_try JSON_parse typeErrorMessage r); eexists; reflexivity.
    + intros H Ht. split; [exact (proj1 (Hc H))|exact Ht].
Qed.

Lemma streamDefinition_requests topic w :
  let '(_, _, reqs, w') := streamDefinition topic w in
  length reqs <= 1
  /\ (client_ok w -> client_ok w' /\ (topic <> [] -> Forall well_formed reqs)).
Proof.
  unfold streamDefinition.
  pose proof (ensure_client_ok w) as Hc.
  destruct (ensureAiClient w) as [[e|c] w'] eqn:He; simpl.
  - split; [lia|]. intros H. rewrite (Hc H). split; [exact H|constructor].
  - split; [lia|]. intros H. split; [exact (proj2 (Hc H))|].
    intros Ht. constructor; [|constructor]. split; [exact (proj1 (Hc H))|exact Ht].
Qed.

(** *** Frames *)

Lemma sends_same n m m' : sent m' = sent m -> world m' = world m -> sends n m m'.
Proof.
  intros Hs Hw. exists []. rewrite app_nil_r. split; [exact Hs|]. split; [simpl; lia|].
  rewrite Hw. intros H. split; [exact H|constructor].
Qed.

Lemma sends_trans a b m1 m2 m3 : sends a m1 m2 -> sends b m2 m3 -> sends (a + b) m1 m3.
Proof.
  intros (n1 & S1 & L1 & W1) (n2 & S2 & L2 & W2). exists (n1 ++ n2).
  split; [rewrite S2, S1, app_assoc; reflexivity|].
  split; [rewrite length_app; lia|].
  intros H. destruct (W1 H) as [H1 F1]. destruct (W2 H1) as [H2 F2].
  split; [exact H2|]. apply Forall_app. split; assumption.
Qed.

Lemma sends_weaken a b m m' : a <= b -> sends a m m' -> sends b m m'.
Proof. intros Hab (n & S & L & W). exists n. split; [exact S|]. split; [lia|exact W]. Qed.

Lemma view_invariant_frame m m' :
  deps m' = deps m -> effect m' = effect m ->
  map topic (fetches m') = map topic (fetches m) ->
  (Forall (fun ft => forall k, artPending ft = Some k -> settles k) (fetches m) ->
   Forall (fun ft => forall k, artPending ft = Some k -> settles k) (fetches m')) ->
  (exists new, sent m' = sent m ++ new) ->
  view (app m') = view (app m) ->
  definitionTopic (app m') = definitionTopic (app m) ->
  NoDup (selectedWords (app m')) ->
  ((forall i, pending m' !! i = None)
   \/ (pending m' = pending m /\ loadingState (app m') = loadingState (app m))) ->
  view_invariant m -> view_invariant m'.
Proof.
  intros Hd He Ht Ha (new & Hs) Hv Hdt Hsel Hp
    ((E1 & E2 & E3 & E4) & (P1 & P2) & (L1 & L2) & _).
  split; [|split; [|split]].
  - unfold effect_invariant. rewrite Hd, He, Hv, Hdt.
    split; [exact E1|]. split; [exact E2|]. split; [exact E3|].
    intros f Hf. destruct (E4 f Hf) as (ft & Hft & Htop).
    assert (H : map topic (fetches m') !! f = Some (topic ft))
      by (rewrite Ht, map_lookup, Hft; reflexivity).
    rewrite map_lookup in H. destruct (fetches m' !! f) as [ft'|]; [|discriminate].
    exists ft'. split; [reflexivity|]. injection H as H. congruence.
  - split; [|apply Ha; exact P2].
    intros i op Hi. destruct Hp as [Hp|[Hp _]]; [rewrite Hp in Hi; discriminate|].
    rewrite Hp in Hi. rewrite Hs. destruct (P1 i op Hi) as [H1 H2].
    split; [rewrite length_app; lia|exact H2].
  - unfold loading_invariant. destruct Hp as [Hp|[Hp Hl]].
    + split; intros i; rewrite (Hp i); intros; exfalso; eapply is_Some_None; eassumption.
    + rewrite Hp, Hv, Hl. split; [exact L1|exact L2].
  - exact Hsel.
Qed.

Lemma idle_no_pending m :
  view_invariant m -> loadingState (app m) = idle -> forall i, pending m !! i = None.
Proof.
  intros (_ & _ & (_ & L2) & _) Hl i.
  destruct (pending m !! i) as [op|] eqn:Hi; [|reflexivity].
  destruct (L2 i (ex_intro _ op Hi)) as [_ [H|H]]; congruence.
Qed.

Lemma view_invariant_stream f m m' :
  stream_frame f m m' -> fetch_invariant m -> view_invariant m -> view_invariant m'.
Proof.
  intros (A1 & A2 & A3 & A4 & A5 & A6 & A7 & A8 & A9 & A10 & A11 & A12 & A13) Hf Hv.
  apply (view_invariant_frame m m'); try assumption.
  - apply (Forall_map_eq artPending (fun o => forall k, o = Some k -> settles k)). exact A9.
  - exists []. rewrite app_nil_r. exact A2.
  - rewrite A12. apply Hv.
  - destruct A13 as [H|[_ H]]; [right; split; assumption|left].
    rewrite map_lookup in H. destruct (fetches m !! f) as [ft|] eqn:Hft; [|discriminate].
    injection H as Hc.
    assert (He : effect m = Some f).
    { destruct (decide (effect m = Some f)) as [E|E]; [exact E|].
      rewrite (proj1 (Hf f ft Hft) E) in Hc. discriminate. }
    destruct Hv as ((_ & _ & E3 & _) & _ & (_ & L2) & _).
    intros i. rewrite A3. destruct (pending m !! i) as [op|] eqn:Hi; [|reflexivity].
    exfalso. destruct (L2 i (ex_intro _ op Hi)) as [Hnd _].
    apply E3 in Hnd. congruence.
Qed.

Lemma view_invariant_art f t m :
  match t with Done _ => True | Await _ k => settles k end ->
  view_invariant m -> view_invariant (art_progress f t m).
Proof.
  intros Ht Hv.
  destruct (art_progress_frame f t m)
    as (A1 & A2 & A3 & A4 & A5 & A6 & A7 & A8 & A9 & A10 & A11 & A12 & A13).
  apply (view_invariant_frame m); try assumption.
  - rewrite A13. apply Forall_alter_art. intros ft _ k Hk.
    destruct t as [r|req k0]; simpl in Hk; [discriminate|]. injection Hk as <-. exact Ht.
  - eexists. exact A12.
  - rewrite A10. apply Hv.
  - right. split; assumption.
Qed.

Lemma updateProgressStep_same stepId done s :
  view (updateProgressStep stepId done s) = view s
  /\ loadingState (updateProgressStep stepId done s) = loadingState s
  /\ definitionTopic (updateProgressStep stepId done s) = definitionTopic s
  /\ selectedWords (updateProgressStep stepId done s) = selectedWords s.
Proof. unfold updateProgressStep. destruct (updateSteps _ _ _ _). repeat split. Qed.

(** What starting a run of the definition effect changes. *)
Lemma fetchDefinition_frame m :
  let m' := fetchDefinition' m in
  pending m' = pending m /\ deps m' = deps m
  /\ view (app m') = view (app m)
  /\ definitionTopic (app m') = definitionTopic (app m)
  /\ selectedWords (app m') = selectedWords (app m)
  /\ effect m' = Some (length (fetches m))
  /\ map topic (fetches m') = map topic (fetches m) ++ [definitionTopic (app m)]
  /\ (Forall (fun ft => forall k, artPending ft = Some k -> settles k) (fetches m) ->
      Forall (fun ft => forall k, artPending ft = Some k -> settles k) (fetches m'))
  /\ exists new, sent m' = sent m ++ new /\ length new <= 2
       /\ (client_ok (world m) ->
           client_ok (world m')
           /\ (definitionTopic (app m) <> [] -> Forall well_formed new)).
Proof.
  intros m'. subst m'. unfold fetchDefinition.
  pose proof (asciiArt_one_request (definitionTopic (app m)) (world m)) as [Hart Hw1].
  cbn [world on_app].
  destruct (generateAsciiArt JSON_parse typeErrorMessage (definitionTopic (app m)) (world m))
    as [artTask w1]. simpl in Hart, Hw1.
  match goal with |- context [art_progress ?f ?t ?x] => set (mb := x) end.
  destruct (art_progress_frame (length (fetches m)) artTask mb)
    as (A1 & A2 & A3 & A4 & A5 & A6 & A7 & A8 & A9 & A10 & A11 & A12 & A13).
  set (mc := art_progress (length (fetches m)) artTask mb) in *.
  pose proof (streamDefinition_requests (definitionTopic (app m)) (world mc)) as Hstr.
  destruct (streamDefinition (definitionTopic (app m)) (world mc)) as [[[outs g] reqs] w2].
  destruct Hstr as [Hlen Hw2].
  match goal with |- context [consume ?f ?o ?x] => set (md := x) end.
  destruct (consume_frame (length (fetches m)) outs md)
    as (B1 & B2 & B3 & B4 & B5 & B6 & B7 & B8 & B9 & B10 & B11 & B12 & B13).
  rewrite B3, B5, B10, B11, B12, B4, B7.
  assert (Hsettle : match artTask with Done _ => True | Await _ k => settles k end).
  { destruct artTask; [exact I|apply Hart]. }
  split; [unfold md; simpl; rewrite A2; reflexivity|].
  split; [unfold md; simpl; rewrite A4; reflexivity|].
  split; [unfold md; simpl; rewrite A8; reflexivity|].
  split; [unfold md; simpl; rewrite A9; reflexivity|].
  split; [unfold md; simpl; rewrite A10; reflexivity|].
  split; [unfold md; simpl; rewrite A3; reflexivity|].
  split.
  { unfold md. simpl. rewrite (map_alter_same topic) by reflexivity. rewrite A6.
    unfold mb. simpl. rewrite map_app. reflexivity. }
  split.
  { intros Hall.
    apply (Forall_map_eq artPending (fun o => forall k, o = Some k -> settles k) _ _ B9).
    unfold md. simpl. apply Forall_alter_art; [intros ft H; exact H|].
    rewrite A13. apply Forall_alter_art.
    - intros ft _ k Hk. destruct artTask as [r|req k0]; simpl in Hk; [discriminate|].
      injection Hk as <-. exact Hsettle.
    - unfold mb. simpl. apply Forall_app. split; [exact Hall|].
      constructor; [|constructor]. simpl. discriminate. }
  exists (match artTask with Done _ => [] | Await req _ => [req] end ++ reqs).
  split.
  { rewrite B2. unfold md. simpl. rewrite A12. unfold mb. simpl.
    rewrite app_assoc. reflexivity. }
  split.
  { rewrite length_app. destruct artTask; simpl; lia. }
  intros Hok. rewrite B1. unfold md. cbn [world on_sent on_fetches on_world].
  assert (Hc : client_ok (world mc)).
  { rewrite A1. unfold mb. simpl. apply Hw1. exact Hok. }
  destruct (Hw2 Hc) as [Hok2 Hreqs]. split; [exact Hok2|].
  intros Ht. apply Forall_app. split; [|apply Hreqs; exact Ht].
  destruct artTask as [r|req k]; [constructor|].
  constructor; [|constructor]. apply Hart; assumption.
Qed.

Lemma cancel_registered_frame (h : App.State -> App.State) m :
  let m0 := match effect m with
            | Some f => on_fetches (alter cancel f) (on_app h m)
            | None => on_app h m
            end in
  app m0 = h (app m) /\ world m0 = world m /\ sent m0 = sent m /\ pending m0 = pending m
  /\ timers m0 = timers m
  /\ map topic (fetches m0) = map topic (fetches m)
  /\ map artPending (fetches m0) = map artPending (fetches m)
  /\ length (fetches m0) = length (fetches m).
Proof.
  intros m0. subst m0. destruct (effect m) as [f|]; simpl.
  - rewrite (map_alter_same topic), (map_alter_same artPending), length_alter by reflexivity.
    repeat split.
  - repeat split.
Qed.

(** The effect after a render that followed a state update [h]. *)
Lemma useEffect_after (h : App.State -> App.State) m :
  view_invariant m ->
  selectedWords (h (app m)) = selectedWords (app m) ->
  loadingState (h (app m)) = loadingState (app m) ->
  (view (h (app m)) = definition ->
   definitionTopic (h (app m)) <> [] /\ forall i, pending m !! i = None) ->
  let m' := useEffect' (on_app h m) in
  view_invariant m'
  /\ sends (if bool_decide (view (h (app m)) = definition) then 2 else 0) m m'
  /\ view (app m') = view (h (app m))
  /\ pending m' = pending m
  /\ (view (h (app m)) <> definition ->
      loadingState (app m') = loadingState (app m)
      /\ sent m' = sent m /\ world m' = world m).
Proof.
  intros Hv Hsel Hload Hdef m'. subst m'.
  pose proof Hv as ((E1 & E2 & E3 & E4) & (P1 & P2) & (L1 & L2) & Hnd).
  unfold useEffect. cbn [app on_app deps effect].
  case_bool_decide as Hd.
  - (* the dependencies are the old ones *)
    rewrite E1 in Hd. injection Hd as Hview Htopic.
    split; [|split; [|split; [|split]]].
    + apply (view_invariant_frame m); simpl; try reflexivity; try assumption.
      * auto.
      * exists []. rewrite app_nil_r. reflexivity.
      * rewrite Hsel. exact Hnd.
      * right. split; [reflexivity|exact Hload].
    + apply sends_same; reflexivity.
    + reflexivity.
    + reflexivity.
    + intros _. simpl. auto.
  - destruct (cancel_registered_frame h m) as (C1 & C2 & C3 & C4 & C5 & C6 & C7 & C8).
    change (effect (on_app h m)) with (effect m).
    set (m0 := match effect m with
               | Some f => on_fetches (alter cancel f) (on_app h m)
               | None => on_app h m
               end) in *.
    set (d := (view (h (app m)), definitionTopic (h (app m)))) in *.
    set (m1 := on_effect (fun _ => None) (on_deps (fun _ => d) m0)).
    assert (Happ1 : app m1 = h (app m)) by exact C1.
    change (app (on_effect (fun _ => None) (on_deps (fun _ => d) m0))) with (app m1).
    rewrite Happ1.
    assert (Harts : Forall (fun ft => forall k, artPending ft = Some k -> settles k)
                      (fetches m1)).
    { apply (Forall_map_eq artPending (fun o => forall k, o = Some k -> settles k)
               (fetches m) (fetches m1) C7). exact P2. }
    destruct (negb (bool_decide (view (h (app m)) = definition))
              || negb (Js.truthy (definitionTopic (h (app m))))) eqn:Hg.
    + (* no run is started *)
      assert (Hnot : view (h (app m)) <> definition).
      { intros Hvd. destruct (Hdef Hvd) as [Hne _].
        rewrite bool_decide_eq_true_2 in Hg by exact Hvd. simpl in Hg.
        destruct (definitionTopic (h (app m))); [congruence|discriminate]. }
      split; [|split; [|split; [|split]]].
      * split; [|split; [|split]].
        -- unfold effect_invariant. rewrite Happ1. cbn [deps effect m1 on_effect on_deps].
           split; [reflexivity|]. split; [intros Hvd; congruence|].
           split; [split; [intros _; exact Hnot|reflexivity]|]. discriminate.
        -- split; [|exact Harts].
           intros i op Hi. change (pending m1) with (pending m0) in Hi.
           change (sent m1) with (sent m0). rewrite C3. rewrite C4 in Hi. exact (P1 i op Hi).
        -- unfold loading_invariant. change (pending m1) with (pending m0).
           rewrite C4, Happ1, Hload. split; [exact L1|].
           intros i Hi. split; [exact Hnot|]. exact (proj2 (L2 i Hi)).
        -- rewrite Happ1, Hsel. exact Hnd.
      * apply sends_same; [exact C3|exact C2].
      * rewrite Happ1. reflexivity.
      * exact C4.
      * intros _. rewrite Happ1. split; [exact Hload|]. split; [exact C3|exact C2].
    + (* a new run is started *)
      apply orb_false_iff in Hg. destruct Hg as [Hg1 Hg2].
      apply negb_false_iff in Hg1. apply bool_decide_eq_true in Hg1.
      destruct (Hdef Hg1) as [Hne Hnone].
      destruct (fetchDefinition_frame m1)
        as (F1 & F2 & F3 & F4 & F5 & F6 & F7 & F8 & new & F9 & F10 & F11).
      rewrite Happ1 in F3, F4, F5, F7, F11.
      split; [|split; [|split; [|split]]].
      * split; [|split; [|split]].
        -- unfold effect_invariant. rewrite F2, F3, F4, F6.
           split; [reflexivity|]. split; [intros _; exact Hne|].
           split; [split; [discriminate|congruence]|].
           intros f [= <-].
           assert (H : map topic (fetches (fetchDefinition' m1)) !! length (fetches m1)
                       = Some (definitionTopic (h (app m)))).
           { rewrite F7. rewrite lookup_app_r by (rewrite length_map; lia).
             rewrite length_map, Nat.sub_diag. reflexivity. }
           rewrite map_lookup in H.
           destruct (fetches (fetchDefinition' m1) !! length (fetches m1)) as [ft|] eqn:Hft;
             [|discriminate].
           exists ft. split; [exact Hft|]. injection H as H. exact H.
        -- split; [|apply F8; exact Harts].
           intros i op Hi. rewrite F1 in Hi. change (pending m1) with (pending m0) in Hi.
           rewrite C4, Hnone in Hi. discriminate.
        -- unfold loading_invariant. rewrite F1. change (pending m1) with (pending m0).
           rewrite C4. split; [exact L1|].
           intros i Hi. rewrite Hnone in Hi. destruct Hi as [x Hx]. discriminate.
        -- rewrite F5, Hsel. exact Hnd.
      * rewrite bool_decide_eq_true_2 by exact Hg1.
        exists new. change (sent m1) with (sent m0) in F9. rewrite C3 in F9.
        split; [exact F9|]. split; [exact F10|].
        intros Hok. change (world m1) with (world m0) in F11. rewrite C2 in F11.
        destruct (F11 Hok) as [H1 H2]. split; [exact H1|exact (H2 Hne)].
      * exact F3.
      * rewrite F1. exact C4.
      * intros Hnot. congruence.
Qed.

(** *** The handlers *)

Lemma updateProgressStep_view stepId done s :
  view (updateProgressStep stepId done s) = view s.
Proof. apply updateProgressStep_same. Qed.

Lemma updateProgressStep_loading stepId done s :
  loadingState (updateProgressStep stepId done s) = loadingState s.
Proof. apply updateProgressStep_same. Qed.

Lemma updateProgressStep_topic stepId done s :
  definitionTopic (updateProgressStep stepId done s) = definitionTopic s.
Proof. apply updateProgressStep_same. Qed.

Lemma updateProgressStep_selected stepId done s :
  selectedWords (updateProgressStep stepId done s) = selectedWords s.
Proof. apply updateProgressStep_same. Qed.

Lemma view_invariant_quiet m m' :
  deps m' = deps m -> effect m' = effect m -> fetches m' = fetches m ->
  sent m' = sent m ->
  view (app m') = view (app m) ->
  definitionTopic (app m') = definitionTopic (app m) ->
  NoDup (selectedWords (app m')) ->
  ((forall i, pending m' !! i = None)
   \/ (pending m' = pending m /\ loadingState (app m') = loadingState (app m))) ->
  view_invariant m -> view_invariant m'.
Proof.
  intros Hd He Hf Hs Hv Ht Hsel Hp Hinv.
  apply (view_invariant_frame m m'); try assumption.
  - rewrite Hf. reflexivity.
  - rewrite Hf. auto.
  - exists []. rewrite app_nil_r. exact Hs.
Qed.

Lemma sends_world n m m' :
  sent m' = sent m -> (client_ok (world m) -> client_ok (world m')) -> sends n m m'.
Proof.
  intros Hs Hw. exists []. rewrite app_nil_r. split; [exact Hs|]. split; [simpl; lia|].
  intros H. split; [exact (Hw H)|constructor].
Qed.

Lemma sends_one m m' req :
  sent m' = sent m ++ [req] ->
  (client_ok (world m) -> client_ok (world m') /\ well_formed req) ->
  sends 1 m m'.
Proof.
  intros Hs Hw. exists [req]. split; [exact Hs|]. split; [simpl; lia|].
  intros H. destruct (Hw H) as [H1 H2]. split; [exact H1|]. constructor; [exact H2|constructor].
Qed.

Ltac frame_side :=
  simpl;
  rewrite ?updateProgressStep_view, ?updateProgressStep_loading,
    ?updateProgressStep_topic, ?updateProgressStep_selected;
  try reflexivity.

Lemma resultsShown_idle s : resultsShown s = true -> view s = analyzer /\ loadingState s = idle.
Proof.
  unfold resultsShown, isLoading. intros H.
  apply andb_true_iff in H. destruct H as [H _].
  apply andb_true_iff in H. destruct H as [H1 H2].
  apply bool_decide_eq_true in H1. apply negb_true_iff, negb_false_iff in H2.
  apply bool_decide_eq_true in H2. auto.
Qed.

(** A handler suspended on its request: the map of suspended handlers
    holds it alone. *)
Lemma view_invariant_suspend m m' op :
  (forall i, pending m !! i = None) ->
  deps m' = deps m -> effect m' = effect m -> fetches m' = fetches m ->
  (exists req, sent m' = sent m ++ [req]) ->
  pending m' = <[length (sent m) := op]> (pending m) ->
  match op with PAnalyze k => settles k | PWorksheet k => settles k end ->
  view (app m') = view (app m) -> view (app m) = analyzer ->
  definitionTopic (app m') = definitionTopic (app m) ->
  NoDup (selectedWords (app m')) ->
  (loadingState (app m') = analyzing \/ loadingState (app m') = generating_worksheet) ->
  view_invariant m -> view_invariant m'.
Proof.
  intros Hnone Hd He Hf (req & Hs) Hp Hop Hv Hva Ht Hsel Hl
    ((E1 & E2 & E3 & E4) & (P1 & P2) & (L1 & L2) & _).
  assert (Hkey : forall i, is_Some (pending m' !! i) -> i = length (sent m)).
  { intros i [x Hx]. rewrite Hp in Hx.
    destruct (decide (length (sent m) = i)) as [->|Hne]; [reflexivity|].
    rewrite lookup_insert_ne in Hx by exact Hne. rewrite Hnone in Hx. discriminate. }
  split; [|split; [|split]].
  - unfold effect_invariant. rewrite Hd, He, Hv, Ht, Hf. auto.
  - split; [|rewrite Hf; exact P2].
    intros i op' Hi. pose proof (Hkey i (ex_intro _ op' Hi)) as ->.
    rewrite Hp, lookup_insert_eq in Hi. injection Hi as <-.
    split; [rewrite Hs, length_app; simpl; lia|exact Hop].
  - split.
    + intros i j Hi Hj. rewrite (Hkey i Hi), (Hkey j Hj). reflexivity.
    + intros i _. split; [rewrite Hv, Hva; discriminate|exact Hl].
  - exact Hsel.
Qed.

Lemma handleAnalyze_view text m :
  view_invariant m -> view (app m) = analyzer -> loadingState (app m) = idle ->
  view_invariant (handleAnalyze JSON_parse text m)
  /\ sends 1 m (handleAnalyze JSON_parse text m).
Proof.
  intros Hv Hview Hidle. pose proof (idle_no_pending m Hv Hidle) as Hnone.
  unfold handleAnalyze. destruct (apiKeyConfigured (app m)); cbn [negb].
  2: { split; [|apply sends_same; reflexivity].
       apply (view_invariant_quiet m); try reflexivity;
         [apply Hv|right; split; reflexivity|exact Hv]. }
  match goal with
  | |- context [analyzeTextForVocabulary JSON_parse text ?w] =>
      pose proof (analyze_one_request text w) as [Hone Hw];
      destruct (analyzeTextForVocabulary JSON_parse text w) as [t w']
  end.
  simpl in Hone, Hw.
  destruct t as [r|req k]; [destruct r as [e|words]|]; simpl analyze_progress.
  - split; [|apply sends_world; [reflexivity|exact Hw]].
    apply (view_invariant_quiet m); frame_side; [constructor|left; exact Hnone|exact Hv].
  - split; [|apply sends_world; [reflexivity|exact Hw]].
    apply (view_invariant_quiet m); frame_side; [constructor|left; exact Hnone|exact Hv].
  - destruct Hone as [Hk Hreq]. split.
    + apply (view_invariant_suspend m _ (PAnalyze k)); frame_side;
        try assumption; [eexists; reflexivity|constructor|left; reflexivity].
    + apply (sends_one _ _ req); [reflexivity|].
      intros H. split; [exact (Hw H)|exact (Hreq H)].
Qed.

Lemma handleGenerateWorksheet_view m :
  view_invariant m -> view (app m) = analyzer -> loadingState (app m) = idle ->
  view_invariant (handleGenerateWorksheet JSON_parse typeErrorMessage m)
  /\ sends 1 m (handleGenerateWorksheet JSON_parse typeErrorMessage m).
Proof.
  intros Hv Hview Hidle. pose proof (idle_no_pending m Hv Hidle) as Hnone.
  unfold handleGenerateWorksheet. destruct (length (selectedWords (app m)) =? 0).
  { split; [exact Hv|apply sends_same; reflexivity]. }
  match goal with
  | |- context [generateWorksheetData JSON_parse typeErrorMessage ?x ?ws ?w] =>
      pose proof (worksheet_one_request x ws w) as [Hone Hw];
      destruct (generateWorksheetData JSON_parse typeErrorMessage x ws w) as [t w']
  end.
  simpl in Hone, Hw.
  destruct t as [r|req k]; [destruct r as [e|data]|]; simpl worksheet_progress.
  - split; [|apply sends_world; [reflexivity|exact Hw]].
    apply (view_invariant_quiet m); frame_side; [apply Hv|left; exact Hnone|exact Hv].
  - split; [|apply sends_world; [reflexivity|exact Hw]].
    apply (view_invariant_quiet m); frame_side; [apply Hv|left; exact Hnone|exact Hv].
  - destruct Hone as [Hk Hreq]. split.
    + apply (view_invariant_suspend m _ (PWorksheet k)); frame_side;
        try assumption; [eexists; reflexivity|apply Hv|right; reflexivity].
    + apply (sends_one _ _ req); [reflexivity|].
      intros H. split; [exact (Hw H)|exact (Hreq H)].
Qed.

Lemma settled_view (h : App.State -> App.State) i m :
  view_invariant m -> is_Some (pending m !! i) ->
  (forall s, view (h s) = view s) -> (forall s, definitionTopic (h s) = definitionTopic s) ->
  (forall s, selectedWords (h s) = selectedWords s) ->
  forall m', app m' = h (app m) -> deps m' = deps m -> effect m' = effect m ->
    fetches m' = fetches m -> sent m' = sent m -> pending m' = delete i (pending m) ->
    view_invariant m'.
Proof.
  intros Hv Hi H1 H2 H3 m' Ha Hd He Hf Hs Hp.
  apply (view_invariant_quiet m); try assumption.
  - rewrite Ha. apply H1.
  - rewrite Ha. apply H2.
  - rewrite Ha, H3. apply Hv.
  - left. intros j. rewrite Hp.
    destruct (decide (i = j)) as [->|Hne]; [apply lookup_delete_eq|].
    rewrite lookup_delete_ne by exact Hne.
    destruct (pending m !! j) as [op|] eqn:Hj; [|reflexivity].
    exfalso. apply Hne.
    destruct Hv as (_ & _ & (L1 & _) & _). apply L1; [exact Hi|eexists; exact Hj].
Qed.

Lemma fire_view a m :
  view_invariant m ->
  view_invariant (fire' a m)
  /\ sent (fire' a m) = sent m /\ world (fire' a m) = world m
  /\ loadingState (app (fire' a m)) = loadingState (app m)
  /\ pending (fire' a m) = pending m
  /\ (view (app m) <> definition -> view (app (fire' a m)) <> definition).
Proof.
  intros Hv. destruct a as [stepId|words|data]; simpl fire.
  - split; [|frame_side; repeat split; auto].
    apply (view_invariant_quiet m); frame_side; [apply Hv|right; split; reflexivity|exact Hv].
  - split; [|repeat split; auto].
    apply (view_invariant_quiet m); frame_side; [apply Hv|right; split; reflexivity|exact Hv].
  - destruct (useEffect_after
                (fun s => setShowProgress false (setView worksheet
                            (setWorksheetData (Some data) s))) m Hv eq_refl eq_refl)
      as (U1 & U2 & U3 & U4 & U5); [simpl; discriminate|].
    destruct U5 as (U5 & U6 & U7); [simpl; discriminate|].
    split; [exact U1|]. split; [exact U6|]. split; [exact U7|]. split; [exact U5|].
    split; [exact U4|]. intros _. rewrite U3. simpl. discriminate.
Qed.

(** Every event keeps the invariants and sends no more than its budget. *)
Lemma step_view ev m :
  fetch_invariant m -> view_invariant m ->
  view_invariant (step' ev m) /\ sends (budget ev) m (step' ev m).
Proof.
  intros Hf Hv.
  assert (Hstay : forall n, view_invariant m /\ sends n m m)
    by (intros n; split; [exact Hv|apply sends_same; reflexivity]).
  destruct ev as [text| |word| |word| |key|i r|f r|f sev|ms]; simpl step; simpl budget.
  - (* Analyze *)
    destruct (bool_decide (view (app m) = analyzer) && apiKeyConfigured (app m)
              && Js.truthy (trim text) && negb (isLoading (app m))) eqn:Hg; [|apply Hstay].
    apply andb_true_iff in Hg. destruct Hg as [Hg Hl].
    apply andb_true_iff in Hg. destruct Hg as [Hg _].
    apply andb_true_iff in Hg. destruct Hg as [Hg _].
    apply bool_decide_eq_true in Hg. unfold isLoading in Hl.
    apply negb_true_iff, negb_false_iff, bool_decide_eq_true in Hl.
    apply handleAnalyze_view; assumption.
  - (* Generate worksheet *)
    destruct (resultsShown (app m) && negb (length (selectedWords (app m)) =? 0)) eqn:Hg;
      [|apply Hstay].
    apply andb_true_iff in Hg. destruct Hg as [Hg _].
    apply resultsShown_idle in Hg. destruct Hg as [Hg Hl].
    apply handleGenerateWorksheet_view; assumption.
  - (* a word is clicked *)
    destruct (resultsShown (app m) && negb (length (analyzedWords (app m)) =? 0)) eqn:Hg;
      [|apply Hstay].
    apply andb_true_iff in Hg. destruct Hg as [Hg _].
    apply resultsShown_idle in Hg. destruct Hg as [Hg Hl].
    destruct (useEffect_after (handleWordClick word) m Hv) as (U1 & U2 & _).
    + unfold handleWordClick. destruct (negb _); reflexivity.
    + unfold handleWordClick. destruct (negb _); reflexivity.
    + intros Hd. split; [|apply idle_no_pending; assumption].
      unfold handleWordClick in *. destruct (cleanWord word) as [|c t]; simpl in *.
      * congruence.
      * discriminate.
    + split; [exact U1|]. eapply sends_weaken; [|exact U2].
      destruct (bool_decide _); lia.
  - (* back *)
    destruct (negb (bool_decide (view (app m) = analyzer))); [|apply Hstay].
    destruct (useEffect_after handleBackToAnalyzer m Hv eq_refl eq_refl)
      as (U1 & U2 & _); [simpl; discriminate|].
    split; [exact U1|]. eapply sends_weaken; [|exact U2]. simpl. lia.
  - (* a check box *)
    destruct (resultsShown (app m) && bool_decide (word ∈ analyzedWords (app m)));
      [|apply Hstay].
    split; [|apply sends_same; reflexivity].
    apply (view_invariant_quiet m); frame_side;
      [apply toggle_NoDup; apply Hv|right; split; reflexivity|exact Hv].
  - (* clear *)
    destruct (bool_decide (view (app m) = analyzer) && apiKeyConfigured (app m)
              && negb (isLoading (app m))); [|apply Hstay].
    split; [|apply sends_same; reflexivity].
    apply (view_invariant_quiet m); frame_side;
      [constructor|right; split; reflexivity|exact Hv].
  - (* the key changes *)
    unfold handleApiKeyChange. split.
    + apply (view_invariant_quiet m); try reflexivity.
      * simpl. destruct (match key with Some k => Js.truthy k | None => false end);
          reflexivity.
      * simpl. destruct (match key with Some k => Js.truthy k | None => false end);
          reflexivity.
      * simpl. destruct (match key with Some k => Js.truthy k | None => false end);
          apply Hv.
      * right. split; [reflexivity|]. simpl.
        destruct (match key with Some k => Js.truthy k | None => false end); reflexivity.
      * exact Hv.
    + apply sends_world; [reflexivity|]. intros _. simpl. apply setApiKey_client_ok.
  - (* a request settles *)
    destruct (pending m !! i) as [[k|k]|] eqn:Hi; [| |apply Hstay].
    + destruct Hv as (Hv1 & (P1 & P2) & Hv3). destruct (P1 i _ Hi) as [_ Hk].
      destruct (Hk r) as [res Hres]. rewrite Hres. simpl analyze_progress.
      assert (Hv : view_invariant m) by (split; [exact Hv1|split; [split|]; assumption]).
      split; [|destruct res; apply sends_same; reflexivity].
      destruct res as [e|words]; simpl analyze_settled.
      * eapply (settled_view
                  (fun s => setLoadingState idle (setShowProgress false
                     (setError (Some (messageOr (lit "Failed to analyze text.") e)) s)))
                  i m Hv (ex_intro _ _ Hi));
          [| | |reflexivity|reflexivity|reflexivity|reflexivity|reflexivity|reflexivity];
          intros s; reflexivity.
      * eapply (settled_view
                  (fun s => setLoadingState idle (updateProgressStep (lit "finalizing") true s))
                  i m Hv (ex_intro _ _ Hi));
          [| | |reflexivity|reflexivity|reflexivity|reflexivity|reflexivity|reflexivity];
          intros s; frame_side.
    + destruct Hv as (Hv1 & (P1 & P2) & Hv3). destruct (P1 i _ Hi) as [_ Hk].
      destruct (Hk r) as [res Hres]. rewrite Hres. simpl worksheet_progress.
      assert (Hv : view_invariant m) by (split; [exact Hv1|split; [split|]; assumption]).
      split; [|destruct res; apply sends_same; reflexivity].
      destruct res as [e|data]; simpl worksheet_settled.
      * eapply (settled_view
                  (fun s => setLoadingState idle (setShowProgress false
                     (setError (Some (messageOr (lit "Failed to generate worksheet.") e)) s)))
                  i m Hv (ex_intro _ _ Hi));
          [| | |reflexivity|reflexivity|reflexivity|reflexivity|reflexivity|reflexivity];
          intros s; reflexivity.
      * eapply (settled_view
                  (fun s => setLoadingState idle (updateProgressStep (lit "formatting") true s))
                  i m Hv (ex_intro _ _ Hi));
          [| | |reflexivity|reflexivity|reflexivity|reflexivity|reflexivity|reflexivity];
          intros s; frame_side.
  - (* the art request settles *)
    destruct (fetches m !! f) as [ft|] eqn:Hft; [|apply Hstay].
    destruct (artPending ft) as [k|] eqn:Hk; [|apply Hstay].
    assert (Hs : settles k).
    { destruct Hv as (_ & (_ & P2) & _). rewrite Forall_forall in P2.
      apply (P2 ft); [eapply list_elem_of_lookup_2; exact Hft|exact Hk]. }
    destruct (Hs r) as [res Hres]. rewrite Hres.
    split; [apply view_invariant_art; [exact I|exact Hv]|].
    destruct (art_progress_frame f (Done res) m)
      as (A1 & _ & _ & _ & _ & _ & _ & _ & _ & _ & _ & A12 & _).
    apply sends_same; [rewrite A12, app_nil_r; reflexivity|exact A1].
  - (* the stream moves on *)
    destruct (fetches m !! f) as [ft|] eqn:Hft; [|apply Hstay].
    destruct (stream_resume (generator ft) sev) as [outs g].
    assert (Hfr : stream_frame f m
                    (consume f outs (on_fetches (alter (setGenerator g) f) m))).
    { eapply stream_frame_trans; [|apply consume_frame].
      apply (stream_frame_alter (setGenerator g)); reflexivity. }
    split; [eapply view_invariant_stream; eassumption|].
    destruct Hfr as (A1 & A2 & _). apply sends_same; assumption.
  - (* time passes *)
    assert (H : fetch_invariant (elapse JSON_parse typeErrorMessage ms m)
                /\ view_invariant (elapse JSON_parse typeErrorMessage ms m)
                /\ sent (elapse JSON_parse typeErrorMessage ms m) = sent m
                /\ world (elapse JSON_parse typeErrorMessage ms m) = world m).
    { apply (elapse_preserves JSON_parse typeErrorMessage
               (fun m0 => fetch_invariant m0 /\ view_invariant m0
                          /\ sent m0 = sent m /\ world m0 = world m)).
      - intros g m0 (H1 & H2 & H3 & H4). split; [|split; [|split; assumption]].
        + eapply alike_invariant; [|exact H1]. apply alike_simple; reflexivity.
        + apply (view_invariant_quiet m0); try reflexivity;
            [apply H2|right; split; reflexivity|exact H2].
      - intros g m0 (H1 & H2 & H3 & H4). split; [|split; [|split; assumption]].
        + eapply alike_invariant; [|exact H1]. apply alike_simple; reflexivity.
        + apply (view_invariant_quiet m0); try reflexivity;
            [apply H2|right; split; reflexivity|exact H2].
      - intros a m0 (H1 & H2 & H3 & H4).
        destruct (fire_view a m0 H2) as (G1 & G2 & G3 & _).
        split; [apply fire_invariant; exact H1|]. split; [exact G1|].
        split; congruence.
      - auto. }
    destruct H as (_ & H2 & H3 & H4). split; [exact H2|apply sends_same; assumption].
Qed.

Lemma initial_view welcome w :
  fetch_invariant (initial welcome w) /\ view_invariant (initial welcome w).
Proof.
  split.
  - intros f ft Hf. simpl in Hf. rewrite lookup_nil in Hf. discriminate.
  - split; [|split; [|split]].
    + split; [reflexivity|]. split; [simpl; discriminate|].
      split; [split; [simpl; discriminate|reflexivity]|]. simpl. discriminate.
    + split; [|constructor]. intros i op Hi. simpl in Hi.
      rewrite lookup_empty in Hi. discriminate.
    + split.
      * intros i j [x Hx]. simpl in Hx. rewrite lookup_empty in Hx. discriminate.
      * intros i [x Hx]. simpl in Hx. rewrite lookup_empty in Hx. discriminate.
    + constructor.
Qed.

Lemma run_view evs : forall m,
  fetch_invariant m -> view_invariant m ->
  fetch_invariant (run_events' evs m) /\ view_invariant (run_events' evs m)
  /\ exists new, sent (run_events' evs m) = sent m ++ new
       /\ (client_ok (world m) ->
           client_ok (world (run_events' evs m)) /\ Forall well_formed new).
Proof.
  induction evs as [|ev evs IH]; intros m Hf Hv; simpl.
  - split; [exact Hf|]. split; [exact Hv|]. exists []. rewrite app_nil_r.
    split; [reflexivity|]. intros H. split; [exact H|constructor].
  - destruct (step_view ev m Hf Hv) as [Hv' (n1 & S1 & _ & W1)].
    pose proof (step_invariant JSON_parse typeErrorMessage ev m Hf) as Hf'.
    destruct (IH _ Hf' Hv') as (H1 & H2 & n2 & S2 & W2).
    split; [exact H1|]. split; [exact H2|]. exists (n1 ++ n2).
    split; [rewrite S2, S1, app_assoc; reflexivity|].
    intros H. destruct (W1 H) as [Hc1 F1]. destruct (W2 Hc1) as [Hc2 F2].
    split; [exact Hc2|]. apply Forall_app. split; assumption.
Qed.

Lemma reachable_view m :
  reachable JSON_parse typeErrorMessage m -> fetch_invariant m /\ view_invariant m.
Proof.
  intros (welcome & w & evs & ->).
  destruct (initial_view welcome w) as [Hf Hv].
  destruct (run_view evs _ Hf Hv) as (H1 & H2 & _). split; assumption.
Qed.

(** X20: in every state the component can reach, the dependencies recorded
    by the definition effect are the view and the topic shown; a run of the
    effect is registered exactly while the definition view is open, it is
    the run started for the topic shown, and that topic is not empty. *)
Theorem effect_follows_view m :
  reachable JSON_parse typeErrorMessage m -> effect_invariant m.
Proof. intros H. apply reachable_view in H. apply H. Qed.

(** X21: the list of selected words never holds a word twice, whatever the
    user does and whenever the service answers. *)
Theorem selection_without_duplicates m :
  reachable JSON_parse typeErrorMessage m -> NoDup (selectedWords (app m)).
Proof. intros H. apply reachable_view in H. apply H. Qed.

(** X22: at most one of [handleAnalyze] and [handleGenerateWorksheet] is
    suspended at any time; while one is, the definition view is closed and
    the loading state is [analyzing] or [generating_worksheet].  A suspended
    handler, and the art request of a definition run, wait for a request
    that was sent and settle on its reply without a further request. *)
Theorem one_handler_in_flight m :
  reachable JSON_parse typeErrorMessage m ->
  loading_invariant m /\ pending_invariant m.
Proof. intros H. apply reachable_view in H. split; apply H. Qed.

(** X23: among the events of the component (the Random button, which has
    its own handler, aside) requests go out on three clicks only.  From a
    reachable state an event appends to the requests sent at most one
    request when it is a click on Analyze or on Generate Worksheet, at most
    two (the art and the stream) when it is a click on a word, and none
    otherwise: no reply, no stream event, no timer, no key change and no
    other click sends or repeats a request, and none is ever taken back. *)
Theorem requests_within_budget m ev :
  reachable JSON_parse typeErrorMessage m ->
  exists new, sent (step' ev m) = sent m ++ new /\ length new <= budget ev.
Proof.
  intros H. apply reachable_view in H. destruct H as [Hf Hv].
  destruct (step_view ev m Hf Hv) as [_ (new & S & L & _)].
  exists new. split; assumption.
Qed.

(** X24: started with no client, or with one that holds a key, the
    component never lets out a request with an empty key, with a blank text,
    with an empty word list or with an empty topic, whatever the events. *)
Theorem requests_well_formed welcome w evs :
  client_ok w ->
  Forall well_formed (sent (run_events' evs (initial welcome w)))
  /\ client_ok (world (run_events' evs (initial welcome w))).
Proof.
  intros Hok. destruct (initial_view welcome w) as [Hf Hv].
  destruct (run_view evs _ Hf Hv) as (_ & _ & new & S & W).
  destruct (W Hok) as [H1 H2]. split; [|exact H1].
  rewrite S. simpl. exact H2.
Qed.

(** *** Leaving a definition that is still streaming *)

Lemma left_all_cancelled m f ft :
  fetch_invariant m -> view_invariant m -> left_mid_stream m ->
  fetches m !! f = Some ft -> isCancelled ft = true.
Proof.
  intros Hf ((_ & _ & E3 & _) & _) [_ Hview] Hft.
  apply (Hf f ft Hft). apply E3 in Hview. congruence.
Qed.

Lemma step_left ev m :
  fetch_invariant m -> view_invariant m -> left_mid_stream m ->
  left_mid_stream (step' ev m) /\ sent (step' ev m) = sent m.
Proof.
  intros Hf Hv Hleft. pose proof Hleft as [Hload Hview].
  assert (Hloading : isLoading (app m) = true).
  { unfold isLoading. rewrite Hload. reflexivity. }
  assert (Hshown : resultsShown (app m) = false).
  { unfold resultsShown. rewrite Hloading. simpl. rewrite andb_false_r. reflexivity. }
  assert (Hstay : left_mid_stream m /\ sent m = sent m) by (split; [exact Hleft|reflexivity]).
  destruct ev as [text| |word| |word| |key|i r|f r|f sev|ms]; simpl step.
  - rewrite Hloading. simpl. rewrite andb_false_r. exact Hstay.
  - rewrite Hshown. exact Hstay.
  - rewrite Hshown. exact Hstay.
  - destruct (negb (bool_decide (view (app m) = analyzer))); [|exact Hstay].
    destruct (useEffect_after handleBackToAnalyzer m Hv eq_refl eq_refl)
      as (_ & _ & U3 & _ & U5); [simpl; discriminate|].
    destruct U5 as (U5 & U6 & _); [simpl; discriminate|].
    split; [|exact U6]. split; [rewrite U5; exact Hload|].
    rewrite U3. simpl. discriminate.
  - rewrite Hshown. exact Hstay.
  - rewrite Hloading. simpl. rewrite andb_false_r. exact Hstay.
  - split; [|reflexivity]. unfold handleApiKeyChange, left_mid_stream. simpl.
    destruct (match key with Some k => Js.truthy k | None => false end); simpl; auto.
  - destruct (pending m !! i) as [op|] eqn:Hi; [|exact Hstay].
    exfalso. destruct Hv as (_ & _ & (_ & L2) & _).
    destruct (L2 i (ex_intro _ op Hi)) as [_ [H|H]]; congruence.
  - destruct (fetches m !! f) as [ft|] eqn:Hft; [|exact Hstay].
    destruct (artPending ft) as [k|] eqn:Hk; [|exact Hstay].
    assert (Hs : settles k).
    { destruct Hv as (_ & (_ & P2) & _). rewrite Forall_forall in P2.
      apply (P2 ft); [eapply list_elem_of_lookup_2; exact Hft|exact Hk]. }
    destruct (Hs r) as [res Hres]. rewrite Hres.
    destruct (art_progress_frame f (Done res) m)
      as (_ & _ & _ & _ & _ & _ & _ & A8 & _ & _ & A11 & A12 & _).
    split; [|rewrite A12, app_nil_r; reflexivity].
    split; [rewrite A11; exact Hload|rewrite A8; exact Hview].
  - destruct (fetches m !! f) as [ft|] eqn:Hft; [|exact Hstay].
    destruct (stream_resume (generator ft) sev) as [outs g].
    assert (Hfr : stream_frame f m
                    (consume f outs (on_fetches (alter (setGenerator g) f) m))).
    { eapply stream_frame_trans; [|apply consume_frame].
      apply (stream_frame_alter (setGenerator g)); reflexivity. }
    destruct Hfr as (_ & A2 & _ & _ & _ & _ & _ & _ & _ & A10 & _ & _ & A13).
    split; [|exact A2]. split; [|rewrite A10; exact Hview].
    destruct A13 as [H|[_ H]]; [rewrite H; exact Hload|].
    exfalso. rewrite map_lookup, Hft in H. injection H as H.
    rewrite (left_all_cancelled m f ft Hf Hv Hleft Hft) in H. discriminate.
  - assert (H : fetch_invariant (elapse JSON_parse typeErrorMessage ms m)
                /\ view_invariant (elapse JSON_parse typeErrorMessage ms m)
                /\ left_mid_stream (elapse JSON_parse typeErrorMessage ms m)
                /\ sent (elapse JSON_parse typeErrorMessage ms m) = sent m).
    { apply (elapse_preserves JSON_parse typeErrorMessage
               (fun m0 => fetch_invariant m0 /\ view_invariant m0
                          /\ left_mid_stream m0 /\ sent m0 = sent m)).
      - intros g m0 (H1 & H2 & H3 & H4). split; [|split; [|split; assumption]].
        + eapply alike_invariant; [|exact H1]. apply alike_simple; reflexivity.
        + apply (view_invariant_quiet m0); try reflexivity;
            [apply H2|right; split; reflexivity|exact H2].
      - intros g m0 (H1 & H2 & H3 & H4). split; [|split; [|split; assumption]].
        + eapply alike_invariant; [|exact H1]. apply alike_simple; reflexivity.
        + apply (view_invariant_quiet m0); try reflexivity;
            [apply H2|right; split; reflexivity|exact H2].
      - intros a m0 (H1 & H2 & [H3 H3'] & H4).
        destruct (fire_view a m0 H2) as (G1 & G2 & _ & G4 & _ & G6).
        split; [apply fire_invariant; exact H1|]. split; [exact G1|].
        split; [split; [rewrite G4; exact H3|exact (G6 H3')]|congruence].
      - auto. }
    destruct H as (_ & _ & H3 & H4). split; assumption.
Qed.

(** X25: once the definition view has been left while its stream was still
    running, the loading state stays [loading_definition] for good: the
    cleanup has cancelled the run, and a cancelled run skips the reset in its
    [finally] block.  No event gets the component out of this state; the
    input area stays disabled, the results stay hidden, the definition view
    is not opened again and no further request is sent. *)
Theorem left_mid_stream_stuck m evs :
  reachable JSON_parse typeErrorMessage m -> left_mid_stream m ->
  let m' := run_events' evs m in
  left_mid_stream m'
  /\ isLoading (app m') = true
  /\ resultsShown (app m') = false
  /\ sent m' = sent m.
Proof.
  intros Hr Hleft m'. subst m'. apply reachable_view in Hr. destruct Hr as [Hf Hv].
  assert (H : left_mid_stream (run_events' evs m) /\ sent (run_events' evs m) = sent m).
  { revert m Hf Hv Hleft. induction evs as [|ev evs IH]; intros m Hf Hv Hleft; simpl.
    - split; [exact Hleft|reflexivity].
    - destruct (step_left ev m Hf Hv Hleft) as [H1 H2].
      destruct (step_view ev m Hf Hv) as [Hv' _].
      pose proof (step_invariant JSON_parse typeErrorMessage ev m Hf) as Hf'.
      destruct (IH _ Hf' Hv' H1) as [H3 H4]. split; [exact H3|congruence]. }
  destruct H as [[H1 H1'] H2].
  assert (Hl : isLoading (app (run_events' evs m)) = true).
  { unfold isLoading. rewrite H1. reflexivity. }
  split; [split; assumption|]. split; [exact Hl|]. split; [|exact H2].
  unfold resultsShown. rewrite Hl. simpl. rewrite andb_false_r. reflexivity.
Qed.

End Invariants.

Lemma effect_follows_view_witness :
  effect_invariant
    (run_events JSON_parse_sample type_errors two_fetches_trace (initial [] bare_world)).
Proof.
  apply (effect_follows_view JSON_parse_sample type_errors).
  exists [], bare_world, two_fetches_trace. reflexivity.
Defined.

Lemma selection_without_duplicates_witness :
  NoDup (selectedWords (app
    (run_events JSON_parse_sample type_errors selection_trace (initial [] bare_world)))).
Proof.
  apply (selection_without_duplicates JSON_parse_sample type_errors).
  exists [], bare_world, selection_trace. reflexivity.
Defined.

Example selection_trace_selected :
  selectedWords (app
    (run_events JSON_parse_sample type_errors selection_trace (initial [] bare_world)))
  = [lit "joys"; lit "ephemeral"].
Proof. vm_compute. reflexivity. Qed.

Lemma one_handler_in_flight_witness :
  loading_invariant
    (run_events JSON_parse_sample type_errors analysis_in_flight (initial [] bare_world))
  /\ pending_invariant
       (run_events JSON_parse_sample type_errors analysis_in_flight (initial [] bare_world)).
Proof.
  apply (one_handler_in_flight JSON_parse_sample type_errors).
  exists [], bare_world, analysis_in_flight. reflexivity.
Defined.

Example analysis_in_flight_state :
  loadingState (app
    (run_events JSON_parse_sample type_errors analysis_in_flight (initial [] bare_world)))
  = analyzing
  /\ sent (run_events JSON_parse_sample type_errors analysis_in_flight (initial [] bare_world))
     = [ReqVocabulary (lit "AIzaSyA-0123456789abcdef") (lit "Ephemeral joys.")].
Proof. vm_compute. split; reflexivity. Qed.

Lemma requests_within_budget_witness :
  exists new,
    sent (step JSON_parse_sample type_errors (ClickWord (lit "joys"))
            (run_events JSON_parse_sample type_errors selection_trace (initial [] bare_world)))
    = sent (run_events JSON_parse_sample type_errors selection_trace (initial [] bare_world))
      ++ new
    /\ length new <= budget (ClickWord (lit "joys")).
Proof.
  apply (requests_within_budget JSON_parse_sample type_errors).
  exists [], bare_world, selection_trace. reflexivity.
Defined.

Lemma bare_world_client_ok : client_ok bare_world.
Proof. intros k H. discriminate H. Qed.

Lemma requests_well_formed_witness :
  Forall well_formed
    (sent (run_events JSON_parse_sample type_errors two_fetches_trace (initial [] bare_world)))
  /\ client_ok
       (world (run_events JSON_parse_sample type_errors two_fetches_trace
                 (initial [] bare_world))).
Proof.
  apply (requests_well_formed JSON_parse_sample type_errors [] bare_world two_fetches_trace).
  intros k H. discriminate H.
Defined.

Example two_fetches_requests :
  sent (run_events JSON_parse_sample type_errors two_fetches_trace (initial [] bare_world))
  = [ ReqVocabulary (lit "AIzaSyA-0123456789abcdef") (lit "Ephemeral joys.");
      ReqAsciiArt (lit "AIzaSyA-0123456789abcdef") (lit "ephemeral");
      ReqStream (lit "AIzaSyA-0123456789abcdef") (lit "ephemeral");
      ReqAsciiArt (lit "AIzaSyA-0123456789abcdef") (lit "joys");
      ReqStream (lit "AIzaSyA-0123456789abcdef") (lit "joys") ].
Proof. vm_compute. reflexivity. Qed.

Lemma left_mid_stream_stuck_witness :
  let m := run_events JSON_parse_sample type_errors back_mid_stream (initial [] bare_world) in
  let m' := run_events JSON_parse_sample type_errors after_leaving m in
  left_mid_stream m'
  /\ isLoading (app m') = true
  /\ resultsShown (app m') = false
  /\ sent m' = sent m.
Proof.
  apply (left_mid_stream_stuck JSON_parse_sample type_errors).
  - exists [], bare_world, back_mid_stream. reflexivity.
  - split; [vm_compute; reflexivity|vm_compute; discriminate].
Defined.

Example back_mid_stream_state :
  let m := run_events JSON_parse_sample type_errors back_mid_stream (initial [] bare_world) in
  view (app m) = analyzer
  /\ loadingState (app m) = loading_definition
  /\ analyzedWords (app m) = [lit "ephemeral"; lit "joys"]
  /\ step JSON_parse_sample type_errors (ClickAnalyze (lit "Ubiquitous sounds.")) m = m.
Proof.
  split; [vm_compute; reflexivity|]. split; [vm_compute; reflexivity|].
  split; [vm_compute; reflexivity|].
  unfold step.
  replace (negb (isLoading (app (run_events JSON_parse_sample type_errors back_mid_stream
                                   (initial [] bare_world))))) with false
    by (vm_compute; reflexivity).
  rewrite andb_false_r. reflexivity.
Qed.

(** ** A definition requested while another is under way *)

Lemma lookup_snoc {A} (l : list A) (x : A) : (l ++ [x]) !! length l = Some x.
Proof. rewrite lookup_app_r by lia. rewrite Nat.sub_diag. reflexivity. Qed.

Lemma handleWordClick_opens word s :
  cleanWord word <> [] ->
  handleWordClick word s = setView definition (setDefinitionTopic (cleanWord word) s).
Proof.
  intros H. unfold handleWordClick. destruct (cleanWord word); [congruence|reflexivity].
Qed.

Lemma consume_yield_return b ft chunk m :
  fetches m !! b = Some ft -> isCancelled ft = false ->
  exists ft',
    fetches (consume b [Yield chunk; Return] m) !! b = Some ft'
    /\ generator ft' = Finished
    /\ accumulatedContent ft' = accumulatedContent ft ++ chunk.
Proof.
  intros Hf Hc. cbn [consume]. rewrite Hf, Hc.
  cbn [fetches on_app on_fetches]. rewrite list_lookup_alter_eq, Hf.
  cbn [fmap option_fmap option_map]. unfold fetch_finally.
  cbn [fetches on_app on_fetches]. rewrite list_lookup_alter_eq, Hf.
  cbn [fmap option_fmap option_map].
  replace (isCancelled (setAccumulated (accumulatedContent ft ++ chunk) ft)) with false
    by (destruct ft; simpl in *; congruence).
  cbn [fetches on_app on_fetches]. rewrite !list_lookup_alter_eq, Hf.
  cbn [fmap option_fmap option_map].
  eexists. split; [reflexivity|]. destruct ft; split; reflexivity.
Qed.

Section StalenessOfRuns.

Variable JSON_parse : jsstring -> jsstring + value.
Variable typeErrorMessage : bool -> jsstring -> jsstring.

Local Abbreviation step' := (step JSON_parse typeErrorMessage).
Local Abbreviation run_events' := (run_events JSON_parse typeErrorMessage).
Local Abbreviation useEffect' := (useEffect JSON_parse typeErrorMessage).
Local Abbreviation fetchDefinition' := (fetchDefinition JSON_parse typeErrorMessage).

(** When the dependencies changed and a definition is to be shown, the
    effect runs the registered cleanup and starts a run. *)
Lemma useEffect_starts m :
  (view (app m), definitionTopic (app m)) <> deps m ->
  view (app m) = definition ->
  definitionTopic (app m) <> [] ->
  useEffect' m
  = fetchDefinition'
      (on_effect (fun _ => None)
         (on_deps (fun _ => (view (app m), definitionTopic (app m)))
            (match effect m with
             | Some f => on_fetches (alter cancel f) m
             | None => m
             end))).
Proof.
  intros Hd Hv Ht. unfold useEffect. rewrite bool_decide_eq_false_2 by exact Hd.
  assert (Htr : Js.truthy (definitionTopic (app m)) = true)
    by (destruct (definitionTopic (app m)); [congruence|reflexivity]).
  destruct (effect m); simpl; rewrite Hv, Htr; reflexivity.
Qed.

(** The run that [fetchDefinition] starts holds what its generator handed
    out at the first [next()], and the generator as that left it. *)
Lemma fetchDefinition_own m :
  exists ft,
    fetches (fetchDefinition' m) !! length (fetches m) = Some ft
    /\ accumulatedContent ft
       = concat (chunks_of
           (streamDefinition (definitionTopic (app m))
              (generateAsciiArt JSON_parse typeErrorMessage (definitionTopic (app m))
                 (world m)).2).1.1.1)
    /\ generator ft
       = (streamDefinition (definitionTopic (app m))
            (generateAsciiArt JSON_parse typeErrorMessage (definitionTopic (app m))
               (world m)).2).1.1.2.
Proof.
  unfold fetchDefinition. cbn [world on_app app].
  destruct (generateAsciiArt JSON_parse typeErrorMessage (definitionTopic (app m)) (world m))
    as [artTask w1]. cbn [snd].
  match goal with |- context [art_progress ?f ?t ?x] => set (mb := x) end.
  destruct (art_progress_frame (length (fetches m)) artTask mb)
    as (A1 & _ & _ & _ & _ & _ & _ & _ & _ & _ & _ & _ & A13).
  set (mc := art_progress (length (fetches m)) artTask mb) in *.
  assert (Hw : world mc = w1) by (rewrite A1; reflexivity).
  rewrite Hw.
  set (new := mkFetch (definitionTopic (app m)) false [] (now m) Finished None).
  set (k := match artTask with Done _ => None | Await _ k => Some k end) in *.
  assert (Hmc : fetches mc !! length (fetches m) = Some (setArtPending k new)).
  { rewrite A13. rewrite list_lookup_alter_eq. unfold mb. simpl.
    rewrite lookup_snoc. reflexivity. }
  unfold streamDefinition.
  destruct (ensureAiClient w1) as [[e|client] w2]; cbn [fst snd].
  - match goal with |- context [consume _ _ ?x] => set (md := x) end.
    assert (Hmd : fetches md !! length (fetches m)
                  = Some (setGenerator Finished (setArtPending k new))).
    { unfold md. simpl. rewrite list_lookup_alter_eq, Hmc. reflexivity. }
    clearbody md.
    destruct (consume_yield_return (length (fetches m)) _
                (lit "Error: " ++ messageOr (lit "API key not configured.") e) md
                Hmd eq_refl) as (ft & H1 & H2 & H3).
    exists ft. split; [exact H1|]. split; [|exact H2].
    rewrite H3. simpl. rewrite app_nil_r. reflexivity.
  - match goal with |- context [consume _ _ ?x] => set (md := x) end.
    assert (Hmd : fetches md !! length (fetches m)
                  = Some (setGenerator (Opening (definitionTopic (app m)))
                            (setArtPending k new))).
    { unfold md. simpl. rewrite list_lookup_alter_eq, Hmc. reflexivity. }
    simpl consume. rewrite Hmd. eexists. split; [reflexivity|]. split; reflexivity.
Qed.

Lemma superseded_same b m m' :
  length (fetches m') = length (fetches m) -> effect m' = effect m ->
  superseded b m -> superseded b m'.
Proof. intros Hl He [H1 H2]. split; [rewrite Hl; exact H1|]. rewrite He. exact H2. Qed.

Lemma analyze_progress_runs t m :
  fetches (analyze_progress t m) = fetches m /\ effect (analyze_progress t m) = effect m.
Proof. destruct t as [[e|ws]|req k]; split; reflexivity. Qed.

Lemma worksheet_progress_runs t m :
  fetches (worksheet_progress t m) = fetches m /\ effect (worksheet_progress t m) = effect m.
Proof. destruct t as [[e|ws]|req k]; split; reflexivity. Qed.

Lemma handleAnalyze_runs text m :
  fetches (handleAnalyze JSON_parse text m) = fetches m
  /\ effect (handleAnalyze JSON_parse text m) = effect m.
Proof.
  unfold handleAnalyze. destruct (apiKeyConfigured (app m)); simpl; [|split; reflexivity].
  destruct (analyzeTextForVocabulary _ _ _) as [t w].
  destruct (analyze_progress_runs t
              (on_world (fun _ => w)
                 (setTimeout (TUpdateStep (lit "ranking")) 2500
                    (setTimeout (TUpdateStep (lit "analysis")) 1500
                       (setTimeout (TUpdateStep (lit "preprocessing")) 500
                          (on_app (fun s =>
                             setShowProgress true (setCurrentProgressStep (lit "preprocessing")
                               (setProgressSteps (createProgressSteps analyze)
                                  (setSelectedWords [] (setAnalyzedWords [] (setMainText text
                                     (setError None (setLoadingState analyzing s)))))))) m))))))
    as [H1 H2].
  split; [exact H1|exact H2].
Qed.

Lemma handleGenerateWorksheet_runs m :
  fetches (handleGenerateWorksheet JSON_parse typeErrorMessage m) = fetches m
  /\ effect (handleGenerateWorksheet JSON_parse typeErrorMessage m) = effect m.
Proof.
  unfold handleGenerateWorksheet. destruct (length _ =? 0); [split; reflexivity|].
  destruct (generateWorksheetData _ _ _ _ _) as [t w].
  match goal with |- fetches (worksheet_progress t ?x) = _ /\ _ =>
    destruct (worksheet_progress_runs t x) as [H1 H2] end.
  split; [exact H1|exact H2].
Qed.

Lemma superseded_useEffect b m : superseded b m -> superseded b (useEffect' m).
Proof.
  intros [H1 H2]. unfold useEffect. case_bool_decide; [split; assumption|].
  match goal with |- context [on_effect _ (on_deps _ ?x)] => set (m0 := x) end.
  assert (Hl : length (fetches m0) = length (fetches m)).
  { unfold m0. destruct (effect m); simpl; [apply length_alter|reflexivity]. }
  match goal with |- superseded b (if ?c then _ else _) => destruct c end.
  - split; [simpl; rewrite Hl; exact H1|]. simpl. discriminate.
  - match goal with |- superseded b (fetchDefinition _ _ ?x) => set (m1 := x) end.
    destruct (fetchDefinition_frame JSON_parse typeErrorMessage m1)
      as (_ & _ & _ & _ & _ & He & Ht & _).
    assert (Hl1 : length (fetches m1) = length (fetches m)) by exact Hl.
    assert (Hl2 : length (fetches (fetchDefinition' m1)) = S (length (fetches m1))).
    { rewrite <- (List.length_map topic), Ht, length_app, List.length_map. simpl. lia. }
    split; [lia|]. rewrite He. intros c [= <-]. lia.
Qed.

Lemma superseded_fire b a m :
  superseded b m -> superseded b (fire JSON_parse typeErrorMessage a m).
Proof.
  intros H. destruct a; simpl.
  - apply (superseded_same b m); [reflexivity|reflexivity|exact H].
  - apply (superseded_same b m); [reflexivity|reflexivity|exact H].
  - apply superseded_useEffect. apply (superseded_same b m); [reflexivity|reflexivity|exact H].
Qed.

(** No event brings an earlier run back under the effect. *)
Lemma step_superseded b ev m : superseded b m -> superseded b (step' ev m).
Proof.
  intros H. destruct ev as [text| |word| |word| |key|i r|f r|f sev|ms]; simpl.
  - match goal with |- superseded b (if ?c then _ else _) => destruct c end; [|exact H].
    destruct (handleAnalyze_runs (trim text) m) as [H1 H2].
    apply (superseded_same b m); [rewrite H1; reflexivity|exact H2|exact H].
  - match goal with |- superseded b (if ?c then _ else _) => destruct c end; [|exact H].
    destruct (handleGenerateWorksheet_runs m) as [H1 H2].
    apply (superseded_same b m); [rewrite H1; reflexivity|exact H2|exact H].
  - match goal with |- superseded b (if ?c then _ else _) => destruct c end; [|exact H].
    apply superseded_useEffect. apply (superseded_same b m); [reflexivity|reflexivity|exact H].
  - match goal with |- superseded b (if ?c then _ else _) => destruct c end; [|exact H].
    apply superseded_useEffect. apply (superseded_same b m); [reflexivity|reflexivity|exact H].
  - match goal with |- superseded b (if ?c then _ else _) => destruct c end; [|exact H].
    apply (superseded_same b m); [reflexivity|reflexivity|exact H].
  - match goal with |- superseded b (if ?c then _ else _) => destruct c end; [|exact H].
    apply (superseded_same b m); [reflexivity|reflexivity|exact H].
  - apply (superseded_same b m); [reflexivity|reflexivity|exact H].
  - destruct (pending m !! i) as [[k|k]|]; [| |exact H].
    + destruct (analyze_progress_runs (k r) (on_pending (delete i) m)) as [H1 H2].
      apply (superseded_same b m); [rewrite H1; reflexivity|exact H2|exact H].
    + destruct (worksheet_progress_runs (k r) (on_pending (delete i) m)) as [H1 H2].
      apply (superseded_same b m); [rewrite H1; reflexivity|exact H2|exact H].
  - destruct (fetches m !! f) as [ft|]; [|exact H].
    destruct (artPending ft) as [k|]; [|exact H].
    destruct (art_progress_frame f (k r) m)
      as (_ & _ & He & _ & _ & _ & _ & _ & _ & _ & _ & _ & Hfs).
    apply (superseded_same b m); [rewrite Hfs; apply length_alter|exact He|exact H].
  - destruct (fetches m !! f) as [ft|]; [|exact H].
    destruct (stream_resume (generator ft) sev) as [outs g].
    destruct (consume_frame f outs (on_fetches (alter (setGenerator g) f) m))
      as (_ & _ & _ & He & _ & _ & Ht & _).
    apply (superseded_same b m); [|exact He|exact H].
    rewrite <- (List.length_map topic), Ht, List.length_map. simpl. apply length_alter.
  - apply (elapse_preserves JSON_parse typeErrorMessage (superseded b));
      [ intros g m0 H0; exact H0
      | intros g m0 H0; exact H0
      | intros a m0 H0; apply superseded_fire; exact H0
      | exact H ].
Qed.

Lemma run_superseded b evs : forall m,
  superseded b m -> superseded b (run_events' evs m).
Proof.
  induction evs as [|ev evs IH]; intros m H; simpl; [exact H|].
  apply IH. apply step_superseded. exact H.
Qed.

(** C2: from any state the component can reach, whichever runs of the
    definition effect are under way (a stream still yielding, an art still
    awaited), let a word be opened so that the topic shown changes.  The
    effect then runs the cleanup and starts a run of its own.  That run is
    the one registered and every run there was before is cancelled on the
    spot.  From then on, whatever events follow, the user's or the
    service's, an art reply or a stream event of an earlier run changes
    nothing of the component state: content, art, error, timing and loading
    state stay as they are.  And as long as only the service acts, the new
    run stays the registered one and the definition shown is made of the
    chunks that its own generator hands out, in their order, and of nothing
    else. *)
Theorem definition_fetch_staleness m word :
  reachable JSON_parse typeErrorMessage m ->
  cleanWord word <> [] ->
  (definition, cleanWord word) <> (view (app m), definitionTopic (app m)) ->
  let b := length (fetches m) in
  let started := useEffect' (on_app (handleWordClick word) m) in
  effect started = Some b
  /\ (forall a, a < b -> isCancelled <$> fetches started !! a = Some true)
  /\ (forall evs a ev, a < b -> targets a ev ->
        app (step' ev (run_events' evs started)) = app (run_events' evs started))
  /\ (forall evs, Forall from_service evs ->
        effect (run_events' evs started) = Some b
        /\ definitionContent (app (run_events' evs started))
           = concat (chunks_of
               (stream_all (cleanWord word)
                  (generateAsciiArt JSON_parse typeErrorMessage (cleanWord word)
                     (world m)).2
                  (stream_of b evs)).1)).
Proof.
  intros Hr Hw Hch b started.
  destruct (reachable_view JSON_parse typeErrorMessage m Hr) as [Hf ((Hdeps & _) & _)].
  set (m0 := on_app (handleWordClick word) m) in *.
  assert (Happ0 : app m0 = setView definition (setDefinitionTopic (cleanWord word) (app m)))
    by (apply handleWordClick_opens; exact Hw).
  assert (Hf0 : fetch_invariant m0).
  { eapply alike_invariant; [|exact Hf]. apply alike_simple; try reflexivity.
    unfold m0. simpl. rewrite (handleWordClick_opens word (app m) Hw). reflexivity. }
  assert (Hv0 : view (app m0) = definition) by (rewrite Happ0; reflexivity).
  assert (Ht0 : definitionTopic (app m0) = cleanWord word) by (rewrite Happ0; reflexivity).
  assert (Hd0 : (view (app m0), definitionTopic (app m0)) <> deps m0).
  { rewrite Hv0, Ht0. change (deps m0) with (deps m). rewrite Hdeps. exact Hch. }
  assert (Hne0 : definitionTopic (app m0) <> []) by (rewrite Ht0; exact Hw).
  destruct (new_fetch_supersedes JSON_parse typeErrorMessage m0 Hf0 Hd0 Hv0 Hne0)
    as (He & Hlen & Hcancel).
  change (length (fetches m0)) with b in He, Hlen, Hcancel.
  fold started in He, Hlen, Hcancel.
  assert (Hfs : fetch_invariant started)
    by (apply useEffect_invariant; exact Hf0).
  assert (Hsup : superseded b started).
  { split; [rewrite Hlen; lia|]. rewrite He. intros c [= <-]. lia. }
  split; [exact He|]. split; [exact Hcancel|]. split.
  - intros evs a ev Ha Ht.
    pose proof (run_events_invariant JSON_parse typeErrorMessage evs started Hfs) as Hinv1.
    destruct (run_superseded b evs started Hsup) as [_ He1].
    set (mp := run_events' evs started) in *.
    destruct (fetches mp !! a) as [fa|] eqn:Hfa.
    + assert (Hc : isCancelled fa = true).
      { apply (Hinv1 a fa Hfa). intros E. apply He1 in E. lia. }
      apply (stale_event_ignored JSON_parse typeErrorMessage mp a fa ev Hfa Hc Ht).
    + destruct ev as [text| |w0| |w0| |key|i r|f r|f sev|ms]; simpl in Ht;
        try contradiction; subst f; simpl; rewrite Hfa; reflexivity.
  - intros evs Hs.
    split.
    { rewrite (run_service_effect JSON_parse typeErrorMessage evs started Hfs Hs).
      exact He. }
    pose proof (useEffect_starts m0 Hd0 Hv0 Hne0) as Hst. fold started in Hst.
    match type of Hst with _ = fetchDefinition _ _ ?x => set (m1 := x) in Hst end.
    assert (Hlen1 : length (fetches m1) = b).
    { unfold m1. destruct (effect m0); simpl; [apply length_alter|reflexivity]. }
    assert (Hw1 : world m1 = world m) by (unfold m1; destruct (effect m0); reflexivity).
    assert (Ht1 : definitionTopic (app m1) = cleanWord word).
    { unfold m1. destruct (effect m0); simpl; exact Ht0. }
    destruct (fetchDefinition_own m1) as (ft & Hft & Hacc & Hgen).
    rewrite <- Hst, Hlen1 in Hft. rewrite Hw1, Ht1 in Hacc, Hgen.
    rewrite (content_after_service JSON_parse typeErrorMessage evs started b ft
               Hfs He Hft Hs).
    rewrite Hacc, Hgen. unfold stream_all.
    destruct (streamDefinition (cleanWord word)
                (generateAsciiArt JSON_parse typeErrorMessage (cleanWord word) (world m)).2)
      as [[[out0 g] reqs] w2]. cbn [fst snd].
    destruct (stream_feed g (stream_of b evs)) as [outs g']. cbn [fst snd].
    rewrite chunks_of_app, concat_app. reflexivity.
Qed.

End StalenessOfRuns.

Lemma definition_fetch_staleness_witness :
  let m := run_events JSON_parse_sample type_errors first_streaming
             (initial (lit "Welcome") bare_world) in
  let b := length (fetches m) in
  let started := useEffect JSON_parse_sample type_errors
                   (on_app (handleWordClick (lit "joys")) m) in
  effect started = Some b
  /\ (forall a, a < b -> isCancelled <$> fetches started !! a = Some true)
  /\ (forall evs a ev, a < b -> targets a ev ->
        app (step JSON_parse_sample type_errors ev
               (run_events JSON_parse_sample type_errors evs started))
        = app (run_events JSON_parse_sample type_errors evs started))
  /\ (forall evs, Forall from_service evs ->
        effect (run_events JSON_parse_sample type_errors evs started) = Some b
        /\ definitionContent (app (run_events JSON_parse_sample type_errors evs started))
           = concat (chunks_of
               (stream_all (cleanWord (lit "joys"))
                  (generateAsciiArt JSON_parse_sample type_errors (cleanWord (lit "joys"))
                     (world m)).2
                  (stream_of b evs)).1)).
Proof.
  apply (definition_fetch_staleness JSON_parse_sample type_errors
           (run_events JSON_parse_sample type_errors first_streaming
              (initial (lit "Welcome") bare_world))
           (lit "joys")).
  - exists (lit "Welcome"), bare_world, first_streaming. reflexivity.
  - vm_compute. discriminate.
  - vm_compute. intros H. discriminate H.
Defined.

(** In that run of events the first definition had shown its first chunk
    and was still streaming, with its art awaited, when the second was
    started.  Its later chunk, its art and the end of its stream change
    nothing: the second definition alone is shown, with its own art, and
    the loading state is the one its own end has set. *)
Example two_runs_final :
  let m := run_events JSON_parse_sample type_errors first_streaming
             (initial (lit "Welcome") bare_world) in
  let started := useEffect JSON_parse_sample type_errors
                   (on_app (handleWordClick (lit "joys")) m) in
  let m' := run_events JSON_parse_sample type_errors both_runs started in
  definitionContent (app m) = lit "Lasting "
  /\ generator <$> fetches m !! 0 = Some (Iterating (lit "ephemeral"))
  /\ is_Some (fetches m !! 0 ≫= artPending)
  /\ definitionContent (app started) = []
  /\ definitionContent (app m') = lit "Great pleasures."
  /\ asciiArt (app m') = Some (createFallbackArt (lit "joys"))
  /\ definitionTopic (app m') = lit "joys"
  /\ error (app m') = None
  /\ loadingState (app m') = idle.
Proof.
  intros m started m'.
  split; [vm_compute; reflexivity|]. split; [vm_compute; reflexivity|].
  split; [apply (bool_decide_unpack _); vm_compute; exact I|].
  repeat split; vm_compute; reflexivity.
Qed.

(** Had the second definition not been started, those same events of the
    first run would each have changed the state: the chunk is appended, the
    art is set, and the end of the stream records the time and resets the
    loading state. *)
Example first_run_not_superseded :
  Forall (targets 0) first_run_rest
  /\ first_run_rest ⊆ both_runs
  /\ let m := run_events JSON_parse_sample type_errors first_streaming
               (initial (lit "Welcome") bare_world) in
     let m' := run_events JSON_parse_sample type_errors first_run_rest m in
     (asciiArt (app m), generationTime (app m), loadingState (app m))
     = (None, None, loading_definition)
     /\ definitionContent (app m') = lit "Lasting a very short time."
     /\ asciiArt (app m') = Some (createFallbackArt (lit "ephemeral"))
     /\ generationTime (app m') = Some 0
     /\ loadingState (app m') = idle.
Proof.
  split; [repeat constructor|].
  split.
  { intros ev Hev. apply list_elem_of_In in Hev. apply list_elem_of_In.
    destruct Hev as [<-|[<-|[<-|[]]]]; simpl; auto 10. }
  intros m m'. repeat split; vm_compute; reflexivity.
Qed.

(** ** The random article *)

Lemma random_loop_frame randomTopic outs : forall a s a' s' ending,
  random_loop randomTopic outs a s = (a', s', ending) ->
  s' = setMainText (mainText s') s.
Proof.
  induction outs as [|o rest IH]; intros a s a' s' ending H; simpl in H.
  - injection H as _ <- _. destruct s; reflexivity.
  - destruct o as [chunk| |e].
    + apply IH in H. rewrite H. destruct s; reflexivity.
    + injection H as _ <- _. destruct s; reflexivity.
    + injection H as _ <- _. destruct s; reflexivity.
Qed.

Lemma random_loop_chunks randomTopic cs tail : forall a s,
  random_loop randomTopic (map Yield cs ++ tail) a s
  = random_loop randomTopic tail (a ++ concat cs)
      (match cs with
       | [] => s
       | _ :: _ => setMainText (generated randomTopic (a ++ concat cs)) s
       end).
Proof.
  induction cs as [|c cs IH]; intros a s; simpl.
  - rewrite app_nil_r. reflexivity.
  - rewrite IH. rewrite <- !app_assoc. destruct cs; simpl; rewrite ?app_nil_r; reflexivity.
Qed.

Lemma ensure_again w client w' :
  ensureAiClient w = (inr client, w') -> ensureAiClient w' = (inr client, w').
Proof.
  unfold ensureAiClient. destruct (ai w) as [c|] eqn:Ha.
  - intros [= <- <-]. rewrite Ha. reflexivity.
  - destruct (getCurrentApiKey w) as [k|]; [|discriminate].
    destruct (Js.truthy k); [|discriminate]. intros [= <- <-]. reflexivity.
Qed.

Lemma ended_app o1 o2 : ended (o1 ++ o2) = ended o1 || ended o2.
Proof. apply existsb_app. Qed.

Lemma random_loop_ended randomTopic outs : forall a s,
  (random_loop randomTopic outs a s).2 = Suspended <-> ended outs = false.
Proof.
  induction outs as [|o rest IH]; intros a s; simpl; [split; reflexivity|].
  destruct o as [chunk| |e]; simpl; [apply IH| |]; split; discriminate.
Qed.

Lemma stream_resume_ended g ev :
  g <> Finished ->
  ended (stream_resume g ev).1 = true <-> (stream_resume g ev).2 = Finished.
Proof.
  intros Hg. destruct g as [t|t|]; [| |congruence];
    destruct ev as [|e|[c|]| |e]; simpl; try (split; discriminate); try (split; reflexivity).
  destruct (Js.truthy c); simpl; split; discriminate.
Qed.

Lemma stream_feed_ended evs : forall g,
  g <> Finished ->
  ended (stream_feed g evs).1 = true <-> (stream_feed g evs).2 = Finished.
Proof.
  induction evs as [|ev evs IH]; intros g Hg; simpl.
  - split; [discriminate|congruence].
  - pose proof (stream_resume_ended g ev Hg) as Hr.
    destruct (stream_resume g ev) as [out g1]. simpl in Hr.
    assert (Hdec : g1 = Finished \/ g1 <> Finished)
      by (destruct g1; [right|right|left]; congruence).
    destruct Hdec as [->|Hne].
    + rewrite stream_feed_finished. simpl. rewrite ended_app.
      rewrite (proj2 Hr eq_refl). simpl. split; reflexivity.
    + specialize (IH g1 Hne). destruct (stream_feed g1 evs) as [outs g2]. simpl in *.
      rewrite ended_app.
      destruct (ended out) eqn:E; [exfalso; apply Hne; apply Hr; reflexivity|].
      simpl. exact IH.
Qed.

(** The generator has run to its end exactly when it has returned or
    thrown. *)
Lemma stream_all_ended topic w evs :
  ended (stream_all topic w evs).1 = true <-> (stream_all topic w evs).2 = Finished.
Proof.
  unfold stream_all, streamDefinition.
  destruct (ensureAiClient w) as [[e|client] w'].
  - rewrite stream_feed_finished. simpl. split; reflexivity.
  - pose proof (stream_feed_ended evs (Opening topic) ltac:(discriminate)) as H.
    destruct (stream_feed (Opening topic) evs) as [outs g]. simpl in *. exact H.
Qed.

Section RandomArticle.

Variable JSON_parse : jsstring -> jsstring + value.
Variable WELCOME_TEXT : jsstring.

Local Abbreviation random := (handleRandom JSON_parse WELCOME_TEXT).

(** What [handleRandom] leaves behind once it has run to its end. *)
Lemma handleRandom_finished randomTopic evs r s w :
  (apiKeyConfigured s = false ->
     random randomTopic evs r s w
     = Some (setError (Some (lit "Please configure your Gemini API key first.")) s, w, []))
  /\ (apiKeyConfigured s = true ->
      forall s' w' reqs, random randomTopic evs r s w = Some (s', w', reqs) ->
        loadingState s' = idle
        /\ selectedWords s' = []
        /\ view s' = view s
        /\ definitionTopic s' = definitionTopic s
        /\ length reqs <= 2
        /\ (error s' = None
            \/ (mainText s' = WELCOME_TEXT /\ analyzedWords s' = []
                /\ exists msg, error s' = Some msg))
        /\ (randomTopic ∈ SAMPLE_TOPICS -> client_ok w ->
            Forall well_formed reqs /\ client_ok w')).
Proof.
  unfold handleRandom. split.
  - intros ->. reflexivity.
  - intros -> s' w' reqs. cbn [negb].
    assert (Htopic : randomTopic ∈ SAMPLE_TOPICS -> randomTopic <> []).
    { intros Hin Hnil. subst randomTopic. unfold SAMPLE_TOPICS in Hin.
      repeat (apply elem_of_cons in Hin; destruct Hin as [Hin|Hin]; [discriminate Hin|]).
      inversion Hin. }
    pose proof (streamDefinition_requests randomTopic w) as Hreq.
    destruct (streamDefinition randomTopic w) as [[[out0 g] reqs0] w1].
    destruct Hreq as [Hlen Hwf].
    destruct (stream_all randomTopic w evs) as [outs g'].
    match goal with
    | |- context [random_loop randomTopic outs [] ?s0] =>
        set (s1 := s0);
        destruct (random_loop randomTopic outs [] s1) as [[a s2] ending] eqn:Hloop
    end.
    apply random_loop_frame in Hloop.
    destruct ending as [|e|]; [| |discriminate].
    + pose proof (analyze_one_request JSON_parse a w1) as [Hone Hw2].
      destruct (analyzeTextForVocabulary JSON_parse a w1) as [t w2].
      simpl in Hone, Hw2.
      assert (Hrun : exists res new, run (fun _ => r) reqs0 t = (res, reqs0 ++ new)
                                     /\ length new <= 1
                                     /\ (client_ok w1 -> Forall well_formed new)).
      { destruct t as [res|req k]; simpl.
        - exists res, []. rewrite app_nil_r.
          split; [reflexivity|]. split; [simpl; lia|constructor].
        - destruct Hone as [Hk Hq]. destruct (Hk r) as [res Hres]. rewrite Hres. simpl.
          exists res, [req]. split; [reflexivity|]. split; [simpl; lia|].
          intros H. constructor; [exact (Hq H)|constructor]. }
      destruct Hrun as (res & new & Hrun & Hnew & Hnewwf). rewrite Hrun.
      intros [= <- <- <-]. rewrite Hloop.
      assert (Hall : randomTopic ∈ SAMPLE_TOPICS -> client_ok w ->
                     Forall well_formed (reqs0 ++ new) /\ client_ok w2).
      { intros Hin Hok. destruct (Hwf Hok) as [Hok1 Hreqs].
        split; [|exact (Hw2 Hok1)].
        apply Forall_app. split; [exact (Hreqs (Htopic Hin))|exact (Hnewwf Hok1)]. }
      destruct res as [e|words]; simpl.
      * repeat (split; [reflexivity || (rewrite length_app; lia)|]).
        split; [|exact Hall]. right. repeat split. eexists. reflexivity.
      * repeat (split; [reflexivity || (rewrite length_app; lia)|]).
        split; [|exact Hall]. left. reflexivity.
    + intros [= <- <- <-]. rewrite Hloop. simpl.
      repeat (split; [reflexivity || lia|]).
      split.
      * right. repeat split. eexists. reflexivity.
      * intros Hin Hok. destruct (Hwf Hok) as [Hok1 Hreqs].
        split; [exact (Hreqs (Htopic Hin))|exact Hok1].
Qed.

(** It is still suspended exactly while the generator is. *)
Lemma handleRandom_suspended randomTopic evs r s w :
  apiKeyConfigured s = true ->
  random randomTopic evs r s w = None <-> (stream_all randomTopic w evs).2 <> Finished.
Proof.
  intros Hc. unfold handleRandom. rewrite Hc. cbn [negb].
  pose proof (stream_all_ended randomTopic w evs) as Hend.
  destruct (streamDefinition randomTopic w) as [[[out0 g] reqs0] w1].
  destruct (stream_all randomTopic w evs) as [outs g']. simpl in Hend.
  match goal with
  | |- context [random_loop randomTopic outs [] ?s0] =>
      pose proof (random_loop_ended randomTopic outs [] s0) as Hloop;
      destruct (random_loop randomTopic outs [] s0) as [[a s2] ending]
  end.
  simpl in Hloop. simpl.
  destruct ending as [|e|].
  - destruct (analyzeTextForVocabulary JSON_parse a w1) as [t w2].
    destruct (run (fun _ => r) reqs0 t) as [res sent].
    split; [discriminate|]. intros Hn. exfalso. apply Hn. apply Hend.
    destruct (ended outs); [reflexivity|].
    discriminate (proj2 Hloop eq_refl).
  - split; [discriminate|]. intros Hn. exfalso. apply Hn. apply Hend.
    destruct (ended outs); [reflexivity|].
    discriminate (proj2 Hloop eq_refl).
  - split; [|reflexivity]. intros _ Hf. apply Hend in Hf.
    rewrite (proj1 Hloop eq_refl) in Hf. discriminate.
Qed.

(** X26: without the configured flag [handleRandom] only shows its error.
    Otherwise it is suspended as long as the generator is, and once the
    generator has returned or thrown it runs to its end: the loading state
    is idle again, the selection is empty, the view and the topic are
    untouched and at most two requests went out; either no error is shown,
    or the welcome text is back with an error and an empty word list; and
    for a topic of [SAMPLE_TOPICS] the requests are well formed. *)
Theorem handleRandom_envelope randomTopic evs r s w :
  (apiKeyConfigured s = false ->
     random randomTopic evs r s w
     = Some (setError (Some (lit "Please configure your Gemini API key first.")) s, w, []))
  /\ (apiKeyConfigured s = true ->
      ((stream_all randomTopic w evs).2 <> Finished ->
         random randomTopic evs r s w = None)
      /\ ((stream_all randomTopic w evs).2 = Finished ->
          exists s' w' reqs,
            random randomTopic evs r s w = Some (s', w', reqs)
            /\ loadingState s' = idle
            /\ selectedWords s' = []
            /\ view s' = view s
            /\ definitionTopic s' = definitionTopic s
            /\ length reqs <= 2
            /\ (error s' = None
                \/ (mainText s' = WELCOME_TEXT /\ analyzedWords s' = []
                    /\ exists msg, error s' = Some msg))
            /\ (randomTopic ∈ SAMPLE_TOPICS -> client_ok w ->
                Forall well_formed reqs /\ client_ok w'))).
Proof.
  split; [apply handleRandom_finished|].
  intros Hc. split.
  - apply (handleRandom_suspended randomTopic evs r s w Hc).
  - intros Hf.
    destruct (random randomTopic evs r s w) as [[[s' w'] reqs]|] eqn:E.
    + exists s', w', reqs. split; [reflexivity|].
      apply (proj2 (handleRandom_finished randomTopic evs r s w) Hc s' w' reqs E).
    + exfalso. apply (proj1 (handleRandom_suspended randomTopic evs r s w Hc) E Hf).
Qed.

(** X27: the article of [handleRandom].  When no client can be built the
    error chunk of the generator is taken for the article and the analysis
    then fails: the welcome text comes back with the no-key message and
    nothing was sent.  With a client, a stream that fails leaves the welcome
    text and the message of the failure.  A stream that ends gives the
    article, the texts of its chunks joined; a blank article is not sent for
    analysis and leaves the list empty without an error, and when no chunk
    came at all the text shown still asks to wait; any other article is sent
    once, and the reply decides between the word list and the welcome text
    with the error of the analysis. *)
Theorem handleRandom_article randomTopic r s w :
  apiKeyConfigured s = true ->
  (forall e w1 evs, ensureAiClient w = (inl e, w1) ->
     exists s', random randomTopic evs r s w = Some (s', w, [])
                /\ error s' = Some no_key_message /\ mainText s' = WELCOME_TEXT)
  /\ (forall client w1 chunks e rest, ensureAiClient w = (inr client, w1) ->
        exists s',
          random randomTopic (Opened :: map Chunk chunks ++ StreamFailed e :: rest) r s w
          = Some (s', w1, [ReqStream client randomTopic])
          /\ error s' = Some (messageOr unknown_error e)
          /\ mainText s' = WELCOME_TEXT)
  /\ (forall client w1 chunks rest, ensureAiClient w = (inr client, w1) ->
        let articleText := concat (visible chunks) in
        (blank articleText ->
           exists s',
             random randomTopic (Opened :: map Chunk chunks ++ StreamEnd :: rest) r s w
             = Some (s', w1, [ReqStream client randomTopic])
             /\ error s' = None /\ analyzedWords s' = []
             /\ mainText s' = match visible chunks with
                              | [] => generating randomTopic
                              | _ :: _ => generated randomTopic articleText
                              end)
        /\ (~ blank articleText ->
            exists s',
              random randomTopic (Opened :: map Chunk chunks ++ StreamEnd :: rest) r s w
              = Some (s', w1, [ReqStream client randomTopic;
                               ReqVocabulary client articleText])
              /\ match analyze_catch (analyze_try JSON_parse r) with
                 | inr words =>
                     analyzedWords s' = words /\ error s' = None
                     /\ mainText s' = generated randomTopic articleText
                 | inl e =>
                     analyzedWords s' = []
                     /\ error s'
                        = Some (messageOr (lit "Failed to generate a random article.") e)
                     /\ mainText s' = WELCOME_TEXT
                 end)).
Proof.
  intros Hc. split; [|split].
  - intros e w1 evs He. pose proof (ensure_client_fail w e w1 He) as ->.
    unfold handleRandom. rewrite Hc. cbn [negb].
    unfold stream_all, streamDefinition. rewrite He.
    rewrite stream_feed_finished. simpl random_loop.
    unfold analyzeTextForVocabulary. rewrite He. simpl.
    eexists. split; [reflexivity|]. split; [|reflexivity].
    unfold ensureAiClient in He. destruct (ai w); [discriminate|].
    destruct (getCurrentApiKey w) as [k|]; [destruct (Js.truthy k)|];
      try discriminate; injection He as <-; reflexivity.
  - intros client w1 chunks e rest He.
    unfold handleRandom. rewrite Hc. cbn [negb].
    unfold stream_all, streamDefinition. rewrite He.
    cbn [stream_feed stream_resume].
    rewrite stream_feed_chunks. cbn [stream_feed stream_resume fst snd].
    rewrite stream_feed_finished. cbn [fst snd]. rewrite ?app_nil_l, ?app_nil_r.
    rewrite random_loop_chunks. simpl random_loop.
    eexists. split; [reflexivity|]. split; reflexivity.
  - intros client w1 chunks rest He articleText.
    assert (Hloop :
              handleRandom JSON_parse WELCOME_TEXT randomTopic
                (Opened :: map Chunk chunks ++ StreamEnd :: rest) r s w
              = (let s1 := setMainText (generating randomTopic)
                             (setSelectedWords [] (setAnalyzedWords []
                                (setMainText ([55358; 56598]%N
                                   ++ lit " AI is generating an educational article...")
                                   (setError None (setLoadingState analyzing s))))) in
                 let s2 := match visible chunks with
                           | [] => s1
                           | _ :: _ => setMainText (generated randomTopic articleText) s1
                           end in
                 let '(t, w2) := analyzeTextForVocabulary JSON_parse articleText w1 in
                 let '(res, sent) := run (fun _ => r) [ReqStream client randomTopic] t in
                 Some (match res with
                       | inr words => setLoadingState idle (setAnalyzedWords words s2)
                       | inl e => random_catch WELCOME_TEXT e s2
                       end, w2, sent))).
    { unfold handleRandom. rewrite Hc. cbn [negb].
      unfold stream_all, streamDefinition. rewrite He.
      cbn [stream_feed stream_resume].
      rewrite stream_feed_chunks. cbn [stream_feed stream_resume fst snd].
      rewrite stream_feed_finished. cbn [fst snd]. rewrite ?app_nil_l, ?app_nil_r.
      rewrite random_loop_chunks. simpl random_loop.
      destruct (visible chunks); reflexivity. }
    rewrite Hloop. clear Hloop. cbv zeta.
    unfold analyzeTextForVocabulary. rewrite (ensure_again w client w1 He).
    subst articleText. remember (visible chunks) as vc eqn:Ev. clear Ev.
    split.
    + intros Hb. apply blank_iff_trim in Hb. rewrite Hb. cbn [negb run].
      eexists. split; [reflexivity|].
      split; [destruct vc; reflexivity|].
      split; [reflexivity|]. destruct vc; reflexivity.
    + intros Hnb.
      assert (Ht : Js.truthy (trim (concat vc)) = true).
      { destruct (Js.truthy (trim (concat vc))) eqn:E; [reflexivity|].
        exfalso. apply Hnb. apply blank_iff_trim. exact E. }
      rewrite Ht. cbn [negb run app length].
      eexists. split; [reflexivity|].
      destruct (analyze_try JSON_parse r) as [e|words]; cbn [analyze_catch].
      * split; [destruct vc; reflexivity|].
        split; [destruct vc; reflexivity|].
        destruct vc; reflexivity.
      * split; [reflexivity|]. split; [destruct vc; reflexivity|].
        destruct vc; [|reflexivity].
        exfalso. apply Hnb. constructor.
Qed.

End RandomArticle.

Lemma handleRandom_envelope_witness :
  exists s' w' reqs,
    handleRandom JSON_parse_sample (lit "Welcome") (lit "Climate Change and Global Warming")
      [Opened; Chunk (Some (lit "Ephemeral ")); Chunk (Some (lit "joys.")); StreamEnd]
      (Responded (Some two_words_json)) fresh_configured keyed_world
    = Some (s', w', reqs)
    /\ loadingState s' = idle
    /\ selectedWords s' = []
    /\ view s' = view fresh_configured
    /\ definitionTopic s' = definitionTopic fresh_configured
    /\ length reqs <= 2
    /\ (error s' = None
        \/ (mainText s' = lit "Welcome" /\ analyzedWords s' = []
            /\ exists msg, error s' = Some msg))
    /\ (lit "Climate Change and Global Warming" ∈ SAMPLE_TOPICS -> client_ok keyed_world ->
        Forall well_formed reqs /\ client_ok w').
Proof.
  apply (proj2 (proj2 (handleRandom_envelope JSON_parse_sample (lit "Welcome")
                         (lit "Climate Change and Global Warming")
                         [Opened; Chunk (Some (lit "Ephemeral ")); Chunk (Some (lit "joys."));
                          StreamEnd]
                         (Responded (Some two_words_json)) fresh_configured keyed_world)
                  eq_refl)).
  vm_compute. reflexivity.
Defined.

Example handleRandom_still_streaming :
  handleRandom JSON_parse_sample (lit "Welcome") (lit "Climate Change and Global Warming")
    [Opened; Chunk (Some (lit "Ephemeral "))]
    (Responded (Some two_words_json)) fresh_configured keyed_world
  = None.
Proof. vm_compute. reflexivity. Qed.

Lemma handleRandom_article_witness :
  exists s',
    handleRandom JSON_parse_sample (lit "Welcome") (lit "Climate Change and Global Warming")
      (Opened :: map Chunk [Some (lit "Ephemeral "); None; Some (lit "joys.")]
         ++ StreamFailed (ErrorObj (lit "503")) :: [])
      (Responded None) fresh_configured keyed_world
    = Some (s', keyed_world,
            [ReqStream (lit "AIzaSyA-0123456789abcdef")
               (lit "Climate Change and Global Warming")])
    /\ error s' = Some (messageOr unknown_error (ErrorObj (lit "503")))
    /\ mainText s' = lit "Welcome".
Proof.
  apply (proj1 (proj2 (handleRandom_article JSON_parse_sample (lit "Welcome")
                         (lit "Climate Change and Global Warming") (Responded None)
                         fresh_configured keyed_world eq_refl))).
  reflexivity.
Defined.

Example handleRandom_two_words :
  option_map (fun x => (analyzedWords x.1.1, x.2))
    (handleRandom JSON_parse_sample (lit "Welcome") (lit "Climate Change and Global Warming")
       [Opened; Chunk (Some (lit "Ephemeral ")); Chunk (Some (lit "joys.")); StreamEnd]
       (Responded (Some two_words_json)) fresh_configured keyed_world)
  = Some ([lit "ephemeral"; lit "joys"],
          [ReqStream (lit "AIzaSyA-0123456789abcdef")
             (lit "Climate Change and Global Warming");
           ReqVocabulary (lit "AIzaSyA-0123456789abcdef") (lit "Ephemeral joys.")]).
Proof. vm_compute. reflexivity. Qed.
